(** * dag-map: a topologically ordered map

    Shallow embedding of [src/dag-map.js] (classes [DAG], [Vertices] and
    [IntStack]) and proofs of the properties its specification states.

    Modelling conventions.
    - A vertex object is the record [Vertex]; its array-like part
      ([length] and the numbered slots holding predecessor indices) is the
      list [incoming].
    - The [Vertices] object is the record [Vertices]: the numbered slots
      are the list [table] (so [this.length] is [length (table s)]) and the
      three [IntStack]s are lists of integers.
    - A reference to a vertex object is its position in [table]: vertex
      objects are created once, stored at [this[l]] and never replaced, so
      two references are aliases exactly when the positions agree, and a
      mutation through one reference is seen through the other.
    - A JavaScript [throw] leaves the mutations made so far in place, so a
      thrown error is returned together with the store as it was left
      ([Throw]).  Reading a property of [undefined] and popping an empty
      stack are reported as [Fault]; the loop of [visit] runs on a bound,
      and [OutOfFuel] reports that the bound was too small.  The theorems
      show that neither happens on a store built through the interface.
    - The coercions [x | 0] are applied to array lengths and to table
      indices (or their complements) only; they are the identity below
      2^31 and are not written out.
    - Keys are strings; the only falsy string is the empty one, and a
      missing key takes the same branches as the empty string.  Values
      are opaque: only [undefined], the value of an omitted argument, is
      told apart.  The visitor passed to [each] is an observer: a
      traversal is modelled by the list of [(key, value)] pairs the
      visitor is called with. *)

From Stdlib Require Import ZArith List String Bool Arith Lia Relations Permutation.
Import ListNotations.
Local Open Scope string_scope.

(** ** Data model *)

(** The payloads stored in the map; [undefined] is the value of an omitted
    argument and of a placeholder vertex. *)
Inductive value : Type :=
| undefined
| number (z : Z)
| text (t : string).

Record Vertex : Type := mkVertex {
  idx : nat;
  key : string;
  val : value;
  out : bool;
  flag : bool;
  incoming : list nat
}.

(** [IntStack]: the head of the list is the top of the stack, i.e. slot
    [length - 1] of the object; the last element is slot [0]. *)
Definition IntStack : Type := list Z.

Definition push (n : Z) (st : IntStack) : IntStack := n :: st.

(** [pop] on an empty stack would leave the object with length [-1]; the
    model reports it with [None]. *)
Definition pop (st : IntStack) : option (Z * IntStack) :=
  match st with
  | [] => None
  | n :: st' => Some (n, st')
  end.

Record Vertices : Type := mkVertices {
  table : list Vertex;
  stack : IntStack;
  path : IntStack;
  result : IntStack
}.

(** [new Vertices()] *)
Definition empty : Vertices := mkVertices [] [] [] [].

Definition with_table (t : list Vertex) (s : Vertices) : Vertices :=
  mkVertices t (stack s) (path s) (result s).
Definition with_stack (st : IntStack) (s : Vertices) : Vertices :=
  mkVertices (table s) st (path s) (result s).
Definition with_path (p : IntStack) (s : Vertices) : Vertices :=
  mkVertices (table s) (stack s) p (result s).
Definition with_result (r : IntStack) (s : Vertices) : Vertices :=
  mkVertices (table s) (stack s) (path s) r.

(** In-place update of the vertex object stored at position [i]. *)
Fixpoint upd (i : nat) (f : Vertex -> Vertex) (t : list Vertex) : list Vertex :=
  match t, i with
  | [], _ => []
  | v :: t', O => f v :: t'
  | v :: t', S i' => v :: upd i' f t'
  end.

Definition set_val (x : value) (v : Vertex) : Vertex :=
  mkVertex (idx v) (key v) x (out v) (flag v) (incoming v).
Definition set_out (b : bool) (v : Vertex) : Vertex :=
  mkVertex (idx v) (key v) (val v) b (flag v) (incoming v).
Definition set_flag (b : bool) (v : Vertex) : Vertex :=
  mkVertex (idx v) (key v) (val v) (out v) b (incoming v).
Definition append_incoming (n : nat) (v : Vertex) : Vertex :=
  mkVertex (idx v) (key v) (val v) (out v) (flag v) (incoming v ++ [n]).

(** ** Outcomes of a call *)

Inductive outcome (A : Type) : Type :=
| Ret (a : A) (s : Vertices)           (* normal return *)
| Throw (msg : string) (s : Vertices)  (* [throw new Error(msg)] *)
| Fault                                (* a property of [undefined] is read,
                                          or an empty stack is popped *)
| OutOfFuel.                           (* the loop bound was exhausted *)
Arguments Ret {A} a s.
Arguments Throw {A} msg s.
Arguments Fault {A}.
Arguments OutOfFuel {A}.

Definition M (A : Type) : Type := Vertices -> outcome A.

Definition ret {A} (a : A) : M A := fun s => Ret a s.
Definition throw {A} (msg : string) : M A := fun s => Throw msg s.
Definition bind {A B} (m : M A) (f : A -> M B) : M B :=
  fun s =>
    match m s with
    | Ret a s' => f a s'
    | Throw msg s' => Throw msg s'
    | Fault => Fault
    | OutOfFuel => OutOfFuel
    end.
Definition get : M Vertices := fun s => Ret s s.
Definition modify (f : Vertices -> Vertices) : M unit := fun s => Ret tt (f s).

Notation "x <- m ;; k" := (bind m (fun x => k))
  (at level 61, m at next level, right associativity).
Notation "m ;;; k" := (bind m (fun _ => k))
  (at level 61, right associativity).

(** [this[i]] followed by a property access: a [TypeError] when the slot is
    empty. *)
Definition vertex_at (i : nat) : M Vertex :=
  fun s =>
    match nth_error (table s) i with
    | Some v => Ret v s
    | None => Fault
    end.

(** ** class Vertices *)

(** The scan of [Vertices.add]: the position of the first vertex whose key
    is [k], counting from [i]. *)
Fixpoint find_key (k : string) (t : list Vertex) (i : nat) : option nat :=
  match t with
  | [] => None
  | v :: t' => if String.eqb (key v) k then Some i else find_key k t' (S i)
  end.

Definition new_vertex (l : nat) (k : string) : Vertex :=
  mkVertex l k undefined false false [].

Definition Vertices_add (k : string) : M nat :=
  fun s =>
    if String.eqb k "" then Throw "missing key" s
    else
      let l := List.length (table s) in
      match find_key k (table s) 0 with
      | Some i => Ret i s
      | None => Ret l (with_table (table s ++ [new_vertex l k]) s)
      end.

Definition reset : M unit :=
  modify (fun s => mkVertices (map (set_flag false) (table s)) [] [] []).

(** [pushIncoming]: the slots are read from the last to the first. *)
Fixpoint pushIncoming_from (rev_incoming : list nat) : M unit :=
  match rev_incoming with
  | [] => ret tt
  | index :: rest =>
      v <- vertex_at index ;;
      (if flag v then ret tt
       else modify (fun s => with_stack (push (Z.of_nat index) (stack s)) s)) ;;;
      pushIncoming_from rest
  end.

Definition pushIncoming (incomming : Vertex) : M unit :=
  pushIncoming_from (rev (incoming incomming)).

(** The [while (stack.length)] loop of [visit]; [break] returns. *)
Fixpoint visit_loop (fuel : nat) (search : string) (s : Vertices) : outcome unit :=
  match fuel with
  | O => OutOfFuel
  | S fuel' =>
      match pop (stack s) with
      | None => Ret tt s
      | Some (index, stk) =>
          let s := with_stack stk s in
          if (0 <=? index)%Z then
            match nth_error (table s) (Z.to_nat index) with
            | None => Fault
            | Some vertex =>
                if flag vertex then visit_loop fuel' search s
                else
                  let s := with_table (upd (Z.to_nat index) (set_flag true) (table s)) s in
                  let s := with_path (push index (path s)) s in
                  if String.eqb search (key vertex) then Ret tt s
                  else
                    let s := with_stack (push (Z.lnot index) (stack s)) s in
                    match pushIncoming vertex s with
                    | Ret _ s' => visit_loop fuel' search s'
                    | Throw msg s' => Throw msg s'
                    | Fault => Fault
                    | OutOfFuel => OutOfFuel
                    end
            end
          else
            match pop (path s) with
            | None => Fault
            | Some (_, pth) =>
                visit_loop fuel' search
                  (with_result (push (Z.lnot index) (result s)) (with_path pth s))
            end
      end
  end.

(** A bound on the iterations of the loop: every iteration pops one entry,
    and a vertex pushes its exit marker and its predecessors at most
    once. *)
Definition loop_bound (s : Vertices) : nat :=
  S (List.length (stack s)
     + fold_right (fun v n => 2 + List.length (incoming v) + n) 0 (table s)).

Definition visit (start : nat) (search : string) : M unit :=
  v <- vertex_at start ;;
  modify (fun s => with_stack (push (Z.of_nat (idx v)) (stack s)) s) ;;;
  (fun s => visit_loop (loop_bound s) search s).

(** [each(indices, cb)]: the calls made to [cb], slot [0] first. *)
Fixpoint each_from (slots : list Z) : M (list (string * value)) :=
  match slots with
  | [] => ret []
  | i :: rest =>
      vertex <- (fun s => if (i <? 0)%Z then Fault else vertex_at (Z.to_nat i) s) ;;
      calls <- each_from rest ;;
      ret ((key vertex, val vertex) :: calls)
  end.

Definition each (indices : IntStack) : M (list (string * value)) :=
  each_from (rev indices).

(** The "shallow check" loop of [check]. *)
Fixpoint shallow_check (vkey w : string) (slots : list nat) : M unit :=
  match slots with
  | [] => ret tt
  | i :: rest =>
      u <- vertex_at i ;;
      if String.eqb (key u) w
      then throw ("cycle detected: " ++ w ++ " <- " ++ vkey ++ " <- " ++ w)
      else shallow_check vkey w rest
  end.

Definition chain_message (w : string) (calls : list (string * value)) : string :=
  fold_left (fun msg kv => msg ++ " <- " ++ fst kv) calls ("cycle detected: " ++ w).

Definition check (v : nat) (w : string) : M unit :=
  vv <- vertex_at v ;;
  if String.eqb (key vv) w
  then throw ("cycle detected: " ++ w ++ " <- " ++ w)
  else if Nat.eqb (List.length (incoming vv)) 0 then ret tt
  else
    shallow_check (key vv) w (incoming vv) ;;;
    reset ;;;
    visit v w ;;;
    s <- get ;;
    if Nat.ltb 0 (List.length (path s))
    then calls <- each (path s) ;; throw (chain_message w calls)
    else ret tt.

Definition addEdge (v w : nat) : M unit :=
  wv <- vertex_at w ;;
  check v (key wv) ;;;
  vv <- vertex_at v ;;
  wv <- vertex_at w ;;
  if existsb (Nat.eqb (idx vv)) (incoming wv) then ret tt
  else
    modify (fun s => with_table (upd w (append_incoming (idx vv)) (table s)) s) ;;;
    modify (fun s => with_table (upd v (set_out true) (table s)) s).

(** The [for] loop of [walk], over the given positions. *)
Fixpoint walk_from (positions : list nat) : M unit :=
  match positions with
  | [] => ret tt
  | i :: rest =>
      vertex <- vertex_at i ;;
      (if out vertex then ret tt else visit i "") ;;;
      walk_from rest
  end.

Definition walk : M (list (string * value)) :=
  reset ;;;
  s <- get ;;
  walk_from (seq 0 (List.length (table s))) ;;;
  s <- get ;;
  each (result s).

(** ** class DAG *)

(** The [before] and [after] arguments: omitted, one key, or an array of
    keys. *)
Inductive keys : Type :=
| omitted
| one (k : string)
| many (ks : list string).

Definition truthy (c : keys) : bool :=
  match c with
  | omitted => false
  | one k => negb (String.eqb k "")
  | many _ => true
  end.

Definition targets (c : keys) : list string :=
  match c with
  | omitted => []
  | one k => [k]
  | many ks => ks
  end.

(** The loop over the constraint targets: each key is resolved with
    [vertices.add] and then linked to the vertex of the call. *)
Fixpoint add_edges (link : nat -> M unit) (ks : list string) : M unit :=
  match ks with
  | [] => ret tt
  | k :: rest => w <- Vertices_add k ;; link w ;;; add_edges link rest
  end.

Definition DAG_add (k : string) (x : value) (before after : keys) : M unit :=
  if String.eqb k "" then throw "argument `key` is required"
  else
    v <- Vertices_add k ;;
    modify (fun s => with_table (upd v (set_val x) (table s)) s) ;;;
    (if truthy before
     then add_edges (fun w => addEdge v w) (targets before)
     else ret tt) ;;;
    (if truthy after
     then add_edges (fun w => addEdge w v) (targets after)
     else ret tt).

Definition DAG_each : M (list (string * value)) := walk.

(** ** Sequences of calls *)

(** A client calls [add] and [each] in any order, and may catch the error
    of a rejected [add] and go on using the instance. *)
Inductive op : Type :=
| Add (k : string) (x : value) (before after : keys)
| Each.

(** The store after one call, whether it returned or threw. *)
Definition step (o : op) (s : Vertices) : option Vertices :=
  match o with
  | Add k x before after =>
      match DAG_add k x before after s with
      | Ret _ s' => Some s'
      | Throw _ s' => Some s'
      | Fault => None
      | OutOfFuel => None
      end
  | Each =>
      match DAG_each s with
      | Ret _ s' => Some s'
      | Throw _ s' => Some s'
      | Fault => None
      | OutOfFuel => None
      end
  end.

Fixpoint run (os : list op) (s : Vertices) : option Vertices :=
  match os with
  | [] => Some s
  | o :: rest =>
      match step o s with
      | Some s' => run rest s'
      | None => None
      end
  end.

(** ** The graph stored in the table *)

Local Open Scope list_scope.

Definition clean (t : list Vertex) : list Vertex := map (set_flag false) t.

(** The predecessor indices recorded at position [x]. *)
Definition inc (t : list Vertex) (x : nat) : list nat :=
  match nth_error t x with
  | Some v => incoming v
  | None => []
  end.

Definition flagged (t : list Vertex) (x : nat) : bool :=
  match nth_error t x with
  | Some v => flag v
  | None => false
  end.

(** [edge t x c]: [c] is a recorded predecessor of [x]. *)
Definition edge (t : list Vertex) (x c : nat) : Prop := In c (inc t x).

Definition reaches (t : list Vertex) : nat -> nat -> Prop :=
  clos_refl_trans nat (edge t).

Definition acyclic (t : list Vertex) : Prop :=
  forall x, ~ clos_trans nat (edge t) x x.

(** All recorded predecessor indices are positions of the table. *)
Definition closed (t : list Vertex) : Prop :=
  forall x c, edge t x c -> c < List.length t.

(** ** Recursive depth-first visit

    The traversal as the specification words it: a vertex that is not yet
    visited is marked, its predecessors are visited in listed order, and
    then the vertex is appended to the result.  [t_path] holds the
    vertices entered and not yet left, the most recent first; [t_result]
    the vertices left, the most recent first. *)

Record trav : Type := mkTrav {
  t_table : list Vertex;
  t_path : list nat;
  t_result : list nat
}.

Fixpoint visit_list (visit1 : nat -> trav -> option (bool * trav))
    (cs : list nat) (d : trav) : option (bool * trav) :=
  match cs with
  | [] => Some (false, d)
  | c :: cs' =>
      match visit1 c d with
      | Some (false, d') => visit_list visit1 cs' d'
      | r => r
      end
  end.

(** The boolean tells whether a vertex with key [search] was met, in which
    case the visit stops at once.  [None]: a position outside the table,
    or a recursion deeper than [depth]. *)
Fixpoint visit_rec (depth : nat) (search : string) (x : nat) (d : trav)
    : option (bool * trav) :=
  match nth_error (t_table d) x with
  | None => None
  | Some v =>
      if flag v then Some (false, d)
      else
        match depth with
        | O => None
        | S depth' =>
            let d1 := mkTrav (upd x (set_flag true) (t_table d))
                             (x :: t_path d) (t_result d) in
            if String.eqb search (key v) then Some (true, d1)
            else
              match visit_list (visit_rec depth' search) (incoming v) d1 with
              | Some (false, d2) =>
                  Some (false, mkTrav (t_table d2) (t_path d) (x :: t_result d2))
              | r => r
              end
        end
  end.

(** The store a traversal state stands for, given the work stack. *)
Definition conc (stk : IntStack) (d : trav) : Vertices :=
  mkVertices (t_table d) stk (map Z.of_nat (t_path d)) (map Z.of_nat (t_result d)).

(** Loop iterations still owed by the vertices not yet visited. *)
Definition pot (t : list Vertex) : nat :=
  fold_right (fun v n => (if flag v then 0 else 2 + List.length (incoming v)) + n) 0 t.

(** The roots are taken in insertion order; a vertex with a successor is
    not a root. *)
Fixpoint roots_rec (positions : list nat) (d : trav) : option trav :=
  match positions with
  | [] => Some d
  | i :: rest =>
      match nth_error (t_table d) i with
      | None => None
      | Some v =>
          if out v then roots_rec rest d
          else
            match visit_rec (List.length (t_table d)) "" i d with
            | Some (_, d') => roots_rec rest d'
            | None => None
            end
      end
  end.

(** What the visitor is called with for position [i]. *)
Definition entry (t : list Vertex) (i : nat) : string * value :=
  match nth_error t i with
  | Some v => (key v, val v)
  | None => ("", undefined)
  end.

Definition kv (v : Vertex) : string * value := (key v, val v).

(** The state in which a traversal starts: no flag, empty buffers. *)
Definition start_trav (t : list Vertex) : trav :=
  mkTrav (map (set_flag false) t) [] [].

(** The order of emission as the specification words it: the post-order of
    the recursive visit. *)
Definition walk_rec (t : list Vertex) : option (list (string * value)) :=
  match roots_rec (seq 0 (List.length t)) (start_trav t) with
  | Some d => Some (map (entry t) (rev (t_result d)))
  | None => None
  end.

(** ** Invariants of the table *)

(** What the structure keeps for good about a vertex: everything but the
    payload and the traversal flag. *)
Definition skeleton (v : Vertex) : nat * string * bool * list nat :=
  (idx v, key v, out v, incoming v).

(** The invariant of the table: indices are positions, keys are not empty
    and pairwise distinct, predecessor indices are positions, a vertex
    marked [out] is a predecessor of some vertex, and there is no cycle. *)
Record wf (t : list Vertex) : Prop := mkWf {
  wf_idx : forall i v, nth_error t i = Some v -> idx v = i;
  wf_key : forall i v, nth_error t i = Some v -> key v <> "";
  wf_uniq : forall i j v u,
      nth_error t i = Some v -> nth_error t j = Some u -> key v = key u -> i = j;
  wf_closed : closed t;
  wf_out : forall i v, nth_error t i = Some v -> out v = true -> exists y, edge t y i;
  wf_acyclic : acyclic t
}.

(** [grows t t']: every vertex of [t] is in [t'] at the same position with
    the same index, key and value, and with its list of predecessors
    extended at the end; the vertices created since have no value. *)
Definition grows (t t' : list Vertex) : Prop :=
  (forall i v, nth_error t i = Some v ->
     exists v', nth_error t' i = Some v' /\ idx v' = idx v /\ key v' = key v
                /\ val v' = val v /\ exists extra, incoming v' = incoming v ++ extra)
  /\ (forall i v', List.length t <= i -> nth_error t' i = Some v' -> val v' = undefined).

(** What a call [add(k, x, ...)] does to the table: every vertex keeps its
    position, index and key, and its predecessors as a prefix; the values
    of the other keys are kept; vertices created for other keys have no
    value; the vertex of [k] holds [x]. *)
Definition changes (k : string) (x : value) (t t' : list Vertex) : Prop :=
  (forall i v, nth_error t i = Some v ->
     exists v', nth_error t' i = Some v' /\ idx v' = idx v /\ key v' = key v
                /\ (key v <> k -> val v' = val v)
                /\ exists extra, incoming v' = incoming v ++ extra)
  /\ (forall i v', List.length t <= i -> nth_error t' i = Some v' ->
        key v' <> k -> val v' = undefined)
  /\ (exists i v', nth_error t' i = Some v' /\ key v' = k /\ val v' = x).

(** The table once [addEdge] has recorded [n] as a predecessor of the
    vertex at [w] and marked the vertex at [v]. *)
Definition add_edge_at (v w n : nat) (t : list Vertex) : list Vertex :=
  upd v (set_out true) (upd w (append_incoming n) t).

(** The same when the index stored at [v] is [v], as in a well-formed
    table. *)
Definition add_edge (v w : nat) (t : list Vertex) : list Vertex :=
  upd v (set_out true) (upd w (append_incoming v) t).

(** ** Outcomes *)

(** The call returns or throws, leaving the store [s']. *)
Definition finishes {A} (o : outcome A) (s' : Vertices) : Prop :=
  (exists a, o = Ret a s') \/ (exists msg, o = Throw msg s').

(** A way of linking a resolved target to the vertex at [v] that finishes
    and keeps the invariant. *)
Definition safe_link (v : nat) (link : nat -> M unit) : Prop :=
  forall s w, wf (table s) -> v < List.length (table s) -> w < List.length (table s) ->
    exists s', finishes (link w s) s' /\ wf (table s')
               /\ grows (table s) (table s')
               /\ List.length (table s') = List.length (table s).

(** Two stores with the same vertices, values and edges: they differ at
    most in the traversal flags and the three stacks. *)
Definition same_store (s s' : Vertices) : Prop := clean (table s) = clean (table s').

(** Two outcomes of the same kind, with related results, the same message
    and the same store up to flags and stacks. *)
Definition agree {A} (R : A -> A -> Prop) (o o' : outcome A) : Prop :=
  match o, o' with
  | Ret a s, Ret a' s' => R a a' /\ same_store s s'
  | Throw m s, Throw m' s' => m = m' /\ same_store s s'
  | Fault, Fault => True
  | OutOfFuel, OutOfFuel => True
  | _, _ => False
  end.

Definition vsim (v v' : Vertex) : Prop := set_flag false v = set_flag false v'.

(** The calls of [add] of a sequence, in order. *)
Definition adds_of (os : list op) : list op :=
  filter (fun o => match o with Add _ _ _ _ => true | Each => false end) os.

(** ** Sample runs *)

(** The order emitted after the calls [os], when they all finish. *)
Definition emitted (os : list op) : option (list (string * value)) :=
  match run os empty with
  | Some s =>
      match DAG_each s with
      | Ret out _ => Some out
      | _ => None
      end
  | None => None
  end.

(** The message of the error thrown by a call of [add] after the calls
    [os]. *)
Definition rejected (os : list op) (k : string) (x : value) (before after : keys)
  : option string :=
  match run os empty with
  | Some s =>
      match DAG_add k x before after s with
      | Throw msg _ => Some msg
      | _ => None
      end
  | None => None
  end.

Definition sample : list op :=
  [Add "b" (number 2) omitted (one "a"); Add "a" (number 1) omitted omitted].

(** ** Cycle errors *)

(** The text of a cycle error for the successor key [w] and the keys [ks]
    of the chain. *)
Fixpoint arrows (ks : list string) : string :=
  match ks with
  | [] => ""
  | k :: rest => (" <- " ++ k ++ arrows rest)%string
  end.

Definition cycle_message (w : string) (ks : list string) : string :=
  ("cycle detected: " ++ w ++ arrows ks)%string.

Definition keys_of (t : list Vertex) (p : list nat) : list string :=
  map (fun i => fst (entry t i)) p.

(** [pred_path g x p z]: [p] lists the vertices of a walk from [x] to [z]
    along predecessor edges, [x] first. *)
Inductive pred_path (g : list Vertex) : nat -> list nat -> nat -> Prop :=
| pp_one x : pred_path g x [x] x
| pp_cons x c p z : edge g x c -> pred_path g c p z -> pred_path g x (x :: p) z.

(** ** Notions used in the proofs about the visit *)

Definition unflagged (t : list Vertex) (c : nat) : bool := negb (flagged t c).

(** The number of vertices not yet visited. *)
Definition pending (t : list Vertex) : nat :=
  List.length (filter (fun v => negb (flag v)) t).

(** [frame d d']: [d'] has the graph of [d] and at least its flags. *)
Definition frame (d d' : trav) : Prop :=
  clean (t_table d') = clean (t_table d)
  /\ forall c, flagged (t_table d) c = true -> flagged (t_table d') c = true.

(** A visit only sets flags; when it does not stop it leaves the path as
    it found it and adds to the result. *)
Definition framed (visit1 : nat -> trav -> option (bool * trav)) : Prop :=
  forall c d b d', visit1 c d = Some (b, d') ->
    frame d d' /\ (b = false -> t_path d' = t_path d /\
                   exists new, t_result d' = new ++ t_result d).

(** A visit that returns whenever [depth] is at least the number of
    vertices not yet visited. *)
Definition total (depth : nat) (visit1 : nat -> trav -> option (bool * trav)) : Prop :=
  forall x d, closed (t_table d) -> x < List.length (t_table d) ->
    pending (t_table d) <= depth ->
    exists b d', visit1 x d = Some (b, d')
                 /\ pending (t_table d') <= pending (t_table d).

(** [simulates search items d r k]: with the entries [items] on top of the
    stack, [k] iterations of the loop of [visit] lead from [d] to the
    outcome [r] of the recursive visit: the loop goes on with the rest of
    the stack, or has left when [r] reports that the search stopped. *)
Definition simulates (search : string) (items : list Z) (d : trav)
    (r : bool * trav) (k : nat) : Prop :=
  forall rest,
    (fst r = false -> forall m,
       visit_loop (k + m) search (conc (items ++ rest) d)
       = visit_loop m search (conc rest (snd r)))
    /\ (fst r = true -> exists junk, forall m,
       visit_loop (k + m) search (conc (items ++ rest) d)
       = Ret tt (conc junk (snd r))).

(** [ordered g r]: in the result [r] (most recent first) every vertex comes
    after all its predecessors. *)
Fixpoint ordered (g : list Vertex) (r : list nat) : Prop :=
  match r with
  | [] => True
  | y :: l => (forall c, edge g y c -> In c l) /\ ordered g l
  end.

(** The invariant of a traversal of the graph [g]: the visited vertices
    are those on the path or in the result, none twice; the result is
    ordered; no vertex of the result has the key [search]. *)
Definition Inv (g : list Vertex) (search : string) (d : trav) : Prop :=
  clean (t_table d) = clean g
  /\ (forall i, flagged (t_table d) i = true <-> In i (t_path d ++ t_result d))
  /\ NoDup (t_path d ++ t_result d)
  /\ ordered g (t_result d)
  /\ (forall y v, In y (t_result d) -> nth_error g y = Some v ->
        String.eqb search (key v) = false).

(** [good g search visit1]: a visit that does not stop keeps the
    invariant and leaves its start vertex visited, provided the vertices
    on the path all reach the start. *)
Definition good (g : list Vertex) (search : string)
    (visit1 : nat -> trav -> option (bool * trav)) : Prop :=
  forall c d d', Inv g search d ->
    (forall a, In a (t_path d) -> clos_trans nat (edge g) a c) ->
    visit1 c d = Some (false, d') ->
    Inv g search d' /\ flagged (t_table d') c = true.

(** [sound g search visit1]: when the visit stops, the path holds a walk
    from the start to a vertex whose key is [search]. *)
Definition sound (g : list Vertex) (search : string)
    (visit1 : nat -> trav -> option (bool * trav)) : Prop :=
  forall x d d', clean (t_table d) = clean g ->
    visit1 x d = Some (true, d') ->
    exists p z vz, t_path d' = rev p ++ t_path d /\ pred_path g x p z
                   /\ nth_error g z = Some vz /\ search = key vz.

(** ** Notions for the further properties *)

(** Two more invariants of the table: no predecessor is listed twice, and
    every listed predecessor carries the [out] mark. *)
Record tidy (t : list Vertex) : Prop := mkTidy {
  tidy_nodup : forall i v, nth_error t i = Some v -> NoDup (incoming v);
  tidy_out : forall x c v, edge t x c -> nth_error t c = Some v -> out v = true
}.

(** A property of tables that survives everything a call does to a
    well-formed table: changing values and flags, appending a vertex for
    a new key, recording a new edge that closes no cycle. *)
Record kept (I : list Vertex -> Prop) : Prop := mkKept {
  kept_skeleton : forall t t', map skeleton t = map skeleton t' -> I t -> I t';
  kept_snoc : forall t k,
      wf t -> I t -> (forall j v, nth_error t j = Some v -> key v <> k) ->
      I (t ++ [new_vertex (List.length t) k]);
  kept_edge : forall t v w wv,
      wf t -> I t -> v < List.length t -> nth_error t w = Some wv ->
      ~ In v (incoming wv) -> ~ reaches t v w -> I (add_edge v w t)
}.

(** [persists t t']: every vertex of [t] is in [t'] at the same position,
    with its index and key, and with its predecessors as a prefix. *)
Definition persists (t t' : list Vertex) : Prop :=
  forall i v, nth_error t i = Some v ->
    exists v', nth_error t' i = Some v' /\ idx v' = idx v /\ key v' = key v
               /\ exists extra, incoming v' = incoming v ++ extra.

(** A call without constraint: [each], or [add] with [before] and [after]
    omitted (or empty strings). *)
Definition plain (o : op) : bool :=
  match o with
  | Add _ _ before after => negb (truthy before) && negb (truthy after)
  | Each => true
  end.

(** A table without any recorded edge. *)
Definition flat (t : list Vertex) : Prop := Forall (fun v => incoming v = []) t.

(** ** Basic facts on tables *)

Lemma upd_length i f t : List.length (upd i f t) = List.length t.
Proof.
  revert i; induction t as [|v t IH]; intros [|i]; simpl; auto.
Qed.

Lemma nth_error_upd_eq i f t v :
  nth_error t i = Some v -> nth_error (upd i f t) i = Some (f v).
Proof.
  revert i; induction t as [|u t IH]; intros [|i]; simpl; try discriminate.
  - intros H; inversion H; reflexivity.
  - apply IH.
Qed.

Lemma nth_error_upd_neq i j f t :
  i <> j -> nth_error (upd i f t) j = nth_error t j.
Proof.
  revert i j; induction t as [|u t IH]; intros [|i] [|j] H; simpl; auto;
    congruence.
Qed.

Lemma map_upd_absorb {B} (g : Vertex -> B) (f : Vertex -> Vertex) i t :
  (forall v, g (f v) = g v) -> map g (upd i f t) = map g t.
Proof.
  intros H. revert i; induction t as [|u t IH]; intros [|i]; simpl; auto.
  - rewrite H; reflexivity.
  - rewrite IH; reflexivity.
Qed.

Lemma clean_upd_flag i b t : clean (upd i (set_flag b) t) = clean t.
Proof. apply map_upd_absorb. intros []; reflexivity. Qed.

Lemma clean_idem t : clean (clean t) = clean t.
Proof.
  unfold clean. rewrite map_map. apply map_ext. intros []; reflexivity.
Qed.

Lemma clean_length t : List.length (clean t) = List.length t.
Proof. apply length_map. Qed.

Lemma clean_nth t t' x v :
  clean t = clean t' -> nth_error t x = Some v ->
  exists v', nth_error t' x = Some v' /\ set_flag false v' = set_flag false v.
Proof.
  intros E H.
  assert (H1 : nth_error (clean t) x = Some (set_flag false v))
    by (unfold clean; rewrite nth_error_map, H; reflexivity).
  rewrite E in H1. unfold clean in H1. rewrite nth_error_map in H1.
  destruct (nth_error t' x) as [v'|]; simpl in H1; [|discriminate].
  exists v'. split; [reflexivity|congruence].
Qed.

Lemma set_flag_false_eq v v' :
  set_flag false v' = set_flag false v ->
  idx v' = idx v /\ key v' = key v /\ val v' = val v /\ out v' = out v
  /\ incoming v' = incoming v.
Proof. destruct v, v'; simpl; intros H; inversion H; auto. Qed.

Lemma clean_inc t t' x : clean t = clean t' -> inc t x = inc t' x.
Proof.
  intros E. unfold inc.
  destruct (nth_error t x) as [v|] eqn:H.
  - destruct (clean_nth _ _ _ _ E H) as (v' & -> & Hv).
    apply set_flag_false_eq in Hv. symmetry; tauto.
  - destruct (nth_error t' x) as [v'|] eqn:H'; [|reflexivity].
    destruct (clean_nth _ _ _ _ (eq_sym E) H') as (v & Hv & _). congruence.
Qed.

Lemma clean_edge t t' x c : clean t = clean t' -> edge t x c -> edge t' x c.
Proof. unfold edge. intros E. rewrite (clean_inc _ _ x E). auto. Qed.

Lemma clean_closed t t' : clean t = clean t' -> closed t -> closed t'.
Proof.
  intros E H x c Hc. rewrite <- (clean_length t'), <- E, clean_length.
  apply (H x). eapply clean_edge; [symmetry; exact E|exact Hc].
Qed.

Lemma flagged_upd_mono x t c :
  flagged t c = true -> flagged (upd x (set_flag true) t) c = true.
Proof.
  unfold flagged. intros H.
  destruct (nth_error t c) as [v|] eqn:E; [|discriminate].
  destruct (Nat.eq_dec x c) as [->|Hn].
  - rewrite (nth_error_upd_eq _ _ _ _ E). reflexivity.
  - rewrite nth_error_upd_neq, E by assumption. assumption.
Qed.

Lemma flagged_upd_same x t v :
  nth_error t x = Some v -> flagged (upd x (set_flag true) t) x = true.
Proof.
  intros E. unfold flagged. rewrite (nth_error_upd_eq _ _ _ _ E). reflexivity.
Qed.

Lemma flagged_upd_other x t c :
  x <> c -> flagged (upd x (set_flag true) t) c = flagged t c.
Proof.
  intros H. unfold flagged. rewrite nth_error_upd_neq by assumption. reflexivity.
Qed.

Lemma flagged_lt t c : flagged t c = true -> c < List.length t.
Proof.
  unfold flagged. intros H. apply nth_error_Some.
  destruct (nth_error t c); [discriminate|discriminate].
Qed.

(** ** The recursive visit only sets flags *)

Lemma frame_refl d : frame d d.
Proof. split; auto. Qed.

Lemma frame_trans d1 d2 d3 : frame d1 d2 -> frame d2 d3 -> frame d1 d3.
Proof. intros [E1 F1] [E2 F2]. split; [congruence|auto]. Qed.

Lemma visit_list_framed visit1 : framed visit1 ->
  forall cs, framed (fun _ => visit_list visit1 cs).
Proof.
  intros Hv cs _. induction cs as [|c cs IH]; intros d b d' H; simpl in H.
  - inversion H; subst. split; [apply frame_refl|]. intros _. split; auto.
    exists []; reflexivity.
  - destruct (visit1 c d) as [[[] d1]|] eqn:E; [| |discriminate].
    + inversion H; subst. apply Hv in E. split; [tauto|discriminate].
    + apply Hv in E. destruct E as [F1 P1]. destruct (P1 eq_refl) as [P1a [n1 P1b]].
      apply IH in H. destruct H as [F2 P2]. split; [eapply frame_trans; eauto|].
      intros Hb. destruct (P2 Hb) as [P2a [n2 P2b]]. split; [congruence|].
      exists (n2 ++ n1). rewrite P2b, P1b, app_assoc. reflexivity.
Qed.

Lemma visit_rec_framed depth search : framed (visit_rec depth search).
Proof.
  induction depth as [|depth IH]; intros x d b d' H; simpl in H;
    destruct (nth_error (t_table d) x) as [v|] eqn:E; try discriminate;
    destruct (flag v) eqn:Ef; try discriminate;
    try (inversion H; subst; split; [apply frame_refl|];
         intros _; split; [reflexivity|exists []; reflexivity]).
  set (d1 := mkTrav (upd x (set_flag true) (t_table d)) (x :: t_path d) (t_result d)) in *.
  assert (F1 : frame d d1).
  { split; simpl; [apply clean_upd_flag|apply flagged_upd_mono]. }
  destruct (String.eqb search (key v)).
  - inversion H; subst. split; [assumption|discriminate].
  - destruct (visit_list (visit_rec depth search) (incoming v) d1)
      as [[[] d2]|] eqn:EL; try discriminate.
    + inversion H; subst.
      apply (visit_list_framed _ IH (incoming v) x) in EL. split; [|discriminate].
      eapply frame_trans; [exact F1|tauto].
    + inversion H; subst.
      apply (visit_list_framed _ IH (incoming v) x) in EL.
      destruct EL as [F2 P2]. destruct (P2 eq_refl) as [P2a [n2 P2b]].
      split.
      * eapply frame_trans; [exact F1|]. destruct F2; split; assumption.
      * intros _. simpl. split; [reflexivity|].
        exists (x :: n2). rewrite P2b. reflexivity.
Qed.

(** ** The loop of [visit] simulates the recursive visit *)

Lemma pot_upd t x v :
  nth_error t x = Some v -> flag v = false ->
  pot t = 2 + List.length (incoming v) + pot (upd x (set_flag true) t).
Proof.
  unfold pot.
  revert x; induction t as [|u t IH]; intros [|x] E Ef;
    cbn [fold_right upd nth_error] in *; try discriminate.
  - inversion E; subst. rewrite Ef. cbn [flag set_flag]. lia.
  - rewrite (IH _ E Ef). lia.
Qed.

Lemma pot_le_all t :
  pot t <= fold_right (fun v n => 2 + List.length (incoming v) + n) 0 t.
Proof.
  unfold pot. induction t as [|u t IH]; cbn [fold_right]; [lia|].
  destruct (flag u); lia.
Qed.

Lemma pushIncoming_from_ok l s :
  (forall c, In c l -> c < List.length (table s)) ->
  pushIncoming_from l s
  = Ret tt (with_stack (rev (map Z.of_nat (filter (unflagged (table s)) l)) ++ stack s) s).
Proof.
  revert s; induction l as [|c l IH]; intros s Hl.
  - destruct s; reflexivity.
  - assert (Hc : c < List.length (table s)) by (apply Hl; left; reflexivity).
    apply nth_error_Some in Hc.
    destruct (nth_error (table s) c) as [v|] eqn:E; [clear Hc|congruence].
    simpl. unfold bind at 1. unfold vertex_at. rewrite E.
    unfold unflagged at 1, flagged. rewrite E.
    destruct (flag v) eqn:Ef; simpl; unfold bind, ret, modify.
    + apply IH. intros; apply Hl; right; assumption.
    + rewrite IH by (intros; apply Hl; right; assumption).
      simpl. rewrite <- app_assoc. reflexivity.
Qed.

Lemma pushIncoming_ok v s :
  (forall c, In c (incoming v) -> c < List.length (table s)) ->
  pushIncoming v s
  = Ret tt (with_stack (map Z.of_nat (filter (unflagged (table s)) (incoming v)) ++ stack s) s).
Proof.
  intros H. unfold pushIncoming. rewrite pushIncoming_from_ok.
  - rewrite filter_rev, map_rev, rev_involutive. reflexivity.
  - intros c Hc. apply H. apply in_rev. assumption.
Qed.

Lemma loop_skip search m x rest d v :
  nth_error (t_table d) x = Some v -> flag v = true ->
  visit_loop (S m) search (conc (Z.of_nat x :: rest) d)
  = visit_loop m search (conc rest d).
Proof.
  intros E Ef. simpl.
  destruct (Z.leb_spec 0 (Z.of_nat x)); [|lia].
  rewrite Nat2Z.id, E, Ef. reflexivity.
Qed.

Lemma loop_found search m x rest d v :
  nth_error (t_table d) x = Some v -> flag v = false ->
  String.eqb search (key v) = true ->
  visit_loop (S m) search (conc (Z.of_nat x :: rest) d)
  = Ret tt (conc rest (mkTrav (upd x (set_flag true) (t_table d))
                              (x :: t_path d) (t_result d))).
Proof.
  intros E Ef Ek. simpl.
  destruct (Z.leb_spec 0 (Z.of_nat x)); [|lia].
  rewrite Nat2Z.id, E, Ef, Ek. reflexivity.
Qed.

Lemma loop_enter search m x rest d v :
  closed (t_table d) ->
  nth_error (t_table d) x = Some v -> flag v = false ->
  String.eqb search (key v) = false ->
  let d1 := mkTrav (upd x (set_flag true) (t_table d)) (x :: t_path d) (t_result d) in
  visit_loop (S m) search (conc (Z.of_nat x :: rest) d)
  = visit_loop m search
      (conc (map Z.of_nat (filter (unflagged (t_table d1)) (incoming v))
             ++ Z.lnot (Z.of_nat x) :: rest) d1).
Proof.
  intros Hc E Ef Ek d1. simpl.
  destruct (Z.leb_spec 0 (Z.of_nat x)); [|lia].
  rewrite Nat2Z.id, E, Ef, Ek.
  rewrite pushIncoming_ok.
  - reflexivity.
  - intros c Hin. simpl. rewrite upd_length. apply (Hc x).
    unfold edge, inc. rewrite E. assumption.
Qed.

Lemma loop_exit search m x rest d p :
  t_path d = x :: p ->
  visit_loop (S m) search (conc (Z.lnot (Z.of_nat x) :: rest) d)
  = visit_loop m search (conc rest (mkTrav (t_table d) p (x :: t_result d))).
Proof.
  intros Ep. simpl.
  destruct (Z.leb_spec 0 (Z.lnot (Z.of_nat x))) as [H|_].
  - unfold Z.lnot in H. lia.
  - rewrite Ep. simpl. rewrite Z.lnot_involutive. reflexivity.
Qed.

Lemma visit_rec_flagged depth search c d :
  flagged (t_table d) c = true -> visit_rec depth search c d = Some (false, d).
Proof.
  unfold flagged. intros H.
  destruct depth; simpl; destruct (nth_error (t_table d) c) as [v|];
    try discriminate; rewrite H; reflexivity.
Qed.

Section Simulation.
Variables (depth : nat) (search : string).
Hypothesis sim_one : forall x d r,
  closed (t_table d) -> visit_rec depth search x d = Some r ->
  exists k, k + pot (t_table (snd r)) <= 1 + pot (t_table d)
            /\ simulates search [Z.of_nat x] d r k.

Lemma sim_list cs : forall t0 d r,
  closed (t_table d) ->
  (forall c, flagged t0 c = true -> flagged (t_table d) c = true) ->
  visit_list (visit_rec depth search) cs d = Some r ->
  exists k, k + pot (t_table (snd r))
            <= List.length (filter (unflagged t0) cs) + pot (t_table d)
            /\ simulates search (map Z.of_nat (filter (unflagged t0) cs)) d r k.
Proof.
  induction cs as [|c cs IH]; intros t0 d r Hc Hsub H; simpl in H.
  - inversion H; subst. exists 0. split; [simpl; lia|].
    intros rest. split; [reflexivity|discriminate].
  - cbn [filter]. destruct (unflagged t0 c) eqn:Ft; cbn [map List.length];
      unfold unflagged in Ft;
      [apply negb_true_iff in Ft|apply negb_false_iff in Ft].
    2:{ rewrite visit_rec_flagged in H by auto. eapply IH; eauto. }
    + destruct (visit_rec depth search c d) as [[b d1]|] eqn:E; [|discriminate].
      destruct (sim_one _ _ _ Hc E) as (k1 & B1 & S1). simpl in B1.
      destruct b.
      * inversion H; subst. exists k1. split; [simpl; lia|].
        intros rest. split; [discriminate|]. intros _.
        destruct (S1 (map Z.of_nat (filter (unflagged t0) cs) ++ rest)) as [_ S1b].
        destruct (S1b eq_refl) as [junk Hj]. exists junk. exact Hj.
      * destruct (visit_rec_framed _ _ _ _ _ _ E) as [[Fc Ff] _].
        destruct (IH t0 d1 r) as (k2 & B2 & S2); auto.
        { eapply clean_closed; [symmetry; exact Fc|exact Hc]. }
        exists (k1 + k2). split; [lia|].
        intros rest.
        destruct (S1 (map Z.of_nat (filter (unflagged t0) cs) ++ rest)) as [S1a _].
        destruct (S2 rest) as [S2a S2b].
        simpl in S1a. split.
        -- intros Hr m. rewrite <- Nat.add_assoc. simpl.
           rewrite (S1a eq_refl). apply S2a. assumption.
        -- intros Hr. destruct (S2b Hr) as [junk Hj]. exists junk. intros m.
           rewrite <- Nat.add_assoc. simpl. rewrite (S1a eq_refl). apply Hj.
Qed.
End Simulation.

Lemma sim_rec depth search : forall x d r,
  closed (t_table d) -> visit_rec depth search x d = Some r ->
  exists k, k + pot (t_table (snd r)) <= 1 + pot (t_table d)
            /\ simulates search [Z.of_nat x] d r k.
Proof.
  induction depth as [|depth IH]; intros x d r Hc H; simpl in H;
    destruct (nth_error (t_table d) x) as [v|] eqn:E; try discriminate;
    destruct (flag v) eqn:Ef; try discriminate;
    try (inversion H; subst; exists 1; split; [cbn [snd t_table] in *; lia|];
         intros rest; split; [|discriminate]; intros _ m;
         apply (loop_skip _ _ _ _ _ _ E Ef)).
  set (d1 := mkTrav (upd x (set_flag true) (t_table d)) (x :: t_path d) (t_result d)) in *.
  assert (Hp : pot (t_table d) = 2 + List.length (incoming v) + pot (t_table d1))
    by (apply pot_upd; assumption).
  destruct (String.eqb search (key v)) eqn:Ek.
  - inversion H; subst. exists 1. split; [cbn [snd t_table] in *; lia|].
    intros rest. split; [discriminate|]. intros _. exists rest. intros m.
    apply (loop_found _ _ _ _ _ _ E Ef Ek).
  - assert (Hc1 : closed (t_table d1)).
    { eapply clean_closed; [|exact Hc]. simpl. symmetry. apply clean_upd_flag. }
    destruct (visit_list (visit_rec depth search) (incoming v) d1)
      as [[b d2]|] eqn:EL; [|discriminate].
    destruct (sim_list depth search IH (incoming v) (t_table d1) d1 (b, d2))
      as (k & B & Sm); auto.
    cbn [snd] in B.
    assert (Hlen : List.length (filter (unflagged (t_table d1)) (incoming v))
                   <= List.length (incoming v)) by apply filter_length_le.
    destruct b.
    + inversion H; subst. exists (S k). split; [cbn [snd t_table] in *; lia|].
      intros rest. split; [discriminate|]. intros _.
      destruct (Sm (Z.lnot (Z.of_nat x) :: rest)) as [_ Sb].
      destruct (Sb eq_refl) as [junk Hj]. exists junk. intros m.
      cbn [Nat.add app]. rewrite (loop_enter _ _ _ _ _ _ Hc E Ef Ek). apply Hj.
    + inversion H; subst. exists (S (k + 1)). split; [cbn [snd t_table] in *; lia|].
      intros rest. split; [|discriminate]. intros _ m.
      destruct (Sm (Z.lnot (Z.of_nat x) :: rest)) as [Sa _].
      cbn [Nat.add app]. rewrite (loop_enter _ _ _ _ _ _ Hc E Ef Ek).
      rewrite <- Nat.add_assoc. fold d1. rewrite (Sa eq_refl). simpl.
      apply loop_exit.
      destruct (visit_list_framed _ (visit_rec_framed depth search) _ x _ _ _ EL)
        as [_ P]. destruct (P eq_refl) as [P1 _]. exact P1.
Qed.

(** ** The recursive visit returns *)

Lemma pending_upd t x v :
  nth_error t x = Some v -> flag v = false ->
  pending t = S (pending (upd x (set_flag true) t)).
Proof.
  unfold pending.
  revert x; induction t as [|u t IH]; intros [|x] E Ef;
    cbn [upd nth_error filter] in *; try discriminate.
  - inversion E; subst. rewrite Ef. reflexivity.
  - destruct (negb (flag u)); cbn [List.length]; rewrite (IH _ E Ef); reflexivity.
Qed.

Lemma pending_le_length t : pending t <= List.length t.
Proof. apply filter_length_le. Qed.

Lemma visit_list_total depth visit1 :
  total depth visit1 -> framed visit1 ->
  forall cs d, closed (t_table d) ->
    (forall c, In c cs -> c < List.length (t_table d)) ->
    pending (t_table d) <= depth ->
    exists b d', visit_list visit1 cs d = Some (b, d')
                 /\ pending (t_table d') <= pending (t_table d).
Proof.
  intros Ht Hf. induction cs as [|c cs IH]; intros d Hc Hin Hp; simpl.
  - eauto.
  - destruct (Ht c d Hc (Hin c (or_introl eq_refl)) Hp) as (b & d1 & E & P1).
    rewrite E. destruct b; [eauto|].
    destruct (Hf _ _ _ _ E) as [[Fc _] _].
    destruct (IH d1) as (b2 & d2 & E2 & P2).
    + eapply clean_closed; [symmetry; exact Fc|exact Hc].
    + intros c' Hc'. rewrite <- clean_length, Fc, clean_length.
      apply Hin. right. assumption.
    + lia.
    + exists b2, d2. split; [assumption|lia].
Qed.

Lemma visit_rec_total depth search : total depth (visit_rec depth search).
Proof.
  induction depth as [|depth IH]; intros x d Hc Hx Hp; simpl;
    apply nth_error_Some in Hx;
    destruct (nth_error (t_table d) x) as [v|] eqn:E; try congruence;
    destruct (flag v) eqn:Ef; eauto.
  - rewrite (pending_upd _ _ _ E Ef) in Hp. lia.
  - set (d1 := mkTrav (upd x (set_flag true) (t_table d)) (x :: t_path d) (t_result d)).
    assert (Hp1 : pending (t_table d) = S (pending (t_table d1)))
      by (apply (pending_upd _ _ _ E Ef)).
    destruct (String.eqb search (key v)).
    + exists true, d1. split; [reflexivity|lia].
    + assert (Hc1 : closed (t_table d1)).
      { eapply clean_closed; [|exact Hc]. simpl. symmetry. apply clean_upd_flag. }
      assert (total depth (visit_rec depth search)) as Ht.
      { intros x' d' Hc' Hx' Hp'. apply IH; assumption. }
      destruct (visit_list_total depth _ Ht (visit_rec_framed depth search)
                  (incoming v) d1 Hc1) as (b & d2 & E2 & P2).
      * intros c Hin. simpl. rewrite upd_length. apply (Hc x).
        unfold edge, inc. rewrite E. assumption.
      * lia.
      * rewrite E2. destruct b.
        -- exists true, d2. split; [reflexivity|lia].
        -- eexists false, _. split; [reflexivity|]. simpl. lia.
Qed.

(** ** [visit] computes the recursive visit *)

Lemma loop_bound_conc stk d :
  loop_bound (conc stk d)
  = S (List.length stk
       + fold_right (fun v n => 2 + List.length (incoming v) + n) 0 (t_table d)).
Proof. reflexivity. Qed.

Lemma visit_sim search start d v b d' :
  closed (t_table d) ->
  nth_error (t_table d) start = Some v -> idx v = start ->
  visit_rec (List.length (t_table d)) search start d = Some (b, d') ->
  exists junk, visit start search (conc [] d) = Ret tt (conc junk d')
               /\ (b = false -> junk = []).
Proof.
  intros Hc E Ei H.
  destruct (sim_rec _ _ _ _ _ Hc H) as (k & B & Sm). cbn [snd] in B.
  unfold visit, bind, vertex_at. cbn [table conc]. rewrite E.
  unfold modify. rewrite Ei. cbn [stack conc push].
  change (with_stack (push (Z.of_nat start) []) (conc [] d))
    with (conc [Z.of_nat start] d).
  rewrite loop_bound_conc.
  pose proof (pot_le_all (t_table d)) as Hle. cbn [List.length].
  set (tot := fold_right (fun v n => 2 + List.length (incoming v) + n) 0 (t_table d)) in *.
  destruct (Sm []) as [Sa Sb]. cbn [app fst snd] in Sa, Sb.
  replace (S (1 + tot)) with (k + S (1 + tot - k)) by lia.
  destruct b.
  - destruct (Sb eq_refl) as [junk Hj]. exists junk. rewrite Hj.
    split; [reflexivity|discriminate].
  - exists []. rewrite (Sa eq_refl). split; reflexivity.
Qed.

(** ** What the recursive visit computes *)

Lemma ordered_closed g r y c : ordered g r -> In y r -> edge g y c -> In c r.
Proof.
  induction r as [|a r IH]; simpl; [tauto|].
  intros [Ha Hr] [->|Hy] He.
  - right. auto.
  - right. auto.
Qed.

Lemma ordered_split g r y c :
  ordered g r -> In y r -> edge g y c ->
  exists r1 r2 r3, r = r1 ++ y :: r2 ++ c :: r3.
Proof.
  induction r as [|a r IH]; simpl; [tauto|].
  intros [Ha Hr] [->|Hy] He.
  - destruct (in_split _ _ (Ha _ He)) as (r2 & r3 & ->).
    exists [], r2, r3. reflexivity.
  - destruct (IH Hr Hy He) as (r1 & r2 & r3 & ->).
    exists (a :: r1), r2, r3. reflexivity.
Qed.

Lemma pred_path_reaches g x p z : pred_path g x p z -> reaches g x z.
Proof.
  induction 1 as [x|x c p z He _ IH].
  - apply rt_refl.
  - eapply rt_trans; [apply rt_step; exact He|exact IH].
Qed.

Lemma flagged_upd_iff t x v i :
  nth_error t x = Some v ->
  flagged (upd x (set_flag true) t) i = true <-> i = x \/ flagged t i = true.
Proof.
  intros E. destruct (Nat.eq_dec x i) as [->|Hn].
  - rewrite (flagged_upd_same _ _ _ E). tauto.
  - rewrite flagged_upd_other by assumption. split; [tauto|].
    intros [->|H]; [congruence|assumption].
Qed.

Section Visit_invariant.
Variables (g : list Vertex) (search : string).
Hypothesis g_acyclic : acyclic g.

Lemma visit_list_good visit1 : good g search visit1 -> framed visit1 ->
  forall cs d d', Inv g search d ->
    (forall c a, In c cs -> In a (t_path d) -> clos_trans nat (edge g) a c) ->
    visit_list visit1 cs d = Some (false, d') ->
    Inv g search d' /\ forall c, In c cs -> flagged (t_table d') c = true.
Proof.
  intros Hg Hf. induction cs as [|c cs IH]; intros d d' HI Hp H; simpl in H.
  - inversion H; subst. split; [assumption|]. intros c [].
  - destruct (visit1 c d) as [[[] d1]|] eqn:E; try discriminate.
    destruct (Hg _ _ _ HI (fun a Ha => Hp c a (or_introl eq_refl) Ha) E) as [HI1 Fc].
    destruct (Hf _ _ _ _ E) as [_ P1]. destruct (P1 eq_refl) as [P1a _].
    destruct (IH d1 d' HI1) as [HI2 Fcs]; auto.
    { intros c' a Hc' Ha. rewrite P1a in Ha. apply Hp; [right|]; assumption. }
    split; [assumption|]. intros c' [->|Hc']; [|auto].
    destruct (visit_list_framed _ Hf cs 0 _ _ _ H) as [[_ Fm] _]. auto.
Qed.

Lemma visit_rec_good depth : good g search (visit_rec depth search).
Proof.
  induction depth as [|depth IH]; intros x d d' HI Hp H; simpl in H;
    destruct (nth_error (t_table d) x) as [v|] eqn:E; try discriminate;
    destruct (flag v) eqn:Ef; try discriminate;
    try (inversion H; subst; split; [assumption|];
         unfold flagged; rewrite E; assumption).
  set (d1 := mkTrav (upd x (set_flag true) (t_table d)) (x :: t_path d) (t_result d)) in *.
  destruct (String.eqb search (key v)) eqn:Ek; [discriminate|].
  destruct (visit_list (visit_rec depth search) (incoming v) d1)
    as [[[] d2]|] eqn:EL; try discriminate.
  inversion H; subst; clear H.
  destruct HI as (Hc & Hfl & Hnd & Hord & Hkey).
  assert (Einc : inc g x = incoming v).
  { rewrite <- (clean_inc _ _ x Hc). unfold inc. rewrite E. reflexivity. }
  assert (Hx : ~ In x (t_path d ++ t_result d)).
  { intros Hin. apply Hfl in Hin. unfold flagged in Hin. rewrite E in Hin. congruence. }
  assert (HI1 : Inv g search d1).
  { repeat split; simpl.
    - rewrite clean_upd_flag. assumption.
    - intros Hi. apply (flagged_upd_iff _ _ _ i E) in Hi.
      destruct Hi as [->|Hi]; [left; reflexivity|right; apply Hfl; assumption].
    - intros [<-|Hi]; apply (flagged_upd_iff _ _ _ _ E); [left; reflexivity|].
      right. apply Hfl. assumption.
    - constructor; assumption.
    - assumption.
    - assumption. }
  destruct (visit_list_good _ IH (visit_rec_framed depth search)
              (incoming v) d1 d2 HI1) as [HI2 Fcs]; auto.
  { intros c a Hc' [<-|Ha].
    - apply t_step. unfold edge. rewrite Einc. assumption.
    - eapply t_trans; [apply Hp; exact Ha|].
      apply t_step. unfold edge. rewrite Einc. assumption. }
  destruct (visit_list_framed _ (visit_rec_framed depth search) _ x _ _ _ EL)
    as [[_ Fm] P]. destruct (P eq_refl) as [P1 _]. simpl in P1.
  destruct HI2 as (Hc2 & Hfl2 & Hnd2 & Hord2 & Hkey2).
  rewrite P1 in Hfl2, Hnd2. simpl in Hfl2, Hnd2.
  split.
  - repeat split; simpl.
    + assumption.
    + intros Hi. apply Hfl2 in Hi. apply in_app_iff.
      destruct Hi as [<-|Hi]; [right; left; reflexivity|].
      apply in_app_iff in Hi. simpl. tauto.
    + intros Hi. apply Hfl2. apply in_app_iff in Hi. simpl in Hi.
      destruct Hi as [Hi|[->|Hi]]; [right|left; reflexivity|right];
        apply in_app_iff; tauto.
    + eapply Permutation_NoDup; [apply Permutation_middle|exact Hnd2].
    + intros c He.
      assert (Fc : flagged (t_table d2) c = true)
        by (apply Fcs; unfold edge in He; rewrite Einc in He; exact He).
      apply Hfl2 in Fc. destruct Fc as [<-|Fc].
      * exfalso. apply (g_acyclic x). apply t_step. exact He.
      * apply in_app_iff in Fc. destruct Fc as [Fc|Fc]; [|assumption].
        exfalso. apply (g_acyclic x).
        eapply t_trans; [apply t_step; exact He|apply Hp; exact Fc].
    + assumption.
    + intros y u [<-|Hy] Hu; [|eauto].
      destruct (clean_nth _ _ _ _ Hc E) as (u' & Hu' & Hs).
      apply set_flag_false_eq in Hs. rewrite Hu in Hu'. inversion Hu'; subst.
      destruct Hs as (_ & -> & _). assumption.
  - simpl. apply Fm. simpl. apply (flagged_upd_same _ _ _ E).
Qed.

End Visit_invariant.

Lemma visit_list_sound g search visit1 :
  sound g search visit1 -> framed visit1 ->
  forall cs d d', clean (t_table d) = clean g ->
    visit_list visit1 cs d = Some (true, d') ->
    exists c p z vz, In c cs /\ t_path d' = rev p ++ t_path d
                     /\ pred_path g c p z
                     /\ nth_error g z = Some vz /\ search = key vz.
Proof.
  intros Hs Hf. induction cs as [|c cs IH]; intros d d' Hc H; simpl in H.
  - discriminate.
  - destruct (visit1 c d) as [[[] d1]|] eqn:E; try discriminate.
    + inversion H; subst.
      destruct (Hs _ _ _ Hc E) as (p & z & vz & H1 & H2 & H3 & H4).
      exists c, p, z, vz. simpl. auto.
    + destruct (Hf _ _ _ _ E) as [[Fc _] P]. destruct (P eq_refl) as [P1 _].
      destruct (IH d1 d') as (c' & p & z & vz & H0 & H1 & H2 & H3 & H4);
        [congruence|assumption|].
      exists c', p, z, vz. rewrite <- P1. simpl. auto.
Qed.

Lemma visit_rec_sound g search depth : sound g search (visit_rec depth search).
Proof.
  induction depth as [|depth IH]; intros x d d' Hc H; simpl in H;
    destruct (nth_error (t_table d) x) as [v|] eqn:E; try discriminate;
    destruct (flag v) eqn:Ef; try discriminate.
  set (d1 := mkTrav (upd x (set_flag true) (t_table d)) (x :: t_path d) (t_result d)) in *.
  destruct (String.eqb search (key v)) eqn:Ek.
  - inversion H; subst. apply String.eqb_eq in Ek.
    destruct (clean_nth _ _ _ _ Hc E) as (u & Hu & Hs).
    apply set_flag_false_eq in Hs. destruct Hs as (_ & Hk & _).
    exists [x], x, u. simpl. repeat split; [constructor|assumption|congruence].
  - destruct (visit_list (visit_rec depth search) (incoming v) d1)
      as [[[] d2]|] eqn:EL; try discriminate.
    inversion H; subst.
    destruct (visit_list_sound g search _ IH (visit_rec_framed depth search)
                (incoming v) d1 d') as (c & p & z & vz & H0 & H1 & H2 & H3 & H4).
    + simpl. rewrite clean_upd_flag. assumption.
    + assumption.
    + exists (x :: p), z, vz. repeat split; try assumption.
      * rewrite H1. simpl. rewrite <- app_assoc. reflexivity.
      * apply pp_cons with c; [|assumption].
        unfold edge. rewrite <- (clean_inc _ _ x Hc). unfold inc. rewrite E.
        assumption.
Qed.

(** In a traversal for [walk] the search key is the empty string, which is
    the key of no vertex: the visit never stops early. *)
Lemma visit_rec_walk g depth x d b d' :
  (forall i v, nth_error g i = Some v -> key v <> "") ->
  clean (t_table d) = clean g ->
  visit_rec depth "" x d = Some (b, d') -> b = false.
Proof.
  intros Hk Hc H. destruct b; [|reflexivity].
  destruct (visit_rec_sound g "" depth x d d' Hc H) as (p & z & vz & _ & _ & Hz & Hv).
  exfalso. apply (Hk _ _ Hz). congruence.
Qed.

(** ** Well-formed tables *)

Lemma map_eq_nth {B} (f : Vertex -> B) t t' x v :
  map f t = map f t' -> nth_error t x = Some v ->
  exists v', nth_error t' x = Some v' /\ f v' = f v.
Proof.
  intros E H.
  assert (H1 : nth_error (map f t) x = Some (f v))
    by (rewrite nth_error_map, H; reflexivity).
  rewrite E, nth_error_map in H1.
  destruct (nth_error t' x) as [v'|]; simpl in H1; [|discriminate].
  exists v'. split; [reflexivity|congruence].
Qed.

Lemma skeleton_eq v v' :
  skeleton v = skeleton v' ->
  idx v = idx v' /\ key v = key v' /\ out v = out v' /\ incoming v = incoming v'.
Proof. unfold skeleton. intros H. inversion H. auto. Qed.

Lemma skeleton_inc t t' x : map skeleton t = map skeleton t' -> inc t x = inc t' x.
Proof.
  intros E. unfold inc.
  destruct (nth_error t x) as [v|] eqn:H.
  - destruct (map_eq_nth _ _ _ _ _ E H) as (v' & -> & Hv).
    unfold skeleton in Hv. congruence.
  - destruct (nth_error t' x) as [v'|] eqn:H'; [|reflexivity].
    destruct (map_eq_nth _ _ _ _ _ (eq_sym E) H') as (v & Hv & _). congruence.
Qed.

Lemma clos_trans_mono (R R' : nat -> nat -> Prop) :
  (forall a b, R a b -> R' a b) ->
  forall a b, clos_trans nat R a b -> clos_trans nat R' a b.
Proof.
  intros H a b. induction 1.
  - apply t_step. auto.
  - eapply t_trans; eauto.
Qed.

Lemma clos_refl_trans_mono (R R' : nat -> nat -> Prop) :
  (forall a b, R a b -> R' a b) ->
  forall a b, clos_refl_trans nat R a b -> clos_refl_trans nat R' a b.
Proof.
  intros H a b. induction 1.
  - apply rt_step. auto.
  - apply rt_refl.
  - eapply rt_trans; eauto.
Qed.

Lemma wf_transfer t t' : map skeleton t = map skeleton t' -> wf t -> wf t'.
Proof.
  intros E W.
  assert (El : List.length t' = List.length t)
    by (rewrite <- (length_map skeleton t'), <- E; apply length_map).
  assert (Ee : forall a b, edge t' a b -> edge t a b)
    by (intros a b; unfold edge; rewrite (skeleton_inc _ _ a E); auto).
  assert (Ee' : forall a b, edge t a b -> edge t' a b)
    by (intros a b; unfold edge; rewrite (skeleton_inc _ _ a E); auto).
  assert (N : forall i v', nth_error t' i = Some v' ->
            exists v, nth_error t i = Some v /\ skeleton v = skeleton v')
    by (intros i v'; apply map_eq_nth; auto).
  constructor.
  - intros i v' H. destruct (N _ _ H) as (v & Hv & Hs).
    apply skeleton_eq in Hs. destruct Hs as (Hi & _).
    rewrite <- Hi. apply (wf_idx _ W _ _ Hv).
  - intros i v' H. destruct (N _ _ H) as (v & Hv & Hs).
    apply skeleton_eq in Hs. destruct Hs as (_ & Hk & _).
    rewrite <- Hk. apply (wf_key _ W _ _ Hv).
  - intros i j v' u' H H' Hk.
    destruct (N _ _ H) as (v & Hv & Hs). destruct (N _ _ H') as (u & Hu & Hs').
    apply skeleton_eq in Hs, Hs'.
    destruct Hs as (_ & Hk1 & _). destruct Hs' as (_ & Hk2 & _).
    apply (wf_uniq _ W _ _ _ _ Hv Hu). congruence.
  - intros x c H. rewrite El. apply (wf_closed _ W x). auto.
  - intros i v' H Ho. destruct (N _ _ H) as (v & Hv & Hs).
    apply skeleton_eq in Hs. destruct Hs as (_ & _ & Ho' & _).
    destruct (wf_out _ W _ _ Hv) as [y Hy]; [congruence|]. exists y. auto.
  - intros x H. apply (wf_acyclic _ W x). eapply clos_trans_mono; eauto.
Qed.

Lemma clean_skeleton t t' : clean t = clean t' -> map skeleton t = map skeleton t'.
Proof.
  intros E.
  assert (H : forall l, map skeleton (clean l) = map skeleton l).
  { intros l. unfold clean. rewrite map_map. apply map_ext. intros []; reflexivity. }
  rewrite <- (H t), <- (H t'), E. reflexivity.
Qed.

Lemma wf_clean t t' : clean t = clean t' -> wf t -> wf t'.
Proof. intros E. apply wf_transfer. apply clean_skeleton. assumption. Qed.

Lemma edge_lt t y i : edge t y i -> y < List.length t.
Proof.
  unfold edge, inc. intros H. apply nth_error_Some.
  destruct (nth_error t y); [discriminate|destruct H].
Qed.

(** ** Every vertex is below a vertex without successor *)

Lemma root_search g : wf g ->
  forall m l top,
    List.length g < List.length l + m -> NoDup l ->
    (forall a, In a l -> a < List.length g) ->
    In top l -> (forall a, In a l -> reaches g top a) ->
    exists r vr, nth_error g r = Some vr /\ out vr = false /\ reaches g r top.
Proof.
  intros W. induction m as [|m IH]; intros l top Hlen Hnd Hin Ht Hr.
  - exfalso.
    assert (List.length l <= List.length (seq 0 (List.length g))).
    { apply NoDup_incl_length; [assumption|].
      intros a Ha. apply in_seq. specialize (Hin a Ha). lia. }
    rewrite length_seq in H. lia.
  - assert (Hv : top < List.length g) by auto. apply nth_error_Some in Hv.
    destruct (nth_error g top) as [vt|] eqn:E; [clear Hv|congruence].
    destruct (out vt) eqn:Eo.
    + destruct (wf_out _ W _ _ E Eo) as [y Hy].
      assert (Hny : ~ In y l).
      { intros Hy'. apply (wf_acyclic _ W top).
        eapply clos_rt_t; [apply Hr; exact Hy'|apply t_step; exact Hy]. }
      destruct (IH (y :: l) y) as (r & vr & H1 & H2 & H3).
      * simpl. lia.
      * constructor; assumption.
      * intros a [<-|Ha]; [eapply edge_lt; eauto|auto].
      * left; reflexivity.
      * intros a [<-|Ha]; [apply rt_refl|].
        eapply rt_trans; [apply rt_step; exact Hy|apply Hr; exact Ha].
      * exists r, vr. repeat split; try assumption.
        eapply rt_trans; [exact H3|apply rt_step; exact Hy].
    + exists top, vt. repeat split; try assumption. apply rt_refl.
Qed.

Lemma root_exists g x : wf g -> x < List.length g ->
  exists r vr, nth_error g r = Some vr /\ out vr = false /\ reaches g r x.
Proof.
  intros W Hx. apply (root_search g W (S (List.length g)) [x] x).
  - simpl. lia.
  - constructor; [intros []|constructor].
  - intros a [<-|[]]. assumption.
  - left; reflexivity.
  - intros a [<-|[]]. apply rt_refl.
Qed.

(** ** The traversal of [walk] *)

Lemma clean_entry t t' i : clean t = clean t' -> entry t i = entry t' i.
Proof.
  intros E. unfold entry.
  destruct (nth_error t i) as [v|] eqn:H.
  - destruct (clean_nth _ _ _ _ E H) as (v' & -> & Hv).
    apply set_flag_false_eq in Hv. destruct Hv as (_ & -> & -> & _). reflexivity.
  - destruct (nth_error t' i) as [v'|] eqn:H'; [|reflexivity].
    destruct (clean_nth _ _ _ _ (eq_sym E) H') as (v & Hv & _). congruence.
Qed.

Lemma each_from_ok l s :
  (forall i, In i l -> i < List.length (table s)) ->
  each_from (map Z.of_nat l) s = Ret (map (entry (table s)) l) s.
Proof.
  induction l as [|i l IH]; intros H; [reflexivity|].
  cbn [map each_from]. unfold bind at 1.
  destruct (Z.ltb_spec (Z.of_nat i) 0); [lia|].
  rewrite Nat2Z.id. unfold vertex_at, entry at 1.
  assert (Hi : i < List.length (table s)) by (apply H; left; reflexivity).
  apply nth_error_Some in Hi.
  destruct (nth_error (table s) i) as [v|]; [|congruence].
  unfold bind. rewrite IH by (intros; apply H; right; assumption). reflexivity.
Qed.

Lemma each_ok l s :
  (forall i, In i l -> i < List.length (table s)) ->
  each (map Z.of_nat l) s = Ret (map (entry (table s)) (rev l)) s.
Proof.
  intros H. unfold each. rewrite <- map_rev. apply each_from_ok.
  intros i Hi. apply H. apply in_rev. assumption.
Qed.

Section Walk.
Variable g : list Vertex.
Hypothesis W : wf g.

Lemma roots_rec_total positions : forall d,
  clean (t_table d) = clean g ->
  (forall i, In i positions -> i < List.length g) ->
  exists d', roots_rec positions d = Some d'.
Proof.
  induction positions as [|i rest IH]; intros d Hc Hp; simpl; [eauto|].
  assert (Hl : List.length (t_table d) = List.length g)
    by (rewrite <- clean_length, Hc; apply clean_length).
  assert (Hi : i < List.length (t_table d)) by (rewrite Hl; apply Hp; left; reflexivity).
  pose proof Hi as Hi'. apply nth_error_Some in Hi'.
  destruct (nth_error (t_table d) i) as [v|]; [|congruence].
  destruct (out v).
  - apply IH; [assumption|]. intros; apply Hp; right; assumption.
  - destruct (visit_rec_total (List.length (t_table d)) "" i d)
      as (b & d1 & E & _); auto.
    + eapply clean_closed; [symmetry; exact Hc|apply wf_closed; exact W].
    + apply pending_le_length.
    + rewrite E. apply IH.
      * destruct (visit_rec_framed _ _ _ _ _ _ E) as [[Fc _] _]. congruence.
      * intros; apply Hp; right; assumption.
Qed.

Lemma walk_from_sim positions : forall d d',
  clean (t_table d) = clean g ->
  roots_rec positions d = Some d' ->
  walk_from positions (conc [] d) = Ret tt (conc [] d').
Proof.
  induction positions as [|i rest IH]; intros d d' Hc H; simpl in H.
  - inversion H; reflexivity.
  - destruct (nth_error (t_table d) i) as [v|] eqn:E; [|discriminate].
    cbn [walk_from]. unfold bind at 1, vertex_at. cbn [table conc]. rewrite E.
    destruct (out v).
    + unfold bind, ret. apply IH; assumption.
    + destruct (visit_rec (List.length (t_table d)) "" i d) as [[b d1]|] eqn:Ev;
        [|discriminate].
      assert (b = false).
      { eapply (visit_rec_walk g); [apply wf_key; exact W|exact Hc|exact Ev]. }
      subst b.
      destruct (visit_sim "" i d v false d1) as (junk & Hv & Hj); auto.
      * eapply clean_closed; [symmetry; exact Hc|apply wf_closed; exact W].
      * eapply wf_idx; [eapply wf_clean; [symmetry; exact Hc|exact W]|exact E].
      * rewrite (Hj eq_refl) in Hv. unfold bind. rewrite Hv. apply IH; [|assumption].
        destruct (visit_rec_framed _ _ _ _ _ _ Ev) as [[Fc _] _]. congruence.
Qed.

Lemma roots_rec_inv positions : forall d d',
  Inv g "" d -> t_path d = [] ->
  roots_rec positions d = Some d' ->
  Inv g "" d' /\ t_path d' = []
  /\ forall i v, In i positions -> nth_error g i = Some v -> out v = false ->
                 flagged (t_table d') i = true.
Proof.
  induction positions as [|i rest IH]; intros d d' HI Hp H; simpl in H.
  - inversion H; subst. split; [assumption|split; [assumption|]].
    intros i v [].
  - destruct (nth_error (t_table d) i) as [v|] eqn:E; [|discriminate].
    assert (Hc : clean (t_table d) = clean g) by apply HI.
    destruct (clean_nth _ _ _ _ Hc E) as (u & Hu & Hs).
    apply set_flag_false_eq in Hs. destruct Hs as (_ & _ & _ & Ho & _).
    destruct (out v) eqn:Eo.
    + destruct (IH _ _ HI Hp H) as (I1 & P1 & F1).
      split; [exact I1|split; [exact P1|]].
      intros j w [<-|Hj] Hw Hout; [congruence|eauto].
    + destruct (visit_rec (List.length (t_table d)) "" i d) as [[b d1]|] eqn:Ev;
        [|discriminate].
      assert (b = false).
      { eapply (visit_rec_walk g); [apply wf_key; exact W|exact Hc|exact Ev]. }
      subst b.
      destruct (visit_rec_good g "" (wf_acyclic _ W) (List.length (t_table d))
                  i d d1 HI) as [I1 F1]; auto.
      { rewrite Hp. intros a []. }
      destruct (visit_rec_framed _ _ _ _ _ _ Ev) as [_ P]. destruct (P eq_refl) as [P1 _].
      destruct (IH _ _ I1 (eq_trans P1 Hp) H) as (I2 & P2 & F2).
      split; [exact I2|split; [exact P2|]].
      intros j w [<-|Hj] Hw Hout; [|eauto].
      clear - F1 H. revert d1 F1 H.
      induction rest as [|k rest IHr]; intros d1 F1 H; simpl in H.
      * inversion H; subst. assumption.
      * destruct (nth_error (t_table d1) k) as [vk|]; [|discriminate].
        destruct (out vk); [eauto|].
        destruct (visit_rec (List.length (t_table d1)) "" k d1) as [[b d2]|] eqn:Ev;
          [|discriminate].
        apply (IHr d2); [|assumption].
        destruct (visit_rec_framed _ _ _ _ _ _ Ev) as [[_ Fm] _]. auto.
Qed.
End Walk.

Lemma flagged_clean t i : flagged (clean t) i = false.
Proof.
  unfold flagged, clean. rewrite nth_error_map.
  destruct (nth_error t i); reflexivity.
Qed.

Lemma Inv_start g search : Inv g search (start_trav g).
Proof.
  unfold Inv, start_trav. cbn [t_table t_path t_result app].
  change (map (set_flag false) g) with (clean g).
  split; [apply clean_idem|]. split.
  - intros i. rewrite flagged_clean. split; [discriminate|intros []].
  - split; [constructor|]. split; [exact I|]. intros y v [].
Qed.

Lemma ordered_reaches g res r x :
  ordered g res -> In r res -> reaches g r x -> In x res.
Proof.
  intros Ho Hr H. apply clos_rt_rt1n in H.
  induction H as [|a b c Hab _ IH]; [assumption|].
  apply IH. eapply ordered_closed; eauto.
Qed.

(** [walk] returns, and emits the vertices in the order of the recursive
    traversal. *)
Lemma walk_ok s : wf (table s) ->
  exists d', roots_rec (seq 0 (List.length (table s))) (start_trav (table s)) = Some d'
    /\ walk s = Ret (map (entry (table s)) (rev (t_result d'))) (conc [] d')
    /\ clean (t_table d') = clean (table s)
    /\ ordered (table s) (t_result d')
    /\ Permutation (t_result d') (seq 0 (List.length (table s))).
Proof.
  intros W. set (g := table s) in *. set (n := List.length g).
  assert (Hc0 : clean (t_table (start_trav g)) = clean g) by apply clean_idem.
  assert (Hp : forall i, In i (seq 0 n) -> i < n) by (intros i Hi; apply in_seq in Hi; lia).
  destruct (roots_rec_total g W (seq 0 n) (start_trav g) Hc0 Hp) as [d' Hd].
  destruct (roots_rec_inv g W _ _ _ (Inv_start g "") eq_refl Hd) as (HI & Hpath & Hroots).
  destruct HI as (Hc & Hfl & Hnd & Hord & _).
  rewrite Hpath in Hfl, Hnd. cbn [app] in Hfl, Hnd.
  assert (Hl : List.length (t_table d') = n).
  { rewrite <- clean_length, Hc. apply clean_length. }
  exists d'. split; [assumption|]. split; [|split; [assumption|split; [assumption|]]].
  - unfold walk, bind, reset, modify, get.
    change (mkVertices (map (set_flag false) (table s)) [] [] [])
      with (conc [] (start_trav g)).
    cbn [table conc start_trav t_table]. rewrite length_map. fold n.
    change (mkVertices (map (set_flag false) g) [] (map Z.of_nat []) (map Z.of_nat []))
      with (conc [] (start_trav g)).
    rewrite (walk_from_sim g W _ _ _ Hc0 Hd).
    cbn [result conc]. rewrite each_ok.
    + cbn [table conc]. f_equal. apply map_ext. intros i. apply clean_entry. assumption.
    + intros i Hi. cbn [table conc]. apply flagged_lt. apply Hfl. assumption.
  - apply NoDup_Permutation; [assumption|apply seq_NoDup|].
    intros x. split.
    + intros Hx. apply in_seq. apply Hfl, flagged_lt in Hx. lia.
    + intros Hx. apply Hp in Hx.
      destruct (root_exists g x W Hx) as (r & vr & Hr & Hout & Hreach).
      apply (ordered_reaches g _ r); [assumption| |assumption].
      apply Hfl. apply (Hroots r vr); [|assumption|assumption].
      apply in_seq. assert (r < n) by (apply nth_error_Some; congruence). lia.
Qed.

(** ** The cycle check *)

Lemma append_assoc (a b c : string) : ((a ++ b) ++ c = a ++ (b ++ c))%string.
Proof. induction a as [|ch a IH]; simpl; [reflexivity|rewrite IH; reflexivity]. Qed.

Lemma append_empty_r (a : string) : (a ++ "" = a)%string.
Proof. induction a as [|ch a IH]; simpl; [reflexivity|rewrite IH; reflexivity]. Qed.

Lemma chain_message_eq w calls :
  chain_message w calls = cycle_message w (map fst calls).
Proof.
  unfold chain_message, cycle_message.
  assert (H : forall acc,
             fold_left (fun msg (kv : string * value) => (msg ++ " <- " ++ fst kv)%string)
                       calls acc
             = (acc ++ arrows (map fst calls))%string).
  { induction calls as [|kv calls IH]; intros acc; simpl.
    - rewrite append_empty_r. reflexivity.
    - rewrite IH. rewrite !append_assoc. reflexivity. }
  rewrite H. apply append_assoc.
Qed.

Lemma pred_path_valid g x p z :
  closed g -> x < List.length g -> pred_path g x p z ->
  forall i, In i p -> i < List.length g.
Proof.
  intros Hc Hx H. induction H as [x|x c p z He _ IH]; intros i Hi.
  - destruct Hi as [<-|[]]. assumption.
  - destruct Hi as [<-|Hi]; [assumption|]. apply IH; [|assumption].
    apply (Hc x). assumption.
Qed.

Lemma pred_path_nonempty g x p z : pred_path g x p z -> p <> [].
Proof. intros []; discriminate. Qed.

Lemma reaches_no_incoming g v z : inc g v = [] -> reaches g v z -> z = v.
Proof.
  intros E H. apply clos_rt_rt1n in H. destruct H as [|y z Hy _]; [reflexivity|].
  unfold edge in Hy. rewrite E in Hy. destruct Hy.
Qed.

Lemma shallow_check_spec vkey w slots s :
  (forall i, In i slots -> i < List.length (table s)) ->
  (exists u vu, In u slots /\ nth_error (table s) u = Some vu /\ key vu = w
      /\ shallow_check vkey w slots s
         = Throw ("cycle detected: " ++ w ++ " <- " ++ vkey ++ " <- " ++ w)%string s)
  \/ ((forall u vu, In u slots -> nth_error (table s) u = Some vu -> key vu <> w)
      /\ shallow_check vkey w slots s = Ret tt s).
Proof.
  induction slots as [|i slots IH]; intros H.
  - right. split; [intros u vu []|reflexivity].
  - assert (Hi : i < List.length (table s)) by (apply H; left; reflexivity).
    apply nth_error_Some in Hi.
    destruct (nth_error (table s) i) as [u|] eqn:E; [clear Hi|congruence].
    cbn [shallow_check]. unfold bind, vertex_at. rewrite E.
    destruct (String.eqb (key u) w) eqn:Ek.
    + left. apply String.eqb_eq in Ek. exists i, u.
      repeat split; [left; reflexivity|assumption|assumption].
    + apply String.eqb_neq in Ek.
      destruct IH as [(u' & vu & H1 & H2 & H3 & H4)|[H1 H2]].
      * intros; apply H; right; assumption.
      * left. exists u', vu. repeat split; [right|..]; assumption.
      * right. split; [|assumption].
        intros u' vu [<-|Hu] Hv; [congruence|eauto].
Qed.

Lemma check_spec s v w vv :
  wf (table s) -> nth_error (table s) v = Some vv ->
  exists s', clean (table s') = clean (table s) /\
    ((exists p z vz,
         pred_path (table s) v p z /\ nth_error (table s) z = Some vz /\ key vz = w
         /\ check v w s = Throw (cycle_message w (keys_of (table s) p)) s')
     \/ ((forall z vz, nth_error (table s) z = Some vz -> key vz = w ->
                       ~ reaches (table s) v z)
         /\ check v w s = Ret tt s')).
Proof.
  intros W E.
  assert (Hv : v < List.length (table s)) by (apply nth_error_Some; congruence).
  remember (check v w s) as r eqn:Hr.
  unfold check, bind, vertex_at in Hr. rewrite E in Hr.
  destruct (String.eqb (key vv) w) eqn:Ek.
  { (* the keys are equal *)
    apply String.eqb_eq in Ek. exists s. split; [reflexivity|]. left.
    exists [v], v, vv. repeat split; [constructor|assumption|assumption|].
    rewrite Hr. unfold throw, cycle_message, keys_of, entry. simpl.
    rewrite E. simpl. rewrite Ek, append_empty_r. reflexivity. }
  apply String.eqb_neq in Ek.
  destruct (Nat.eqb (List.length (incoming vv)) 0) eqn:El.
  { (* no predecessor *)
    exists s. split; [reflexivity|]. right. split; [|exact Hr].
    intros z vz Hz Hk Hreach. apply Nat.eqb_eq in El. apply length_zero_iff_nil in El.
    apply reaches_no_incoming in Hreach; [|unfold inc; rewrite E; assumption].
    subst z. congruence. }
  assert (Hin : forall i, In i (incoming vv) -> i < List.length (table s)).
  { intros i Hi. apply (wf_closed _ W v). unfold edge, inc. rewrite E. assumption. }
  destruct (shallow_check_spec (key vv) w (incoming vv) s Hin)
    as [(u & vu & H1 & H2 & H3 & H4)|[H1 H2]].
  { (* a direct predecessor has the key *)
    rewrite H4 in Hr.
    exists s. split; [reflexivity|]. left.
    exists [v; u], u, vu. repeat split; try assumption.
    - apply pp_cons with u; [|constructor]. unfold edge, inc. rewrite E. assumption.
    - rewrite Hr. unfold cycle_message, keys_of, entry. simpl.
      rewrite E, H2. simpl. rewrite H3, append_empty_r. reflexivity. }
  (* the search *)
  rewrite H2 in Hr. unfold reset, modify in Hr.
  change (mkVertices (map (set_flag false) (table s)) [] [] [])
    with (conc [] (start_trav (table s))) in Hr.
  set (d := start_trav (table s)) in *.
  assert (Hc : clean (t_table d) = clean (table s)) by apply clean_idem.
  assert (Hcl : closed (t_table d))
    by (eapply clean_closed; [symmetry; exact Hc|apply wf_closed; exact W]).
  assert (Hlen : List.length (t_table d) = List.length (table s)) by apply length_map.
  assert (Ed : nth_error (t_table d) v = Some (set_flag false vv)).
  { unfold d, start_trav. cbn [t_table]. rewrite nth_error_map. rewrite E. reflexivity. }
  destruct (visit_rec_total (List.length (t_table d)) w v d Hcl)
    as (b & d' & Ev & _); [lia|apply pending_le_length|].
  destruct (visit_sim w v d _ b d' Hcl Ed) as (junk & Hvis & Hj);
    [simpl; apply (wf_idx _ W _ _ E)|exact Ev|].
  rewrite Hvis in Hr. unfold get in Hr. cbn [path conc] in Hr.
  rewrite length_map in Hr.
  destruct (visit_rec_framed _ _ _ _ _ _ Ev) as [[Fc _] Fp].
  exists (conc junk d'). split; [cbn [table conc]; congruence|].
  destruct b.
  - left.
    destruct (visit_rec_sound (table s) w _ _ _ _ Hc Ev) as (p & z & vz & P1 & P2 & P3 & P4).
    cbn [t_path d start_trav] in P1. rewrite app_nil_r in P1.
    exists p, z, vz. repeat split; [assumption|assumption|congruence|].
    assert (Hne : 0 < List.length (t_path d')).
    { rewrite P1, length_rev. destruct p; [|simpl; lia].
      exfalso. exact (pred_path_nonempty _ _ _ _ P2 eq_refl). }
    apply Nat.ltb_lt in Hne. rewrite Hne in Hr.
    rewrite each_ok in Hr.
    + rewrite Hr. unfold throw. rewrite chain_message_eq. f_equal.
      cbn [table conc]. rewrite P1, rev_involutive. unfold keys_of.
      rewrite map_map. f_equal. apply map_ext. intros i.
      rewrite (clean_entry (t_table d') (table s)); [reflexivity|congruence].
    + intros i Hi. cbn [table conc].
      rewrite <- clean_length, Fc, clean_length, Hlen.
      apply (pred_path_valid (table s) v p z); [apply wf_closed; exact W|assumption|assumption|].
      rewrite P1 in Hi. apply in_rev. assumption.
  - right. destruct (Fp eq_refl) as [P1 _]. rewrite P1 in Hr.
    cbn [t_path d start_trav] in Hr. split; [|exact Hr].
    intros z vz Hz Hk Hreach.
    destruct (visit_rec_good (table s) w (wf_acyclic _ W) (List.length (t_table d)) v d d'
                (Inv_start (table s) w)) as [HI Fv]; [intros a []|exact Ev|].
    destruct HI as (_ & Hfl & _ & Hord & Hkey).
    rewrite P1 in Hfl. cbn [t_path d start_trav app] in Hfl.
    apply Hfl in Fv.
    pose proof (ordered_reaches (table s) _ v z Hord Fv Hreach) as Hzin.
    pose proof (Hkey z vz Hzin Hz) as Hne. rewrite Hk, String.eqb_refl in Hne.
    discriminate.
Qed.

(** ** Recording an edge *)

Lemma grows_length t t' : grows t t' -> List.length t <= List.length t'.
Proof.
  intros [H _]. destruct (Nat.le_gt_cases (List.length t) (List.length t')) as [|Hlt];
    [assumption|exfalso].
  assert (Hi : List.length t' < List.length t) by lia.
  apply nth_error_Some in Hi.
  destruct (nth_error t (List.length t')) as [v|] eqn:E; [|congruence].
  destruct (H _ _ E) as (v' & Hv' & _).
  assert (List.length t' < List.length t') by (apply nth_error_Some; congruence). lia.
Qed.

Lemma grows_refl t : grows t t.
Proof.
  split.
  - intros i v H. exists v. repeat split; auto. exists []. rewrite app_nil_r. reflexivity.
  - intros i v' Hi H. exfalso.
    assert (i < List.length t) by (apply nth_error_Some; congruence). lia.
Qed.

Lemma grows_trans t1 t2 t3 : grows t1 t2 -> grows t2 t3 -> grows t1 t3.
Proof.
  intros G1 G2. pose proof (grows_length _ _ G1) as L1.
  destruct G1 as [A1 B1], G2 as [A2 B2]. split.
  - intros i v H. destruct (A1 _ _ H) as (v1 & H1 & I1 & K1 & V1 & e1 & E1).
    destruct (A2 _ _ H1) as (v2 & H2 & I2 & K2 & V2 & e2 & E2).
    exists v2. repeat split; try congruence.
    exists (e1 ++ e2). rewrite E2, E1, app_assoc. reflexivity.
  - intros i v' Hi H.
    destruct (Nat.le_gt_cases (List.length t2) i) as [Hge|Hlt]; [eauto|].
    apply nth_error_Some in Hlt.
    destruct (nth_error t2 i) as [v2|] eqn:E2; [|congruence].
    destruct (A2 _ _ E2) as (v3 & H3 & _ & _ & V3 & _).
    rewrite H in H3. inversion H3; subst. rewrite V3. eauto.
Qed.

Lemma grows_clean t t' : clean t = clean t' -> grows t t'.
Proof.
  intros E. split.
  - intros i v H. destruct (clean_nth _ _ _ _ E H) as (v' & Hv' & Hs).
    apply set_flag_false_eq in Hs. destruct Hs as (H1 & H2 & H3 & _ & H5).
    exists v'. repeat split; auto. exists []. rewrite app_nil_r. assumption.
  - intros i v' Hi H. exfalso.
    assert (i < List.length t').
    { apply nth_error_Some; congruence. }
    rewrite <- (clean_length t'), <- E, clean_length in H0. lia.
Qed.

Lemma grows_upd t i f :
  (forall v, idx (f v) = idx v /\ key (f v) = key v /\ val (f v) = val v
             /\ exists extra, incoming (f v) = incoming v ++ extra) ->
  grows t (upd i f t).
Proof.
  intros Hf. split.
  - intros j v H. destruct (Nat.eq_dec i j) as [->|Hn].
    + exists (f v). split; [apply nth_error_upd_eq; assumption|apply Hf].
    + exists v. rewrite nth_error_upd_neq by assumption.
      repeat split; auto. exists []. rewrite app_nil_r. reflexivity.
  - intros j v' Hj H. exfalso.
    assert (j < List.length (upd i f t)) by (apply nth_error_Some; congruence).
    rewrite upd_length in H0. lia.
Qed.

Lemma clos_trans_add_edge (R : nat -> nat -> Prop) w v a b :
  clos_trans nat (fun x y => R x y \/ (x = w /\ y = v)) a b ->
  clos_trans nat R a b
  \/ (clos_refl_trans nat R a w /\ clos_refl_trans nat R v b).
Proof.
  assert (T : forall x y, clos_trans nat R x y -> clos_refl_trans nat R x y).
  { intros x y H. induction H; [apply rt_step; assumption|eapply rt_trans; eauto]. }
  induction 1 as [a b [H|[-> ->]]|a b c _ IH1 _ IH2].
  - left. apply t_step. assumption.
  - right. split; apply rt_refl.
  - destruct IH1 as [H1|[H1 H1']], IH2 as [H2|[H2 H2']].
    + left. eapply t_trans; eauto.
    + right. split; [eapply rt_trans; [apply T; exact H1|exact H2]|exact H2'].
    + right. split; [exact H1|eapply rt_trans; [exact H1'|apply T; exact H2]].
    + right. split; assumption.
Qed.

Lemma nth_error_upd i j f t :
  nth_error (upd i f t) j
  = if Nat.eqb i j then option_map f (nth_error t j) else nth_error t j.
Proof.
  destruct (Nat.eqb_spec i j) as [->|Hn].
  - destruct (nth_error t j) as [v|] eqn:E.
    + apply nth_error_upd_eq. assumption.
    + apply nth_error_None. rewrite upd_length. apply nth_error_None. assumption.
  - apply nth_error_upd_neq. assumption.
Qed.

Lemma inc_add_edge t v w n x :
  w < List.length t ->
  inc (upd v (set_out true) (upd w (append_incoming n) t)) x
  = if Nat.eqb x w then inc t x ++ [n] else inc t x.
Proof.
  intros Hw. unfold inc. rewrite !nth_error_upd.
  destruct (Nat.eqb_spec x w) as [->|Hn].
  - rewrite Nat.eqb_refl. apply nth_error_Some in Hw.
    destruct (nth_error t w) as [u|]; [|congruence].
    destruct (Nat.eqb v w); reflexivity.
  - destruct (Nat.eqb_spec w x) as [->|_]; [congruence|].
    destruct (Nat.eqb v x); destruct (nth_error t x); reflexivity.
Qed.

Lemma add_edge_nth t v w i u' :
  nth_error (add_edge v w t) i = Some u' ->
  exists u, nth_error t i = Some u /\ idx u' = idx u /\ key u' = key u
            /\ val u' = val u /\ (out u' = true -> out u = true \/ i = v).
Proof.
  unfold add_edge. rewrite !nth_error_upd. intros H.
  destruct (nth_error t i) as [u|].
  - exists u. split; [reflexivity|].
    destruct (Nat.eqb_spec v i) as [->|Hv], (Nat.eqb w i); simpl in H;
      inversion H; subst; simpl; auto.
  - destruct (Nat.eqb v i), (Nat.eqb w i); discriminate.
Qed.

Lemma add_edge_edge t v w x c :
  w < List.length t ->
  edge (add_edge v w t) x c <-> edge t x c \/ (x = w /\ c = v).
Proof.
  intros Hw. unfold edge, add_edge. rewrite inc_add_edge by assumption.
  destruct (Nat.eqb_spec x w) as [->|Hn].
  - rewrite in_app_iff. simpl. split; intros [H|H]; auto.
    + destruct H as [->|[]]. auto.
    + destruct H as [_ ->]. auto.
  - split; [auto|]. intros [H|[H _]]; [assumption|congruence].
Qed.

Lemma wf_add_edge t v w :
  wf t -> v < List.length t -> w < List.length t -> ~ reaches t v w ->
  wf (add_edge v w t).
Proof.
  intros W Hv Hw Hn.
  assert (El : List.length (add_edge v w t) = List.length t)
    by (unfold add_edge; rewrite !upd_length; reflexivity).
  constructor.
  - intros i u' H. destruct (add_edge_nth _ _ _ _ _ H) as (u & Hu & Hi & _).
    rewrite Hi. apply (wf_idx _ W _ _ Hu).
  - intros i u' H. destruct (add_edge_nth _ _ _ _ _ H) as (u & Hu & _ & Hk & _).
    rewrite Hk. apply (wf_key _ W _ _ Hu).
  - intros i j u1' u2' H1 H2 Hk.
    destruct (add_edge_nth _ _ _ _ _ H1) as (u1 & Hu1 & _ & Hk1 & _).
    destruct (add_edge_nth _ _ _ _ _ H2) as (u2 & Hu2 & _ & Hk2 & _).
    apply (wf_uniq _ W _ _ _ _ Hu1 Hu2). congruence.
  - intros x c H. rewrite El. apply add_edge_edge in H; [|assumption].
    destruct H as [H|[_ ->]]; [apply (wf_closed _ W x); assumption|assumption].
  - intros i u' H Ho.
    destruct (add_edge_nth _ _ _ _ _ H) as (u & Hu & _ & _ & _ & Hout).
    destruct (Hout Ho) as [Ho'| ->].
    + destruct (wf_out _ W _ _ Hu Ho') as [y Hy]. exists y.
      apply add_edge_edge; auto.
    + exists w. apply add_edge_edge; auto.
  - intros x H.
    assert (H' : clos_trans nat (fun a b => edge t a b \/ (a = w /\ b = v)) x x).
    { eapply clos_trans_mono; [|exact H]. intros a b. apply add_edge_edge. assumption. }
    apply clos_trans_add_edge in H'. destruct H' as [H'|[H1 H2]].
    + exact (wf_acyclic _ W x H').
    + apply Hn. eapply rt_trans; eauto.
Qed.

Lemma clean_upd_comm t t' i f :
  (forall v v', set_flag false v = set_flag false v' ->
                set_flag false (f v) = set_flag false (f v')) ->
  clean t = clean t' -> clean (upd i f t) = clean (upd i f t').
Proof.
  intros Hf. revert t' i. induction t as [|u t IH]; intros [|u' t'] i E;
    try discriminate; [reflexivity|].
  unfold clean in *. simpl in E.
  assert (E1 : set_flag false u = set_flag false u') by congruence.
  assert (E2 : map (set_flag false) t = map (set_flag false) t') by congruence.
  destruct i; simpl.
  - f_equal; [apply Hf|]; assumption.
  - f_equal; [assumption|]. apply IH. assumption.
Qed.

Lemma clean_add_edge t t' v w :
  clean t = clean t' -> clean (add_edge v w t) = clean (add_edge v w t').
Proof.
  intros E. unfold add_edge.
  apply clean_upd_comm; [|apply clean_upd_comm; [|assumption]];
    intros [] []; simpl; intros H; inversion H; reflexivity.
Qed.

Lemma existsb_eqb_In n l : existsb (Nat.eqb n) l = true <-> In n l.
Proof.
  rewrite existsb_exists. split.
  - intros (x & Hx & He). apply Nat.eqb_eq in He. congruence.
  - intros H. exists n. split; [assumption|apply Nat.eqb_refl].
Qed.

Lemma addEdge_spec s v w vv wv :
  wf (table s) ->
  nth_error (table s) v = Some vv -> nth_error (table s) w = Some wv ->
  (exists p s',
      pred_path (table s) v p w
      /\ addEdge v w s = Throw (cycle_message (key wv) (keys_of (table s) p)) s'
      /\ clean (table s') = clean (table s))
  \/ (~ reaches (table s) v w
      /\ exists s', addEdge v w s = Ret tt s'
           /\ ((In v (incoming wv) /\ clean (table s') = clean (table s))
               \/ (~ In v (incoming wv)
                   /\ clean (table s') = clean (add_edge v w (table s))))).
Proof.
  intros W Ev Ew.
  remember (addEdge v w s) as r eqn:Hr.
  unfold addEdge, bind at 1, vertex_at at 1 in Hr. rewrite Ew in Hr.
  unfold bind at 1 in Hr.
  destruct (check_spec s v (key wv) vv W Ev)
    as (s1 & Hc & [(p & z & vz & P1 & P2 & P3 & P4)|[Hno Hret]]).
  - left. rewrite P4 in Hr.
    assert (z = w) by (apply (wf_uniq _ W _ _ _ _ P2 Ew P3)). subst z.
    exists p, s1. repeat split; assumption.
  - right. rewrite Hret in Hr.
    split; [apply (Hno w wv Ew eq_refl)|].
    destruct (clean_nth _ _ _ _ (eq_sym Hc) Ev) as (vv1 & Ev1 & Hs1).
    destruct (clean_nth _ _ _ _ (eq_sym Hc) Ew) as (wv1 & Ew1 & Hs2).
    apply set_flag_false_eq in Hs1, Hs2.
    destruct Hs1 as (Hi1 & _). destruct Hs2 as (_ & _ & _ & _ & Hin2).
    unfold bind, vertex_at in Hr. rewrite Ev1, Ew1 in Hr.
    rewrite Hi1, (wf_idx _ W _ _ Ev), Hin2 in Hr.
    destruct (existsb (Nat.eqb v) (incoming wv)) eqn:Ex.
    + exists s1. split; [exact Hr|]. left.
      split; [apply existsb_eqb_In; assumption|assumption].
    + eexists. split; [exact Hr|]. right. split.
      * intros Hin. apply existsb_eqb_In in Hin. congruence.
      * unfold modify. cbn [table with_table]. apply clean_add_edge. assumption.
Qed.

(** ** Resolving a key *)

Lemma find_key_Some k t n i :
  find_key k t n = Some i ->
  n <= i /\ exists v, nth_error t (i - n) = Some v /\ key v = k.
Proof.
  revert n. induction t as [|u t IH]; intros n H; simpl in H; [discriminate|].
  destruct (String.eqb (key u) k) eqn:E.
  - inversion H; subst. split; [lia|]. rewrite Nat.sub_diag.
    exists u. split; [reflexivity|apply String.eqb_eq; assumption].
  - destruct (IH _ H) as (Hle & v & Hv & Hk). split; [lia|].
    exists v. split; [|assumption].
    replace (i - n) with (S (i - S n)) by lia. assumption.
Qed.

Lemma find_key_None k t n :
  find_key k t n = None -> forall j v, nth_error t j = Some v -> key v <> k.
Proof.
  revert n. induction t as [|u t IH]; intros n H j v Hj; simpl in H.
  - destruct j; discriminate.
  - destruct (String.eqb (key u) k) eqn:E; [discriminate|].
    destruct j; simpl in Hj.
    + inversion Hj; subst. apply String.eqb_neq. assumption.
    + eapply IH; eauto.
Qed.

Lemma find_key_wf k t i v :
  wf t -> nth_error t i = Some v -> key v = k -> find_key k t 0 = Some i.
Proof.
  intros W H Hk. destruct (find_key k t 0) as [j|] eqn:E.
  - destruct (find_key_Some _ _ _ _ E) as (_ & u & Hu & Hku).
    rewrite Nat.sub_0_r in Hu. f_equal.
    apply (wf_uniq _ W _ _ _ _ Hu H). congruence.
  - exfalso. apply (find_key_None _ _ _ E _ _ H). assumption.
Qed.

Lemma nth_error_snoc (t : list Vertex) nv i u :
  nth_error (t ++ [nv]) i = Some u ->
  (i < List.length t /\ nth_error t i = Some u) \/ (i = List.length t /\ u = nv).
Proof.
  intros H. destruct (Nat.lt_ge_cases i (List.length t)) as [Hlt|Hge].
  - left. rewrite nth_error_app1 in H by assumption. auto.
  - right. rewrite nth_error_app2 in H by assumption.
    destruct (i - List.length t) as [|m] eqn:Em; simpl in H.
    + inversion H. split; [lia|reflexivity].
    + destruct m; discriminate.
Qed.

Lemma inc_snoc t l k x : inc (t ++ [new_vertex l k]) x = inc t x.
Proof.
  unfold inc. destruct (nth_error (t ++ [new_vertex l k]) x) as [u|] eqn:E.
  - apply nth_error_snoc in E. destruct E as [[_ ->]|[-> ->]]; [reflexivity|].
    assert (H : nth_error t (List.length t) = None) by (apply nth_error_None; lia).
    rewrite H. reflexivity.
  - apply nth_error_None in E. rewrite length_app in E. simpl in E.
    assert (H : nth_error t x = None) by (apply nth_error_None; lia).
    rewrite H. reflexivity.
Qed.

Lemma wf_snoc t k :
  wf t -> k <> "" -> (forall j v, nth_error t j = Some v -> key v <> k) ->
  wf (t ++ [new_vertex (List.length t) k]).
Proof.
  intros W Hk Hfresh.
  assert (Ee : forall a b, edge (t ++ [new_vertex (List.length t) k]) a b <-> edge t a b)
    by (intros a b; unfold edge; rewrite inc_snoc; tauto).
  constructor.
  - intros i u H. apply nth_error_snoc in H.
    destruct H as [[_ H]|[-> ->]]; [apply (wf_idx _ W _ _ H)|reflexivity].
  - intros i u H. apply nth_error_snoc in H.
    destruct H as [[_ H]|[-> ->]]; [apply (wf_key _ W _ _ H)|assumption].
  - intros i j u1 u2 H1 H2 Hkk. apply nth_error_snoc in H1, H2.
    destruct H1 as [[_ H1]|[-> ->]], H2 as [[_ H2]|[-> ->]].
    + apply (wf_uniq _ W _ _ _ _ H1 H2 Hkk).
    + exfalso. apply (Hfresh _ _ H1). assumption.
    + exfalso. apply (Hfresh _ _ H2). symmetry. assumption.
    + reflexivity.
  - intros x c H. apply Ee in H. rewrite length_app. simpl.
    pose proof (wf_closed _ W x c H). lia.
  - intros i u H Ho. apply nth_error_snoc in H.
    destruct H as [[_ H]|[-> ->]]; [|discriminate].
    destruct (wf_out _ W _ _ H Ho) as [y Hy]. exists y. apply Ee. assumption.
  - intros x H. apply (wf_acyclic _ W x).
    eapply clos_trans_mono; [|exact H]. intros a b. apply Ee.
Qed.

Lemma grows_snoc t k : grows t (t ++ [new_vertex (List.length t) k]).
Proof.
  split.
  - intros i v H. exists v. split.
    + rewrite nth_error_app1; [assumption|]. apply nth_error_Some. congruence.
    + repeat split; auto. exists []. rewrite app_nil_r. reflexivity.
  - intros i v' Hi H. apply nth_error_snoc in H.
    destruct H as [[H _]|[_ ->]]; [lia|reflexivity].
Qed.

Lemma Vertices_add_spec s k :
  wf (table s) -> k <> "" ->
  exists i s' v, Vertices_add k s = Ret i s'
    /\ wf (table s') /\ grows (table s) (table s')
    /\ nth_error (table s') i = Some v /\ key v = k
    /\ ((find_key k (table s) 0 = Some i /\ s' = s)
        \/ (find_key k (table s) 0 = None /\ i = List.length (table s)
            /\ s' = with_table (table s ++ [new_vertex i k]) s)).
Proof.
  intros W Hk. unfold Vertices_add.
  apply String.eqb_neq in Hk. rewrite Hk. apply String.eqb_neq in Hk.
  destruct (find_key k (table s) 0) as [i|] eqn:E.
  - destruct (find_key_Some _ _ _ _ E) as (_ & v & Hv & Hkv).
    rewrite Nat.sub_0_r in Hv.
    exists i, s, v. split; [reflexivity|]. split; [assumption|].
    split; [apply grows_refl|]. split; [assumption|]. split; [assumption|].
    left. auto.
  - eexists _, _, (new_vertex (List.length (table s)) k).
    split; [reflexivity|]. cbn [table with_table].
    split; [apply wf_snoc; [assumption|assumption|apply (find_key_None _ _ _ E)]|].
    split; [apply grows_snoc|].
    split; [rewrite nth_error_app2, Nat.sub_diag by lia; reflexivity|].
    split; [reflexivity|]. right. auto.
Qed.

Lemma Vertices_add_empty s : Vertices_add "" s = Throw "missing key" s.
Proof. reflexivity. Qed.

(** ** One call of [add] *)

Lemma grows_add_edge t v w : grows t (add_edge v w t).
Proof.
  unfold add_edge. eapply grows_trans; apply grows_upd; intros u; simpl;
    repeat split; eauto.
  exists []. rewrite app_nil_r. reflexivity.
Qed.

Lemma addEdge_finishes s v w :
  wf (table s) -> v < List.length (table s) -> w < List.length (table s) ->
  exists s', finishes (addEdge v w s) s' /\ wf (table s')
             /\ grows (table s) (table s')
             /\ List.length (table s') = List.length (table s).
Proof.
  intros W Hv Hw.
  pose proof Hv as Hv'. pose proof Hw as Hw'.
  apply nth_error_Some in Hv', Hw'.
  destruct (nth_error (table s) v) as [vv|] eqn:Ev; [|congruence].
  destruct (nth_error (table s) w) as [wv|] eqn:Ew; [|congruence].
  assert (L : forall t, clean t = clean (table s) \/ clean t = clean (add_edge v w (table s))
              -> List.length t = List.length (table s)).
  { intros t [E|E]; rewrite <- (clean_length t), E, clean_length; [reflexivity|].
    unfold add_edge. rewrite !upd_length. reflexivity. }
  destruct (addEdge_spec s v w vv wv W Ev Ew)
    as [(p & s' & _ & H & Hc)|(Hn & s' & H & [[_ Hc]|[_ Hc]])];
    exists s'; (split; [unfold finishes; rewrite H; eauto|]).
  - split; [eapply wf_clean; [symmetry; exact Hc|exact W]|].
    split; [apply grows_clean; auto|auto].
  - split; [eapply wf_clean; [symmetry; exact Hc|exact W]|].
    split; [apply grows_clean; auto|auto].
  - split; [eapply wf_clean; [symmetry; exact Hc|apply wf_add_edge; assumption]|].
    split; [|auto].
    eapply grows_trans; [apply grows_add_edge|apply grows_clean; symmetry; exact Hc].
Qed.

Lemma add_edges_finishes v link : safe_link v link ->
  forall ks s, wf (table s) -> v < List.length (table s) ->
    exists s', finishes (add_edges link ks s) s' /\ wf (table s')
               /\ grows (table s) (table s').
Proof.
  intros Hl. induction ks as [|k ks IH]; intros s W Hv.
  - exists s. split; [left; exists tt; reflexivity|]. split; [assumption|apply grows_refl].
  - cbn [add_edges]. unfold bind at 1.
    destruct (String.eqb_spec k "") as [->|Hk].
    + rewrite Vertices_add_empty. exists s.
      split; [right; eauto|]. split; [assumption|apply grows_refl].
    + destruct (Vertices_add_spec s k W Hk) as (i & s1 & u & H1 & W1 & G1 & Hu & _).
      rewrite H1. unfold bind at 1.
      pose proof (grows_length _ _ G1) as L1.
      assert (Hi : i < List.length (table s1)) by (apply nth_error_Some; congruence).
      destruct (Hl s1 i W1 ltac:(lia) Hi) as (s2 & [[[] F2]|[msg F2]] & W2 & G2 & L2);
        rewrite F2.
      * destruct (IH s2 W2 ltac:(lia)) as (s3 & F3 & W3 & G3).
        exists s3. split; [exact F3|]. split; [assumption|].
        eapply grows_trans; [exact G1|eapply grows_trans; eauto].
      * exists s2. split; [right; eauto|]. split; [assumption|].
        eapply grows_trans; eauto.
Qed.

Lemma changes_intro k x t t1 t3 v0 u :
  wf t1 -> grows t t1 -> nth_error t1 v0 = Some u -> key u = k ->
  grows (upd v0 (set_val x) t1) t3 ->
  changes k x t t3.
Proof.
  intros W1 [A1 B1] Hu Hk G3. pose proof (grows_length _ _ G3) as L3.
  rewrite upd_length in L3. destruct G3 as [A3 B3]. rewrite upd_length in B3.
  assert (N2 : forall i v1, nth_error t1 i = Some v1 ->
            exists v2, nth_error (upd v0 (set_val x) t1) i = Some v2
                       /\ idx v2 = idx v1 /\ key v2 = key v1
                       /\ incoming v2 = incoming v1
                       /\ (key v1 <> k -> val v2 = val v1)).
  { intros i v1 H1. destruct (Nat.eq_dec v0 i) as [->|Hn].
    - exists (set_val x v1). rewrite (nth_error_upd_eq _ _ _ _ H1).
      repeat split. intros Hne. congruence.
    - exists v1. rewrite nth_error_upd_neq by assumption. auto. }
  split; [|split].
  - intros i v H. destruct (A1 _ _ H) as (v1 & H1 & I1 & K1 & V1 & e1 & E1).
    destruct (N2 _ _ H1) as (v2 & H2 & I2 & K2 & E2 & V2).
    destruct (A3 _ _ H2) as (v3 & H3 & I3 & K3 & V3 & e3 & E3).
    exists v3. split; [assumption|]. split; [congruence|]. split; [congruence|].
    split.
    + intros Hne. rewrite V3, V2, V1; [reflexivity|congruence].
    + exists (e1 ++ e3). rewrite E3, E2, E1, app_assoc. reflexivity.
  - intros i v' Hi H Hne.
    destruct (Nat.le_gt_cases (List.length t1) i) as [Hge|Hlt]; [eauto|].
    apply nth_error_Some in Hlt.
    destruct (nth_error t1 i) as [v1|] eqn:H1; [|congruence].
    destruct (N2 _ _ H1) as (v2 & H2 & I2 & K2 & E2 & V2).
    destruct (A3 _ _ H2) as (v3 & H3 & I3 & K3 & V3 & _).
    rewrite H in H3. inversion H3; subst v3.
    rewrite V3, V2; [eauto|congruence].
  - destruct (N2 _ _ Hu) as (v2 & H2 & I2 & K2 & E2 & V2).
    assert (Hx : val v2 = x).
    { rewrite (nth_error_upd_eq _ (set_val x) _ _ Hu) in H2. inversion H2. reflexivity. }
    destruct (A3 _ _ H2) as (v3 & H3 & I3 & K3 & V3 & _).
    exists v0, v3. split; [assumption|]. split; congruence.
Qed.

Lemma wf_set_val t i x : wf t -> wf (upd i (set_val x) t).
Proof.
  apply wf_transfer. symmetry. apply map_upd_absorb. intros []; reflexivity.
Qed.

Lemma DAG_add_empty_key x before after s :
  DAG_add "" x before after s = Throw "argument `key` is required" s.
Proof. reflexivity. Qed.

Lemma DAG_add_spec s k x before after :
  wf (table s) -> k <> "" ->
  exists s', finishes (DAG_add k x before after s) s' /\ wf (table s')
             /\ changes k x (table s) (table s').
Proof.
  intros W Hk. unfold DAG_add.
  apply String.eqb_neq in Hk. rewrite Hk. apply String.eqb_neq in Hk.
  destruct (Vertices_add_spec s k W Hk) as (v & s1 & u & H1 & W1 & G1 & Hu & Hku & _).
  unfold bind at 1. rewrite H1. unfold bind at 1, modify at 1.
  set (s2 := with_table (upd v (set_val x) (table s1)) s1).
  assert (W2 : wf (table s2)) by (apply wf_set_val; assumption).
  assert (Hv2 : v < List.length (table s2)).
  { cbn [s2 table with_table]. rewrite upd_length. apply nth_error_Some. congruence. }
  assert (Sb : exists s3, finishes
                 ((if truthy before
                   then add_edges (fun w => addEdge v w) (targets before)
                   else ret tt) s2) s3
               /\ wf (table s3) /\ grows (table s2) (table s3)).
  { destruct (truthy before).
    - apply (add_edges_finishes v); [|assumption|assumption].
      intros s0 w W0 Hv0 Hw0. apply addEdge_finishes; assumption.
    - exists s2. split; [left; exists tt; reflexivity|].
      split; [assumption|apply grows_refl]. }
  destruct Sb as (s3 & [[[] F3]|[msg F3]] & W3 & G3); unfold bind at 1; rewrite F3.
  - assert (Hv3 : v < List.length (table s3))
      by (pose proof (grows_length _ _ G3); lia).
    assert (Sa : exists s4, finishes
                   ((if truthy after
                     then add_edges (fun w => addEdge w v) (targets after)
                     else ret tt) s3) s4
                 /\ wf (table s4) /\ grows (table s3) (table s4)).
    { destruct (truthy after).
      - apply (add_edges_finishes v); [|assumption|assumption].
        intros s0 w W0 Hv0 Hw0. apply addEdge_finishes; assumption.
      - exists s3. split; [left; exists tt; reflexivity|].
        split; [assumption|apply grows_refl]. }
    destruct Sa as (s4 & F4 & W4 & G4). exists s4.
    split; [|split; [assumption|]].
    + destruct F4 as [[[] F4]|[msg F4]]; rewrite F4; [left|right]; eauto.
    + eapply (changes_intro k x _ (table s1) _ v u); eauto.
      eapply grows_trans; eauto.
  - exists s3. split; [right; eauto|]. split; [assumption|].
    eapply (changes_intro k x _ (table s1) _ v u); eauto.
Qed.

(** ** Every reachable store is well formed *)

Lemma wf_empty : wf (table empty).
Proof.
  constructor; simpl.
  - intros [|i] v H; discriminate.
  - intros [|i] v H; discriminate.
  - intros [|i] j v u H; discriminate.
  - intros x c H. unfold edge, inc in H. destruct x; simpl in H; destruct H.
  - intros [|i] v H; discriminate.
  - intros x H. apply clos_trans_t1n in H. destruct H as [y H|y z H _];
      unfold edge, inc in H; destruct x; simpl in H; destruct H.
Qed.

Lemma map_entry_seq pre t :
  map (entry (pre ++ t)) (seq (List.length pre) (List.length t)) = map kv t.
Proof.
  revert pre. induction t as [|u t IH]; intros pre; [reflexivity|].
  cbn [List.length seq map]. f_equal.
  - unfold entry. rewrite nth_error_app2, Nat.sub_diag by lia. reflexivity.
  - specialize (IH (pre ++ [u])). rewrite <- app_assoc, length_app in IH.
    simpl in IH. rewrite Nat.add_1_r in IH. exact IH.
Qed.

(** What one traversal yields on a well-formed table. *)
Lemma walk_facts s : wf (table s) ->
  exists out s',
    walk s = Ret out s'
    /\ clean (table s') = clean (table s)
    /\ walk_rec (table s) = Some out
    /\ Permutation (map kv (table s)) out
    /\ NoDup (map fst out)
    /\ forall x c, edge (table s) x c ->
         exists l1 l2 l3,
           out = l1 ++ entry (table s) c :: l2 ++ entry (table s) x :: l3.
Proof.
  intros W. destruct (walk_ok s W) as (d' & Hd & Hw & Hc & Hord & Hperm).
  exists (map (entry (table s)) (rev (t_result d'))), (conc [] d').
  assert (Hnd : NoDup (t_result d'))
    by (eapply Permutation_NoDup; [symmetry; exact Hperm|apply seq_NoDup]).
  assert (Hlt : forall i, In i (t_result d') -> i < List.length (table s)).
  { intros i Hi. apply (Permutation_in _ Hperm), in_seq in Hi. lia. }
  split; [assumption|]. split; [assumption|]. split; [|split; [|split]].
  - unfold walk_rec. rewrite Hd. reflexivity.
  - rewrite <- (map_entry_seq [] (table s)). cbn [app List.length].
    apply Permutation_map. symmetry.
    eapply Permutation_trans; [symmetry; apply Permutation_rev|exact Hperm].
  - rewrite map_map. apply NoDup_map_NoDup_ForallPairs; [|apply NoDup_rev; assumption].
    intros i j Hi Hj E. apply in_rev in Hi, Hj. apply Hlt in Hi, Hj.
    apply nth_error_Some in Hi, Hj. unfold entry in E.
    destruct (nth_error (table s) i) as [vi|] eqn:Ei; [|congruence].
    destruct (nth_error (table s) j) as [vj|] eqn:Ej; [|congruence].
    apply (wf_uniq _ W _ _ _ _ Ei Ej). exact E.
  - intros x c He.
    assert (Hx : In x (t_result d')).
    { apply (Permutation_in _ (Permutation_sym Hperm)), in_seq.
      pose proof (edge_lt _ _ _ He). lia. }
    destruct (ordered_split _ _ _ _ Hord Hx He) as (r1 & r2 & r3 & ->).
    exists (map (entry (table s)) (rev r3)), (map (entry (table s)) (rev r2)),
           (map (entry (table s)) (rev r1)).
    rewrite rev_app_distr. cbn [rev]. rewrite rev_app_distr. cbn [rev].
    repeat (rewrite <- app_assoc; cbn [app]).
    repeat (rewrite map_app; cbn [map]).
    reflexivity.
Qed.

Lemma step_wf o s : wf (table s) -> exists s', step o s = Some s' /\ wf (table s').
Proof.
  intros W. destruct o as [k x before after|]; unfold step.
  - destruct (String.eqb_spec k "") as [->|Hk].
    + rewrite DAG_add_empty_key. eauto.
    + destruct (DAG_add_spec s k x before after W Hk)
        as (s' & [[[] F]|[msg F]] & W' & _); rewrite F; eauto.
  - unfold DAG_each. destruct (walk_facts s W) as (out & s' & Hw & Hc & _).
    rewrite Hw. exists s'. split; [reflexivity|].
    eapply wf_clean; [symmetry; exact Hc|exact W].
Qed.

Lemma run_wf os : forall s, wf (table s) ->
  exists s', run os s = Some s' /\ wf (table s').
Proof.
  induction os as [|o os IH]; intros s W; simpl; [eauto|].
  destruct (step_wf o s W) as (s1 & H1 & W1). rewrite H1. apply IH. assumption.
Qed.

Lemma reaches_cases g a b : reaches g a b <-> a = b \/ clos_trans nat (edge g) a b.
Proof.
  split.
  - intros H. apply clos_rt_rt1n in H. induction H as [|a b c Hab Hbc IH]; [auto|].
    right. destruct IH as [->|IH]; [apply t_step; assumption|].
    eapply t_trans; [apply t_step; exact Hab|exact IH].
  - intros [->|H]; [apply rt_refl|].
    induction H; [apply rt_step; assumption|eapply rt_trans; eauto].
Qed.

(** ** Re-adding a key, and forward references *)

Lemma changes_at k x t t' i v :
  wf t' -> changes k x t t' -> nth_error t i = Some v -> key v = k ->
  exists v', nth_error t' i = Some v' /\ idx v' = idx v /\ key v' = key v
             /\ val v' = x /\ exists extra, incoming v' = incoming v ++ extra.
Proof.
  intros W' (A & _ & (j & u & Hu & Hku & Hxu)) H Hk.
  destruct (A _ _ H) as (v' & Hv' & Hi & Hkey & _ & He).
  exists v'. split; [assumption|]. split; [assumption|]. split; [assumption|].
  split; [|assumption].
  assert (i = j) by (apply (wf_uniq _ W' _ _ _ _ Hv' Hu); congruence).
  subst j. congruence.
Qed.

Lemma readd_spec s i v x before after :
  wf (table s) -> nth_error (table s) i = Some v ->
  exists s' v',
    finishes (DAG_add (key v) x before after s) s' /\ wf (table s')
    /\ changes (key v) x (table s) (table s')
    /\ nth_error (table s') i = Some v' /\ idx v' = idx v /\ key v' = key v
    /\ val v' = x /\ (exists extra, incoming v' = incoming v ++ extra).
Proof.
  intros W H.
  destruct (DAG_add_spec s (key v) x before after W (wf_key _ W _ _ H))
    as (s' & F & W' & C).
  destruct (changes_at _ _ _ _ _ _ W' C H eq_refl) as (v' & H1 & H2 & H3 & H4 & H5).
  exists s', v'. auto 10.
Qed.

Lemma readd_plain s i v x before after :
  wf (table s) -> nth_error (table s) i = Some v ->
  truthy before = false -> truthy after = false ->
  DAG_add (key v) x before after s
  = Ret tt (with_table (upd i (set_val x) (table s)) s).
Proof.
  intros W H Hb Ha. unfold DAG_add.
  pose proof (wf_key _ W _ _ H) as Hk. apply String.eqb_neq in Hk. rewrite Hk.
  unfold bind at 1, Vertices_add. rewrite Hk.
  rewrite (find_key_wf (key v) (table s) i v W H eq_refl).
  rewrite Hb, Ha. reflexivity.
Qed.




(** ** Empty keys among the constraint targets *)

Lemma add_edges_empty_target link ks s s' :
  In "" ks -> add_edges link ks s <> Ret tt s'.
Proof.
  revert s. induction ks as [|k ks IH]; intros s Hin H; [destruct Hin|].
  cbn [add_edges] in H. unfold bind at 1 in H.
  destruct Hin as [->|Hin]; [rewrite Vertices_add_empty in H; discriminate|].
  destruct (Vertices_add k s) as [w s1| | |]; try discriminate.
  unfold bind at 1 in H. destruct (link w s1) as [[] s2| | |]; try discriminate.
  exact (IH s2 Hin H).
Qed.

Lemma add_edges_missing_key link pre post s s1 :
  add_edges link pre s = Ret tt s1 ->
  add_edges link (pre ++ "" :: post) s = Throw "missing key" s1.
Proof.
  revert s. induction pre as [|k pre IH]; intros s H.
  - inversion H; subst. reflexivity.
  - cbn [add_edges app] in *. unfold bind at 1 in H. unfold bind at 1.
    destruct (Vertices_add k s) as [w s2| | |]; try discriminate.
    unfold bind at 1 in H. unfold bind at 1.
    destruct (link w s2) as [[] s3| | |]; try discriminate.
    apply IH. exact H.
Qed.

Lemma DAG_add_empty_target s k x ks c :
  wf (table s) -> In "" ks ->
  (exists msg s', DAG_add k x (many ks) c s = Throw msg s')
  /\ (exists msg s', DAG_add k x c (many ks) s = Throw msg s').
Proof.
  intros W Hin. destruct (String.eqb_spec k "") as [->|Hk].
  { split; eexists _, _; apply DAG_add_empty_key. }
  assert (N1 : forall s', DAG_add k x (many ks) c s <> Ret tt s').
  { intros s' H. unfold DAG_add in H. apply String.eqb_neq in Hk. rewrite Hk in H.
    unfold bind at 1 in H. destruct (Vertices_add k s) as [v s1| | |]; try discriminate.
    unfold bind at 1, modify at 1 in H. unfold bind at 1 in H. cbn [truthy targets] in H.
    destruct (add_edges (fun w => addEdge v w) ks
                (with_table (upd v (set_val x) (table s1)) s1))
      as [[] s3| | |] eqn:E; try discriminate.
    exact (add_edges_empty_target _ _ _ _ Hin E). }
  assert (N2 : forall s', DAG_add k x c (many ks) s <> Ret tt s').
  { intros s' H. unfold DAG_add in H. apply String.eqb_neq in Hk. rewrite Hk in H.
    unfold bind at 1 in H. destruct (Vertices_add k s) as [v s1| | |]; try discriminate.
    unfold bind at 1, modify at 1 in H. unfold bind at 1 in H.
    destruct ((if truthy c then add_edges (fun w => addEdge v w) (targets c) else ret tt)
                (with_table (upd v (set_val x) (table s1)) s1))
      as [[] s3| | |]; try discriminate.
    cbn [truthy targets] in H.
    exact (add_edges_empty_target _ _ _ _ Hin H). }
  split.
  - destruct (DAG_add_spec s k x (many ks) c W Hk) as (s' & [[[] F]|[msg F]] & _).
    + exfalso. exact (N1 _ F).
    + eauto.
  - destruct (DAG_add_spec s k x c (many ks) W Hk) as (s' & [[[] F]|[msg F]] & _).
    + exfalso. exact (N2 _ F).
    + eauto.
Qed.

Lemma DAG_add_missing_key_before s k x pre post c v s1 s3 :
  k <> "" -> Vertices_add k s = Ret v s1 ->
  add_edges (fun w => addEdge v w) pre
    (with_table (upd v (set_val x) (table s1)) s1) = Ret tt s3 ->
  DAG_add k x (many (pre ++ "" :: post)) c s = Throw "missing key" s3.
Proof.
  intros Hk H1 H3. unfold DAG_add. apply String.eqb_neq in Hk. rewrite Hk.
  unfold bind at 1. rewrite H1. unfold bind at 1, modify at 1. unfold bind at 1.
  cbn [truthy targets]. rewrite (add_edges_missing_key _ _ post _ _ H3). reflexivity.
Qed.

Lemma DAG_add_missing_key_after s k x pre post c v s1 s3 s4 :
  k <> "" -> Vertices_add k s = Ret v s1 ->
  (if truthy c then add_edges (fun w => addEdge v w) (targets c) else ret tt)
    (with_table (upd v (set_val x) (table s1)) s1) = Ret tt s3 ->
  add_edges (fun w => addEdge w v) pre s3 = Ret tt s4 ->
  DAG_add k x c (many (pre ++ "" :: post)) s = Throw "missing key" s4.
Proof.
  intros Hk H1 H3 H4. unfold DAG_add. apply String.eqb_neq in Hk. rewrite Hk.
  unfold bind at 1. rewrite H1. unfold bind at 1, modify at 1. unfold bind at 1.
  rewrite H3. cbn [truthy targets]. apply add_edges_missing_key. exact H4.
Qed.

(** ** The traversal flags and stacks do not influence a call *)

Lemma agree_refl {A} (o : outcome A) : agree eq o o.
Proof. destruct o; simpl; unfold same_store; auto. Qed.

Lemma agree_bind {A B} (R : A -> A -> Prop) (R' : B -> B -> Prop)
    (m m' : M A) (f f' : A -> M B) s s' :
  agree R (m s) (m' s') ->
  (forall a a' s1 s1', R a a' -> same_store s1 s1' -> agree R' (f a s1) (f' a' s1')) ->
  agree R' (bind m f s) (bind m' f' s').
Proof.
  intros H Hf. unfold bind.
  destruct (m s), (m' s'); simpl in *; try tauto.
  destruct H. apply Hf; assumption.
Qed.

Lemma vertex_at_agree i s s' :
  same_store s s' -> agree vsim (vertex_at i s) (vertex_at i s').
Proof.
  intros E. unfold vertex_at.
  destruct (nth_error (table s) i) as [v|] eqn:H.
  - destruct (clean_nth _ _ _ _ E H) as (v' & -> & Hv). simpl. split; [|exact E].
    unfold vsim. congruence.
  - destruct (nth_error (table s') i) as [v'|] eqn:H'; [|exact I].
    destruct (clean_nth _ _ _ _ (eq_sym E) H') as (v & Hv & _). congruence.
Qed.

Lemma find_key_clean k t t' n : clean t = clean t' -> find_key k t n = find_key k t' n.
Proof.
  revert t' n. induction t as [|u t IH]; intros [|u' t'] n E; try discriminate;
    [reflexivity|].
  unfold clean in E. simpl in E.
  assert (E1 : set_flag false u = set_flag false u') by congruence.
  assert (E2 : clean t = clean t') by (unfold clean; congruence).
  apply set_flag_false_eq in E1. destruct E1 as (_ & Hk & _).
  simpl. rewrite Hk. destruct (String.eqb (key u') k); [reflexivity|].
  apply IH. assumption.
Qed.

Lemma Vertices_add_agree k s s' :
  same_store s s' -> agree eq (Vertices_add k s) (Vertices_add k s').
Proof.
  intros E. unfold Vertices_add.
  destruct (String.eqb k ""); [simpl; auto|].
  rewrite (find_key_clean k _ _ 0 E).
  assert (L : List.length (table s) = List.length (table s'))
    by (rewrite <- (clean_length (table s)), E; apply clean_length).
  destruct (find_key k (table s') 0); simpl; [auto|].
  split; [assumption|]. unfold same_store, clean in *. cbn [table with_table].
  rewrite !map_app, E, L. reflexivity.
Qed.

Lemma shallow_check_agree vkey w slots : forall s s',
  same_store s s' ->
  agree eq (shallow_check vkey w slots s) (shallow_check vkey w slots s').
Proof.
  induction slots as [|i slots IH]; intros s s' E; [simpl; auto|].
  cbn [shallow_check]. eapply agree_bind; [apply vertex_at_agree; exact E|].
  intros u u' s1 s1' Hu E1. apply set_flag_false_eq in Hu.
  destruct Hu as (_ & Hk & _). rewrite Hk.
  destruct (String.eqb (key u') w); [simpl; auto|]. apply IH. assumption.
Qed.

Lemma reset_same_store (f : unit -> M unit) s s' :
  same_store s s' -> bind reset f s = bind reset f s'.
Proof.
  intros E. unfold bind, reset, modify. unfold same_store, clean in E.
  rewrite E. reflexivity.
Qed.

Lemma check_agree v w s s' :
  same_store s s' -> agree eq (check v w s) (check v w s').
Proof.
  intros E. unfold check.
  eapply agree_bind; [apply vertex_at_agree; exact E|].
  intros vv vv' s1 s1' Hv E1. apply set_flag_false_eq in Hv.
  destruct Hv as (_ & Hk & _ & _ & Hi). rewrite Hk, Hi.
  destruct (String.eqb (key vv') w); [simpl; auto|].
  destruct (Nat.eqb (List.length (incoming vv')) 0); [simpl; auto|].
  eapply agree_bind; [apply shallow_check_agree; exact E1|].
  intros [] [] s2 s2' _ E2.
  rewrite (reset_same_store _ s2 s2' E2). apply agree_refl.
Qed.

Lemma addEdge_agree v w s s' :
  same_store s s' -> agree eq (addEdge v w s) (addEdge v w s').
Proof.
  intros E. unfold addEdge.
  eapply agree_bind; [apply vertex_at_agree; exact E|].
  intros wv wv' s1 s1' Hw E1. apply set_flag_false_eq in Hw.
  destruct Hw as (_ & Hk & _). rewrite Hk.
  eapply agree_bind; [apply check_agree; exact E1|].
  intros [] [] s2 s2' _ E2.
  eapply agree_bind; [apply vertex_at_agree; exact E2|].
  intros vv vv' s3 s3' Hv E3. apply set_flag_false_eq in Hv.
  destruct Hv as (Hi & _). rewrite Hi.
  eapply agree_bind; [apply vertex_at_agree; exact E3|].
  intros xv xv' s4 s4' Hx E4. apply set_flag_false_eq in Hx.
  destruct Hx as (_ & _ & _ & _ & Hin). rewrite Hin.
  destruct (existsb (Nat.eqb (idx vv')) (incoming xv')); [simpl; auto|].
  unfold bind, modify. simpl. split; [reflexivity|].
  unfold same_store. cbn [table with_table].
  change (clean (add_edge_at v w (idx vv') (table s4))
          = clean (add_edge_at v w (idx vv') (table s4'))).
  unfold add_edge_at.
  apply clean_upd_comm; [|apply clean_upd_comm; [|exact E4]];
    intros [] []; simpl; intros H; inversion H; reflexivity.
Qed.

Lemma add_edges_agree (link link' : nat -> M unit) :
  (forall w s s', same_store s s' -> agree eq (link w s) (link' w s')) ->
  forall ks s s', same_store s s' ->
    agree eq (add_edges link ks s) (add_edges link' ks s').
Proof.
  intros Hl. induction ks as [|k ks IH]; intros s s' E; [simpl; auto|].
  cbn [add_edges]. eapply agree_bind; [apply Vertices_add_agree; exact E|].
  intros w w' s1 s1' <- E1.
  eapply agree_bind; [apply Hl; exact E1|].
  intros [] [] s2 s2' _ E2. apply IH. assumption.
Qed.

Lemma DAG_add_agree k x before after s s' :
  same_store s s' ->
  agree eq (DAG_add k x before after s) (DAG_add k x before after s').
Proof.
  intros E. unfold DAG_add. destruct (String.eqb k ""); [simpl; auto|].
  eapply agree_bind; [apply Vertices_add_agree; exact E|].
  intros v v' s1 s1' <- E1.
  eapply (agree_bind eq).
  { unfold modify. simpl. split; [reflexivity|]. unfold same_store.
    cbn [table with_table]. apply clean_upd_comm; [|exact E1].
    intros [] []; simpl; intros H; inversion H; reflexivity. }
  intros [] [] s2 s2' _ E2.
  eapply (agree_bind eq).
  { destruct (truthy before); [|simpl; auto].
    apply add_edges_agree; [|exact E2]. intros w t t'. apply addEdge_agree. }
  intros [] [] s3 s3' _ E3.
  destruct (truthy after); [|simpl; auto].
  apply add_edges_agree; [|exact E3]. intros w t t'. apply addEdge_agree.
Qed.

Lemma walk_same_store s s' : same_store s s' -> walk s = walk s'.
Proof.
  intros E. unfold walk, bind, reset, modify. unfold same_store, clean in E.
  rewrite E. reflexivity.
Qed.

Lemma run_adds_of os : forall s s',
  wf (table s) -> same_store s s' ->
  exists s1 s1', run os s = Some s1 /\ run (adds_of os) s' = Some s1'
                 /\ same_store s1 s1' /\ wf (table s1).
Proof.
  induction os as [|o os IH]; intros s s' W E.
  - exists s, s'. simpl. auto.
  - destruct (step_wf o s W) as (s1 & H1 & W1).
    destruct o as [k x before after|].
    + cbn [adds_of filter run]. rewrite H1. fold (adds_of os).
      pose proof (DAG_add_agree k x before after s s' E) as Ha.
      unfold step in H1 |- *.
      destruct (DAG_add k x before after s) as [[] t|m t| |],
               (DAG_add k x before after s') as [[] t'|m' t'| |];
        simpl in Ha; try tauto; try discriminate;
        inversion H1; subst t; apply IH; tauto.
    + cbn [adds_of filter run]. rewrite H1. fold (adds_of os).
      apply IH; [assumption|].
      unfold step, DAG_each in H1.
      destruct (walk_facts s W) as (out & t & Hw & Hc & _). rewrite Hw in H1.
      inversion H1; subst t. unfold same_store in *. congruence.
Qed.

(** ** Properties kept by every call *)

Lemma finishes_Ret {A} (o : outcome A) a s0 s' :
  o = Ret a s0 -> finishes o s' -> s' = s0.
Proof.
  intros -> [[b H]|[m H]]; inversion H; reflexivity.
Qed.

Lemma finishes_Throw {A} (o : outcome A) m s0 s' :
  o = Throw m s0 -> finishes o s' -> s' = s0.
Proof.
  intros -> [[b H]|[m' H]]; inversion H; reflexivity.
Qed.

Section Kept.
Variable I : list Vertex -> Prop.
Hypothesis K : kept I.

Lemma kept_clean t t' : clean t = clean t' -> I t -> I t'.
Proof. intros E. apply (kept_skeleton I K). apply clean_skeleton. assumption. Qed.

Lemma addEdge_kept s v w s' :
  wf (table s) -> I (table s) ->
  v < List.length (table s) -> w < List.length (table s) ->
  finishes (addEdge v w s) s' -> I (table s').
Proof.
  intros W HI Hv Hw F.
  pose proof Hv as Hv'. pose proof Hw as Hw'.
  apply nth_error_Some in Hv', Hw'.
  destruct (nth_error (table s) v) as [vv|] eqn:Ev; [|congruence].
  destruct (nth_error (table s) w) as [wv|] eqn:Ew; [|congruence].
  destruct (addEdge_spec s v w vv wv W Ev Ew)
    as [(p & s0 & _ & H & Hc)|(Hn & s0 & H & [[_ Hc]|[Hnin Hc]])].
  - rewrite (finishes_Throw _ _ _ _ H F). apply (kept_clean _ _ (eq_sym Hc) HI).
  - rewrite (finishes_Ret _ _ _ _ H F). apply (kept_clean _ _ (eq_sym Hc) HI).
  - rewrite (finishes_Ret _ _ _ _ H F).
    apply (kept_clean _ _ (eq_sym Hc)).
    apply (kept_edge I K _ v w wv); assumption.
Qed.

Lemma add_edges_kept v link :
  safe_link v link ->
  (forall s w s', wf (table s) -> I (table s) ->
     v < List.length (table s) -> w < List.length (table s) ->
     finishes (link w s) s' -> I (table s')) ->
  forall ks s s', wf (table s) -> I (table s) -> v < List.length (table s) ->
    finishes (add_edges link ks s) s' -> I (table s').
Proof.
  intros Hl Hk. induction ks as [|k ks IH]; intros s s' W HI Hv F.
  - rewrite (finishes_Ret _ tt s s' eq_refl F). assumption.
  - cbn [add_edges] in F. unfold bind at 1 in F.
    destruct (String.eqb_spec k "") as [->|Hne].
    { rewrite Vertices_add_empty in F.
      rewrite (finishes_Throw _ _ _ _ eq_refl F). assumption. }
    destruct (Vertices_add_spec s k W Hne)
      as (i & s1 & u & H1 & W1 & G1 & Hu & _ & Hcase).
    rewrite H1 in F. unfold bind at 1 in F.
    assert (HI1 : I (table s1)).
    { destruct Hcase as [[_ ->]|(Hnone & Hil & ->)]; [assumption|].
      cbn [table with_table]. rewrite Hil.
      apply (kept_snoc I K); [assumption|assumption|].
      apply (find_key_None k (table s) 0). assumption. }
    pose proof (grows_length _ _ G1) as L1.
    assert (Hi : i < List.length (table s1)) by (apply nth_error_Some; congruence).
    destruct (Hl s1 i W1 ltac:(lia) Hi) as (s2 & F2 & W2 & G2 & L2).
    pose proof (Hk s1 i s2 W1 HI1 ltac:(lia) Hi F2) as HI2.
    destruct F2 as [[[] F2]|[msg F2]]; rewrite F2 in F.
    + apply (IH s2 s' W2 HI2 ltac:(lia) F).
    + rewrite (finishes_Throw _ _ _ _ eq_refl F). assumption.
Qed.

Lemma DAG_add_kept s k x before after s' :
  wf (table s) -> I (table s) ->
  finishes (DAG_add k x before after s) s' -> I (table s').
Proof.
  intros W HI F. destruct (String.eqb_spec k "") as [->|Hk].
  { rewrite DAG_add_empty_key in F. rewrite (finishes_Throw _ _ _ _ eq_refl F).
    assumption. }
  unfold DAG_add in F. apply String.eqb_neq in Hk. rewrite Hk in F.
  apply String.eqb_neq in Hk.
  assert (Lb : forall v, safe_link v (fun w => addEdge v w))
    by (intros v s0 w W0 Hv0 Hw0; apply addEdge_finishes; assumption).
  assert (La : forall v, safe_link v (fun w => addEdge w v))
    by (intros v s0 w W0 Hv0 Hw0; apply addEdge_finishes; assumption).
  unfold bind at 1 in F.
  destruct (Vertices_add_spec s k W Hk)
    as (v & s1 & u & H1 & W1 & G1 & Hu & _ & Hcase).
  rewrite H1 in F.
  assert (HI1 : I (table s1)).
  { destruct Hcase as [[_ ->]|(Hnone & Hvl & ->)]; [assumption|].
    cbn [table with_table]. rewrite Hvl.
    apply (kept_snoc I K); [assumption|assumption|].
    apply (find_key_None k (table s) 0). assumption. }
  unfold bind at 1, modify at 1 in F.
  set (s2 := with_table (upd v (set_val x) (table s1)) s1) in *.
  assert (W2 : wf (table s2)) by (apply wf_set_val; assumption).
  assert (HI2 : I (table s2)).
  { apply (kept_skeleton I K (table s1)); [|assumption].
    symmetry. apply map_upd_absorb. intros []; reflexivity. }
  assert (Hv2 : v < List.length (table s2)).
  { cbn [s2 table with_table]. rewrite upd_length. apply nth_error_Some. congruence. }
  assert (Sb : exists s3, finishes
                 ((if truthy before
                   then add_edges (fun w => addEdge v w) (targets before)
                   else ret tt) s2) s3
               /\ wf (table s3) /\ I (table s3) /\ v < List.length (table s3)).
  { destruct (truthy before).
    - destruct (add_edges_finishes v _ (Lb v) (targets before) s2 W2 Hv2)
        as (s3 & F3 & W3 & G3).
      exists s3. split; [exact F3|]. split; [exact W3|]. split.
      + apply (add_edges_kept v _ (Lb v)) with (ks := targets before) (s := s2);
          try assumption.
        intros s0 w s0' W0 I0 Hv0 Hw0. apply addEdge_kept; assumption.
      + pose proof (grows_length _ _ G3). lia.
    - exists s2. split; [left; exists tt; reflexivity|]. auto. }
  destruct Sb as (s3 & F3 & W3 & HI3 & Hv3).
  unfold bind at 1 in F.
  destruct F3 as [[[] F3]|[msg F3]]; rewrite F3 in F.
  - destruct (truthy after).
    + apply (add_edges_kept v _ (La v)) with (ks := targets after) (s := s3);
        try assumption.
      intros s0 w s0' W0 I0 Hv0 Hw0. apply addEdge_kept; assumption.
    + rewrite (finishes_Ret _ tt s3 s' eq_refl F). assumption.
  - rewrite (finishes_Throw _ _ _ _ eq_refl F). assumption.
Qed.

Lemma run_kept os : forall s s',
  wf (table s) -> I (table s) -> run os s = Some s' -> I (table s').
Proof.
  induction os as [|o os IH]; intros s s' W HI H; simpl in H.
  - inversion H; subst. assumption.
  - destruct (step_wf o s W) as (s1 & H1 & W1). rewrite H1 in H.
    apply (IH s1 s' W1); [|assumption].
    destruct o as [k x before after|]; unfold step in H1.
    + apply (DAG_add_kept s k x before after); [assumption|assumption|].
      destruct (DAG_add k x before after s) as [[] t|m t| |]; inversion H1; subst;
        [left|right]; eauto.
    + unfold DAG_each in H1.
      destruct (walk_facts s W) as (out & t & Hw & Hc & _). rewrite Hw in H1.
      inversion H1; subst t. apply (kept_clean _ _ (eq_sym Hc) HI).
Qed.
End Kept.

(** ** Predecessor lists without repetition, exact [out] marks *)

Lemma incoming_inc t i v : nth_error t i = Some v -> incoming v = inc t i.
Proof. intros H. unfold inc. rewrite H. reflexivity. Qed.

Lemma add_edge_out t v w c u' :
  nth_error (add_edge v w t) c = Some u' ->
  exists u, nth_error t c = Some u
            /\ (out u = true -> out u' = true) /\ (c = v -> out u' = true).
Proof.
  unfold add_edge. rewrite !nth_error_upd. intros H.
  destruct (nth_error t c) as [u|].
  - exists u. split; [reflexivity|].
    destruct (Nat.eqb_spec v c) as [->|Hv], (Nat.eqb w c); simpl in H;
      inversion H; subst; simpl; split; auto; congruence.
  - destruct (Nat.eqb v c), (Nat.eqb w c); discriminate.
Qed.

Lemma tidy_empty : tidy (table empty).
Proof.
  constructor; simpl.
  - intros [|i] v H; discriminate.
  - intros x c v _ H. destruct c; discriminate.
Qed.

Lemma kept_tidy : kept tidy.
Proof.
  constructor.
  - intros t t' E [N O]. constructor.
    + intros i v' H. destruct (map_eq_nth _ _ _ _ _ (eq_sym E) H) as (v & Hv & Hs).
      apply skeleton_eq in Hs. destruct Hs as (_ & _ & _ & Hi).
      rewrite <- Hi. apply (N i v Hv).
    + intros x c v' He H. destruct (map_eq_nth _ _ _ _ _ (eq_sym E) H) as (v & Hv & Hs).
      apply skeleton_eq in Hs. destruct Hs as (_ & _ & Ho & _).
      rewrite <- Ho. apply (O x c v); [|assumption].
      unfold edge in *. rewrite (skeleton_inc _ _ x E). assumption.
  - intros t k W [N O] _. constructor.
    + intros i v H. apply nth_error_snoc in H.
      destruct H as [[_ H]|[_ ->]]; [apply (N i v H)|constructor].
    + intros x c v He H. unfold edge in He. rewrite inc_snoc in He.
      apply nth_error_snoc in H. destruct H as [[_ H]|[-> _]].
      * apply (O x c v He H).
      * pose proof (wf_closed _ W x _ He). lia.
  - intros t v w wv W [N O] Hv Hw Hnin _.
    assert (Hwl : w < List.length t) by (apply nth_error_Some; congruence).
    constructor.
    + intros i u' H. rewrite (incoming_inc _ _ _ H).
      unfold add_edge. rewrite inc_add_edge by assumption.
      destruct (Nat.eqb_spec i w) as [->|Hne].
      * rewrite <- (incoming_inc _ _ _ Hw). apply NoDup_app.
        -- apply (N w wv Hw).
        -- constructor; [intros []|constructor].
        -- intros a Ha [<-|[]]. contradiction.
      * destruct (add_edge_nth _ _ _ _ _ H) as (u & Hu & _).
        rewrite <- (incoming_inc _ _ _ Hu). apply (N i u Hu).
    + intros x c u' He H. apply add_edge_edge in He; [|assumption].
      destruct (add_edge_out _ _ _ _ _ H) as (u & Hu & Hmono & Hset).
      destruct He as [He|[_ ->]]; [|apply Hset; reflexivity].
      apply Hmono. apply (O x c u He Hu).
Qed.
Lemma find_key_snoc k t nv n :
  key nv = k -> find_key k t n = None ->
  find_key k (t ++ [nv]) n = Some (n + List.length t).
Proof.
  intros Hk. revert n. induction t as [|u t IH]; intros n H; simpl in *.
  - rewrite Hk, String.eqb_refl. f_equal. lia.
  - destruct (String.eqb (key u) k); [discriminate|].
    rewrite IH by assumption. f_equal. lia.
Qed.

(** ** Recording an edge that is already there *)

Lemma addEdge_returns s v w vv wv s' :
  wf (table s) ->
  nth_error (table s) v = Some vv -> nth_error (table s) w = Some wv ->
  addEdge v w s = Ret tt s' ->
  wf (table s') /\ edge (table s') w v
  /\ ((In v (incoming wv) /\ clean (table s') = clean (table s))
      \/ (~ In v (incoming wv)
          /\ clean (table s') = clean (add_edge v w (table s)))).
Proof.
  intros W Ev Ew H.
  assert (Hw : w < List.length (table s)) by (apply nth_error_Some; congruence).
  assert (Hv : v < List.length (table s)) by (apply nth_error_Some; congruence).
  destruct (addEdge_spec s v w vv wv W Ev Ew)
    as [(p & s0 & _ & H0 & _)|(Hn & s0 & H0 & Hcase)]; rewrite H0 in H;
    [discriminate|]. inversion H; subst s0.
  destruct Hcase as [[Hin Hc]|[Hnin Hc]].
  - split; [eapply wf_clean; [symmetry; exact Hc|exact W]|]. split; [|left; auto].
    apply (clean_edge (table s)); [symmetry; exact Hc|].
    unfold edge. rewrite <- (incoming_inc _ _ _ Ew). assumption.
  - split; [eapply wf_clean; [symmetry; exact Hc|apply wf_add_edge; assumption]|].
    split; [|right; auto].
    apply (clean_edge (add_edge v w (table s))); [symmetry; exact Hc|].
    apply add_edge_edge; auto.
Qed.

Lemma addEdge_present s v w :
  wf (table s) -> v < List.length (table s) -> edge (table s) w v ->
  exists s', addEdge v w s = Ret tt s' /\ clean (table s') = clean (table s).
Proof.
  intros W Hv He.
  pose proof (edge_lt _ _ _ He) as Hw.
  apply nth_error_Some in Hv, Hw.
  destruct (nth_error (table s) v) as [vv|] eqn:Ev; [|congruence].
  destruct (nth_error (table s) w) as [wv|] eqn:Ew; [|congruence].
  assert (Hin : In v (incoming wv)).
  { rewrite (incoming_inc _ _ _ Ew). exact He. }
  destruct (addEdge_spec s v w vv wv W Ev Ew)
    as [(p & s0 & Hp & _)|(_ & s0 & H0 & [[_ Hc]|[Hnin _]])].
  - exfalso. apply (wf_acyclic _ W v).
    eapply clos_rt_t; [apply (pred_path_reaches _ _ _ _ Hp)|apply t_step; exact He].
  - exists s0. auto.
  - contradiction.
Qed.

(** ** The edges a returning call records *)

Lemma grows_edge t t' x c : grows t t' -> edge t x c -> edge t' x c.
Proof.
  intros [A _] He. pose proof (edge_lt _ _ _ He) as Hx.
  apply nth_error_Some in Hx.
  destruct (nth_error t x) as [u|] eqn:Eu; [|congruence].
  destruct (A _ _ Eu) as (u' & Hu' & _ & _ & _ & extra & Hi).
  unfold edge in *. rewrite <- (incoming_inc _ _ _ Hu'), Hi.
  rewrite <- (incoming_inc _ _ _ Eu) in He. apply in_or_app. left. assumption.
Qed.

Lemma add_edges_links v link (R : list Vertex -> nat -> Prop) :
  safe_link v link ->
  (forall s w s', wf (table s) -> v < List.length (table s) ->
     w < List.length (table s) -> link w s = Ret tt s' -> R (table s') w) ->
  (forall t t' w, grows t t' -> R t w -> R t' w) ->
  forall ks s s', wf (table s) -> v < List.length (table s) ->
    add_edges link ks s = Ret tt s' ->
    forall k, In k ks ->
      exists i u, nth_error (table s') i = Some u /\ key u = k /\ R (table s') i.
Proof.
  intros Hl HR Hmono.
  induction ks as [|k0 ks IH]; intros s s' W Hv H k Hin; [destruct Hin|].
  cbn [add_edges] in H. unfold bind at 1 in H.
  destruct (String.eqb_spec k0 "") as [->|Hk0].
  { rewrite Vertices_add_empty in H. discriminate. }
  destruct (Vertices_add_spec s k0 W Hk0) as (i & s1 & u & H1 & W1 & G1 & Hu & Hku & _).
  rewrite H1 in H. unfold bind at 1 in H.
  pose proof (grows_length _ _ G1) as L1.
  assert (Hi : i < List.length (table s1)) by (apply nth_error_Some; congruence).
  destruct (Hl s1 i W1 ltac:(lia) Hi) as (s2 & [[[] F2]|[msg F2]] & W2 & G2 & L2);
    rewrite F2 in H; [|discriminate].
  destruct Hin as [<-|Hin].
  - pose proof (HR s1 i s2 W1 ltac:(lia) Hi F2) as R2.
    destruct (add_edges_finishes v link Hl ks s2 W2 ltac:(lia)) as (s3 & F3 & _ & G3).
    rewrite (finishes_Ret _ _ _ _ H F3) in G3.
    pose proof (Hmono _ _ _ G3 R2) as R3.
    destruct G2 as [A2 _]. destruct (A2 _ _ Hu) as (u2 & Hu2 & _ & K2 & _).
    destruct G3 as [A3 _]. destruct (A3 _ _ Hu2) as (u3 & Hu3 & _ & K3 & _).
    exists i, u3. split; [assumption|]. split; [congruence|assumption].
  - apply (IH s2 s' W2 ltac:(lia) H k Hin).
Qed.

Lemma addEdge_links s v w s' :
  wf (table s) -> v < List.length (table s) -> w < List.length (table s) ->
  addEdge v w s = Ret tt s' -> edge (table s') w v.
Proof.
  intros W Hv Hw H. apply nth_error_Some in Hv, Hw.
  destruct (nth_error (table s) v) as [vv|] eqn:Ev; [|congruence].
  destruct (nth_error (table s) w) as [wv|] eqn:Ew; [|congruence].
  apply (addEdge_returns s v w vv wv s' W Ev Ew H).
Qed.

(** After a call that returned, the vertex of the key is a predecessor of
    every [before] target, and every [after] target is a predecessor of
    the vertex of the key. *)
Lemma DAG_add_links s k x before after s' :
  wf (table s) -> DAG_add k x before after s = Ret tt s' ->
  wf (table s')
  /\ exists ik vk,
      nth_error (table s') ik = Some vk /\ key vk = k /\ val vk = x
      /\ (forall t, truthy before = true -> In t (targets before) ->
            exists it vt, nth_error (table s') it = Some vt /\ key vt = t
                          /\ edge (table s') it ik)
      /\ (forall t, truthy after = true -> In t (targets after) ->
            exists it vt, nth_error (table s') it = Some vt /\ key vt = t
                          /\ edge (table s') ik it).
Proof.
  intros W H.
  assert (Hk : k <> "").
  { intros ->. rewrite DAG_add_empty_key in H. discriminate. }
  destruct (DAG_add_spec s k x before after W Hk) as (s0 & F & W' & C).
  rewrite (finishes_Ret _ _ _ _ H F) in *. clear F s0.
  split; [assumption|].
  unfold DAG_add in H. apply String.eqb_neq in Hk. rewrite Hk in H.
  apply String.eqb_neq in Hk.
  destruct (Vertices_add_spec s k W Hk) as (v & s1 & u & H1 & W1 & G1 & Hu & Hku & _).
  unfold bind at 1 in H. rewrite H1 in H. unfold bind at 1, modify at 1 in H.
  set (s2 := with_table (upd v (set_val x) (table s1)) s1) in *.
  assert (W2 : wf (table s2)) by (apply wf_set_val; assumption).
  assert (Hv2 : v < List.length (table s2)).
  { cbn [s2 table with_table]. rewrite upd_length. apply nth_error_Some. congruence. }
  assert (Hu2 : exists u2, nth_error (table s2) v = Some u2 /\ key u2 = k).
  { exists (set_val x u). cbn [s2 table with_table].
    rewrite (nth_error_upd_eq _ _ _ _ Hu). split; [reflexivity|exact Hku]. }
  assert (Lb : safe_link v (fun w => addEdge v w))
    by (intros s0 w W0 Hv0 Hw0; apply addEdge_finishes; assumption).
  assert (La : safe_link v (fun w => addEdge w v))
    by (intros s0 w W0 Hv0 Hw0; apply addEdge_finishes; assumption).
  assert (Sb : exists s3,
             (if truthy before
              then add_edges (fun w => addEdge v w) (targets before)
              else ret tt) s2 = Ret tt s3
             /\ wf (table s3) /\ grows (table s2) (table s3)
             /\ (truthy before = true -> forall t, In t (targets before) ->
                   exists it vt, nth_error (table s3) it = Some vt /\ key vt = t
                                 /\ edge (table s3) it v)).
  { unfold bind at 1 in H. destruct (truthy before) eqn:Tb.
    - destruct (add_edges_finishes v _ Lb (targets before) s2 W2 Hv2)
        as (s3 & [[[] F3]|[msg F3]] & W3 & G3); rewrite F3 in H; [|discriminate].
      exists s3. split; [exact F3|]. split; [exact W3|]. split; [exact G3|].
      intros _ t Ht.
      apply (add_edges_links v _ (fun t0 w => edge t0 w v) Lb) with
        (ks := targets before) (s := s2) (k := t); try assumption.
      + intros s0 w s0' W0 Hv0 Hw0. apply addEdge_links; assumption.
      + intros t0 t0' w G. apply grows_edge. assumption.
    - exists s2. split; [reflexivity|]. split; [assumption|].
      split; [apply grows_refl|discriminate]. }
  destruct Sb as (s3 & F3 & W3 & G3 & E3).
  unfold bind at 1 in H. rewrite F3 in H.
  assert (Hv3 : v < List.length (table s3))
    by (pose proof (grows_length _ _ G3); lia).
  assert (Sa : grows (table s3) (table s')
               /\ (truthy after = true -> forall t, In t (targets after) ->
                     exists it vt, nth_error (table s') it = Some vt /\ key vt = t
                                   /\ edge (table s') v it)).
  { destruct (truthy after) eqn:Ta.
    - destruct (add_edges_finishes v _ La (targets after) s3 W3 Hv3)
        as (s4 & F4 & _ & G4).
      rewrite (finishes_Ret _ _ _ _ H F4) in G4. split; [exact G4|].
      intros _ t Ht.
      apply (add_edges_links v _ (fun t0 w => edge t0 v w) La) with
        (ks := targets after) (s := s3) (k := t); try assumption.
      + intros s0 w s0' W0 Hv0 Hw0. apply addEdge_links; assumption.
      + intros t0 t0' w G. apply grows_edge. assumption.
    - inversion H; subst s'. split; [apply grows_refl|discriminate]. }
  destruct Sa as (G4 & E4).
  destruct Hu2 as (u2 & Hu2 & Hk2).
  destruct G3 as [A3 B3]. destruct (A3 _ _ Hu2) as (u3 & Hu3 & _ & K3 & _).
  destruct G4 as [A4 B4]. destruct (A4 _ _ Hu3) as (u4 & Hu4 & _ & K4 & _).
  destruct C as (_ & _ & (j & uj & Huj & Hkj & Hxj)).
  assert (j = v) by (apply (wf_uniq _ W' _ _ _ _ Huj Hu4); congruence). subst j.
  exists v, u4. split; [assumption|]. split; [congruence|]. split; [congruence|].
  split.
  - intros t Tb Ht. destruct (E3 Tb t Ht) as (it & vt & Hvt & Hkt & He).
    destruct (A4 _ _ Hvt) as (vt' & Hvt' & _ & Kt & _).
    exists it, vt'. split; [assumption|]. split; [congruence|].
    apply (grows_edge (table s3)); [split; assumption|assumption].
  - intros t Ta Ht. apply (E4 Ta t Ht).
Qed.

(** ** What later calls keep *)

Lemma run_app os1 os2 s :
  run (os1 ++ os2) s
  = match run os1 s with Some s' => run os2 s' | None => None end.
Proof.
  revert s. induction os1 as [|o os1 IH]; intros s; simpl; [reflexivity|].
  destruct (step o s); [apply IH|reflexivity].
Qed.

Lemma step_changes o s s' :
  wf (table s) -> step o s = Some s' ->
  match o with
  | Add k x _ _ =>
      (k = "" /\ s' = s) \/ (k <> "" /\ changes k x (table s) (table s'))
  | Each => clean (table s') = clean (table s)
  end.
Proof.
  intros W H. destruct o as [k x before after|]; unfold step in H.
  - destruct (String.eqb_spec k "") as [->|Hk].
    + rewrite DAG_add_empty_key in H. inversion H. auto.
    + right. split; [assumption|].
      destruct (DAG_add_spec s k x before after W Hk) as (s0 & F & _ & C).
      destruct F as [[[] F]|[m F]]; rewrite F in H; inversion H; subst; assumption.
  - unfold DAG_each in H. destruct (walk_facts s W) as (out & t & Hw & Hc & _).
    rewrite Hw in H. inversion H; subst. assumption.
Qed.

Lemma persists_refl t : persists t t.
Proof.
  intros i v H. exists v. repeat split; auto. exists []. rewrite app_nil_r. reflexivity.
Qed.

Lemma persists_trans t1 t2 t3 : persists t1 t2 -> persists t2 t3 -> persists t1 t3.
Proof.
  intros P1 P2 i v H.
  destruct (P1 _ _ H) as (v1 & H1 & I1 & K1 & e1 & E1).
  destruct (P2 _ _ H1) as (v2 & H2 & I2 & K2 & e2 & E2).
  exists v2. split; [assumption|]. split; [congruence|]. split; [congruence|].
  exists (e1 ++ e2). rewrite E2, E1, app_assoc. reflexivity.
Qed.

Lemma step_persists o s s' :
  wf (table s) -> step o s = Some s' -> persists (table s) (table s').
Proof.
  intros W H. pose proof (step_changes o s s' W H) as C.
  destruct o as [k x before after|].
  - destruct C as [[_ ->]|[_ (A & _)]]; [apply persists_refl|].
    intros i v Hv. destruct (A _ _ Hv) as (v' & Hv' & I' & K' & _ & E').
    exists v'. auto.
  - intros i v Hv. destruct (clean_nth _ _ _ _ (eq_sym C) Hv) as (v' & Hv' & Hs).
    apply set_flag_false_eq in Hs. destruct Hs as (I' & K' & _ & _ & E').
    exists v'. split; [assumption|]. split; [assumption|]. split; [assumption|].
    exists []. rewrite app_nil_r. assumption.
Qed.

Lemma run_persists os : forall s s',
  wf (table s) -> run os s = Some s' -> persists (table s) (table s').
Proof.
  induction os as [|o os IH]; intros s s' W H; simpl in H.
  - inversion H. apply persists_refl.
  - destruct (step_wf o s W) as (s1 & H1 & W1). rewrite H1 in H.
    eapply persists_trans; [apply (step_persists o s s1 W H1)|apply (IH s1 s' W1 H)].
Qed.

Lemma run_keeps_value os : forall s s' i v,
  wf (table s) -> nth_error (table s) i = Some v ->
  (forall x before after, ~ In (Add (key v) x before after) os) ->
  run os s = Some s' ->
  exists v', nth_error (table s') i = Some v' /\ key v' = key v /\ val v' = val v.
Proof.
  induction os as [|o os IH]; intros s s' i v W Hv Hno H; simpl in H.
  - inversion H; subst. eauto.
  - destruct (step_wf o s W) as (s1 & H1 & W1). rewrite H1 in H.
    assert (S1 : exists v1, nth_error (table s1) i = Some v1
                            /\ key v1 = key v /\ val v1 = val v).
    { pose proof (step_changes o s s1 W H1) as C.
      destruct o as [k x before after|].
      - destruct C as [[_ ->]|[_ (A & _)]]; [eauto|].
        destruct (A _ _ Hv) as (v1 & Hv1 & _ & K1 & V1 & _).
        exists v1. split; [assumption|]. split; [assumption|].
        apply V1. intros Hk. apply (Hno x before after). left. congruence.
      - destruct (clean_nth _ _ _ _ (eq_sym C) Hv) as (v1 & Hv1 & Hs).
        apply set_flag_false_eq in Hs. destruct Hs as (_ & K1 & V1 & _).
        exists v1. auto. }
    destruct S1 as (v1 & Hv1 & K1 & V1).
    destruct (IH s1 s' i v1 W1 Hv1) as (v' & Hv' & K' & V'); [|assumption|].
    + intros x before after Hin. apply (Hno x before after). right. congruence.
    + exists v'. split; [assumption|]. split; congruence.
Qed.

(** ** Tables without edges *)

Lemma flat_nth t i v : flat t -> nth_error t i = Some v -> incoming v = [].
Proof.
  intros F H. unfold flat in F. rewrite Forall_forall in F.
  apply F. apply (nth_error_In _ _ H).
Qed.

Lemma flat_upd_val t i x : flat t -> flat (upd i (set_val x) t).
Proof.
  unfold flat. intros F. revert i. induction F as [|u t Hu F IH]; intros [|i]; simpl;
    constructor; auto.
Qed.

Lemma flat_clean t t' : clean t = clean t' -> flat t -> flat t'.
Proof.
  intros E F. unfold flat. apply Forall_forall. intros v' Hv'.
  destruct (In_nth_error _ _ Hv') as [i Hi].
  destruct (clean_nth _ _ _ _ (eq_sym E) Hi) as (v & Hv & Hs).
  apply set_flag_false_eq in Hs. destruct Hs as (_ & _ & _ & _ & Hin).
  rewrite <- Hin. apply (flat_nth t i v F Hv).
Qed.

Lemma plain_step_flat o s s' :
  wf (table s) -> plain o = true -> flat (table s) -> step o s = Some s' ->
  flat (table s').
Proof.
  intros W Hp F H. destruct o as [k x before after|]; unfold step in H.
  - simpl in Hp. apply andb_true_iff in Hp. destruct Hp as [Hb Ha].
    apply negb_true_iff in Hb, Ha.
    destruct (String.eqb_spec k "") as [->|Hk].
    { rewrite DAG_add_empty_key in H. inversion H; subst. assumption. }
    unfold DAG_add in H. apply String.eqb_neq in Hk. rewrite Hk, Hb, Ha in H.
    apply String.eqb_neq in Hk.
    destruct (Vertices_add_spec s k W Hk) as (v & s1 & u & H1 & _ & _ & _ & _ & Hcase).
    unfold bind at 1 in H. rewrite H1 in H. simpl in H. inversion H; subst s'.
    cbn [table with_table]. apply flat_upd_val.
    destruct Hcase as [[_ ->]|(_ & _ & ->)]; [assumption|].
    cbn [table with_table]. unfold flat. apply Forall_app. split; [exact F|].
    constructor; [reflexivity|constructor].
  - unfold DAG_each in H. destruct (walk_facts s W) as (out & t & Hw & Hc & _).
    rewrite Hw in H. inversion H; subst t. apply (flat_clean _ _ (eq_sym Hc) F).
Qed.

Lemma plain_run_flat os : forall s s',
  wf (table s) -> forallb plain os = true -> flat (table s) ->
  run os s = Some s' -> flat (table s').
Proof.
  induction os as [|o os IH]; intros s s' W Hp F H; simpl in H.
  - inversion H; subst. assumption.
  - simpl in Hp. apply andb_true_iff in Hp. destruct Hp as [Ho Hos].
    destruct (step_wf o s W) as (s1 & H1 & W1). rewrite H1 in H.
    apply (IH s1 s' W1 Hos); [|assumption].
    apply (plain_step_flat o s s1); assumption.
Qed.

Lemma roots_rec_flat g : wf g -> flat g ->
  forall positions d,
    clean (t_table d) = clean g -> NoDup positions ->
    (forall i, In i positions ->
       i < List.length g /\ flagged (t_table d) i = false) ->
    exists d', roots_rec positions d = Some d'
               /\ t_result d' = rev positions ++ t_result d.
Proof.
  intros W F. induction positions as [|i rest IH]; intros d Hc Hnd Hp.
  - exists d. split; reflexivity.
  - destruct (Hp i (or_introl eq_refl)) as [Hi Hfl].
    apply nth_error_Some in Hi.
    destruct (nth_error g i) as [u|] eqn:Eu; [clear Hi|congruence].
    destruct (clean_nth _ _ _ _ (eq_sym Hc) Eu) as (v & Ev & Hs).
    apply set_flag_false_eq in Hs. destruct Hs as (_ & Hk & _ & Ho & Hin).
    assert (Hout : out u = false).
    { destruct (out u) eqn:Eo; [|reflexivity].
      destruct (wf_out _ W _ _ Eu Eo) as [y Hy].
      pose proof (edge_lt _ _ _ Hy) as Hlt. apply nth_error_Some in Hlt.
      destruct (nth_error g y) as [uy|] eqn:Ey; [|congruence].
      unfold edge in Hy. rewrite <- (incoming_inc _ _ _ Ey), (flat_nth _ _ _ F Ey) in Hy.
      destruct Hy. }
    assert (Hfv : flag v = false) by (unfold flagged in Hfl; rewrite Ev in Hfl; exact Hfl).
    assert (Hkey : String.eqb "" (key v) = false).
    { apply String.eqb_neq. intros E. apply (wf_key _ W _ _ Eu). congruence. }
    assert (Hlen : exists n, List.length (t_table d) = S n).
    { assert (i < List.length (t_table d)) by (apply nth_error_Some; congruence).
      destruct (List.length (t_table d)); [lia|eauto]. }
    destruct Hlen as [n Hn].
    cbn [roots_rec]. rewrite Ev. rewrite Ho, Hout. rewrite Hn.
    cbn [visit_rec]. rewrite Ev, Hfv, Hkey, Hin, (flat_nth _ _ _ F Eu).
    cbn [visit_list].
    apply NoDup_cons_iff in Hnd. destruct Hnd as [Hni Hnd].
    destruct (IH (mkTrav (upd i (set_flag true) (t_table d)) (t_path d)
                         (i :: t_result d))) as (d' & Hd' & Hr').
    + cbn [t_table]. rewrite clean_upd_flag. assumption.
    + assumption.
    + intros j Hj. destruct (Hp j (or_intror Hj)) as [Hjl Hjf]. split; [assumption|].
      cbn [t_table]. rewrite flagged_upd_other; [assumption|].
      intros ->. contradiction.
    + exists d'. split; [exact Hd'|]. rewrite Hr'. cbn [t_result rev].
      rewrite <- app_assoc. reflexivity.
Qed.

Lemma walk_flat s : wf (table s) -> flat (table s) ->
  exists s', walk s = Ret (map kv (table s)) s'.
Proof.
  intros W F.
  destruct (walk_facts s W) as (out & s' & Hw & _ & Hrec & _).
  exists s'. rewrite Hw. f_equal.
  destruct (roots_rec_flat (table s) W F (seq 0 (List.length (table s)))
              (start_trav (table s))) as (d' & Hd & Hr).
  - apply clean_idem.
  - apply seq_NoDup.
  - intros i Hi. apply in_seq in Hi. split; [lia|].
    apply (flagged_clean (table s) i).
  - unfold walk_rec in Hrec. rewrite Hd in Hrec. inversion Hrec.
    rewrite Hr. cbn [start_trav t_result]. rewrite app_nil_r, rev_involutive.
    apply (map_entry_seq [] (table s)).
Qed.

(** ** Repeating a call *)

Lemma upd_same i f t v : nth_error t i = Some v -> f v = v -> upd i f t = t.
Proof.
  revert i. induction t as [|u t IH]; intros [|i] H Hf; simpl in *; try discriminate.
  - inversion H; subst. rewrite Hf. reflexivity.
  - rewrite (IH _ H Hf). reflexivity.
Qed.

Lemma with_table_same s : with_table (table s) s = s.
Proof. destruct s; reflexivity. Qed.

Lemma Vertices_add_stored s k i v :
  wf (table s) -> nth_error (table s) i = Some v -> key v = k ->
  Vertices_add k s = Ret i s.
Proof.
  intros W H Hk. unfold Vertices_add.
  assert (Hne : String.eqb k "" = false).
  { apply String.eqb_neq. rewrite <- Hk. apply (wf_key _ W _ _ H). }
  rewrite Hne, (find_key_wf k _ i v W H Hk). reflexivity.
Qed.

Lemma add_edges_again v link (R : list Vertex -> nat -> Prop) :
  (forall s w, wf (table s) -> v < List.length (table s) -> R (table s) w ->
     exists s', link w s = Ret tt s' /\ clean (table s') = clean (table s)) ->
  (forall t t' w, clean t = clean t' -> R t w -> R t' w) ->
  forall ks s, wf (table s) -> v < List.length (table s) ->
    (forall k, In k ks ->
       exists i u, nth_error (table s) i = Some u /\ key u = k /\ R (table s) i) ->
    exists s', add_edges link ks s = Ret tt s' /\ clean (table s') = clean (table s).
Proof.
  intros Hl Hc. induction ks as [|k ks IH]; intros s W Hv Ht.
  - exists s. split; reflexivity.
  - destruct (Ht k (or_introl eq_refl)) as (i & u & Hu & Hk & HR).
    destruct (Hl s i W Hv HR) as (s1 & H1 & C1).
    destruct (IH s1) as (s' & H' & C').
    + eapply wf_clean; [symmetry; exact C1|exact W].
    + rewrite <- (clean_length (table s1)), C1, clean_length. assumption.
    + intros k' Hk'. destruct (Ht k' (or_intror Hk')) as (i' & u' & Hu' & Hk'' & HR').
      destruct (clean_nth _ _ _ _ (eq_sym C1) Hu') as (u1 & Hu1 & Hs).
      apply set_flag_false_eq in Hs. destruct Hs as (_ & K1 & _).
      exists i', u1. split; [assumption|]. split; [congruence|].
      apply (Hc (table s)); [symmetry; exact C1|exact HR'].
    + exists s'. split; [|congruence].
      cbn [add_edges]. unfold bind at 1.
      rewrite (Vertices_add_stored s k i u W Hu Hk). unfold bind at 1.
      rewrite H1. exact H'.
Qed.

(** A call that returned, made again on the store it left, returns and
    changes no vertex, value or edge. *)
Lemma DAG_add_again s k x before after s1 :
  wf (table s) -> DAG_add k x before after s = Ret tt s1 ->
  exists s2, DAG_add k x before after s1 = Ret tt s2
             /\ clean (table s2) = clean (table s1).
Proof.
  intros W H.
  destruct (DAG_add_links s k x before after s1 W H)
    as (W1 & ik & vk & Hvk & Hkk & Hxk & Eb & Ea).
  assert (Hik : ik < List.length (table s1)) by (apply nth_error_Some; congruence).
  unfold DAG_add.
  assert (Hne : String.eqb k "" = false).
  { apply String.eqb_neq. rewrite <- Hkk. apply (wf_key _ W1 _ _ Hvk). }
  rewrite Hne. unfold bind at 1.
  rewrite (Vertices_add_stored s1 k ik vk W1 Hvk Hkk).
  unfold bind at 1, modify at 1.
  rewrite (upd_same ik (set_val x) (table s1) vk Hvk), with_table_same;
    [|rewrite <- Hxk; destruct vk; reflexivity].
  assert (Sb : exists s3,
             (if truthy before
              then add_edges (fun w => addEdge ik w) (targets before)
              else ret tt) s1 = Ret tt s3
             /\ clean (table s3) = clean (table s1)).
  { destruct (truthy before) eqn:Tb; [|exists s1; split; reflexivity].
    apply (add_edges_again ik _ (fun t w => edge t w ik)); try assumption.
    - intros s0 w W0 Hv0 He. apply addEdge_present; assumption.
    - intros t t' w E. apply clean_edge. assumption.
    - intros t Ht. apply Eb; [reflexivity|assumption]. }
  destruct Sb as (s3 & H3 & C3).
  unfold bind at 1. rewrite H3.
  assert (W3 : wf (table s3)) by (eapply wf_clean; [symmetry; exact C3|exact W1]).
  assert (Hik3 : ik < List.length (table s3))
    by (rewrite <- (clean_length (table s3)), C3, clean_length; assumption).
  destruct (truthy after) eqn:Ta; [|exists s3; split; [reflexivity|assumption]].
  destruct (add_edges_again ik (fun w => addEdge w ik) (fun t w => edge t ik w))
    with (ks := targets after) (s := s3) as (s2 & H2 & C2); try assumption.
  - intros s0 w W0 Hv0 He. apply addEdge_present; [assumption| |assumption].
    apply (wf_closed _ W0 ik). assumption.
  - intros t t' w E. apply clean_edge. assumption.
  - intros t Ht. destruct (Ea t eq_refl Ht) as (it & vt & Hvt & Hkt & He).
    destruct (clean_nth _ _ _ _ (eq_sym C3) Hvt) as (vt3 & Hvt3 & Hs).
    apply set_flag_false_eq in Hs. destruct Hs as (_ & K3 & _).
    exists it, vt3. split; [assumption|]. split; [congruence|].
    apply (clean_edge (table s1)); [symmetry; exact C3|exact He].
  - exists s2. split; [exact H2|congruence].
Qed.

(** ** The two loops over index lists *)

Lemma forallb_rev {A} (f : A -> bool) l : forallb f (rev l) = forallb f l.
Proof.
  induction l as [|a l IH]; [reflexivity|].
  cbn [rev forallb]. rewrite forallb_app, IH. cbn [forallb].
  rewrite andb_true_r. apply andb_comm.
Qed.

Lemma pushIncoming_from_fault l : forall s,
  forallb (fun c => (c <? List.length (table s))%nat) l = false ->
  pushIncoming_from l s = Fault.
Proof.
  induction l as [|c l IH]; intros s H; [discriminate|].
  cbn [forallb] in H. cbn [pushIncoming_from]. unfold bind at 1, vertex_at.
  destruct (nth_error (table s) c) as [v|] eqn:E; [|reflexivity].
  assert (Hc : c < List.length (table s)) by (apply nth_error_Some; congruence).
  apply Nat.ltb_lt in Hc. rewrite Hc in H. cbn [andb] in H.
  destruct (flag v); unfold bind, ret, modify; apply IH; exact H.
Qed.

Lemma each_from_spec slots s :
  if forallb (fun i => (0 <=? i)%Z && (Z.to_nat i <? List.length (table s))%nat) slots
  then each_from slots s = Ret (map (fun i => entry (table s) (Z.to_nat i)) slots) s
  else each_from slots s = Fault.
Proof.
  induction slots as [|i slots IH]; [reflexivity|].
  cbn [forallb map each_from]. unfold bind, vertex_at.
  destruct (Z.ltb_spec i 0) as [Hneg|Hpos].
  - destruct (Z.leb_spec 0 i); [lia|]. reflexivity.
  - destruct (Z.leb_spec 0 i); [|lia]. cbn [andb].
    unfold entry at 1.
    destruct (nth_error (table s) (Z.to_nat i)) as [v|] eqn:E.
    + assert (Hi : Z.to_nat i < List.length (table s)) by (apply nth_error_Some; congruence).
      apply Nat.ltb_lt in Hi. rewrite Hi. cbn [andb].
      destruct (forallb _ slots); rewrite IH; reflexivity.
    + apply nth_error_None in E. apply Nat.ltb_ge in E. rewrite E. reflexivity.
Qed.

(** ** Order along chains of constraints *)

Lemma split_unique {A B} (f : A -> B) (e : A) : forall a a' b b',
  NoDup (map f (a ++ e :: b)) -> a ++ e :: b = a' ++ e :: b' -> a = a' /\ b = b'.
Proof.
  induction a as [|x a IH]; intros [|x' a'] b b' Hnd E; cbn [app] in *.
  - inversion E. auto.
  - exfalso. inversion E; subst. cbn [map] in Hnd. inversion Hnd as [|? ? Hn _].
    apply Hn. apply in_map. apply in_or_app. right. left. reflexivity.
  - exfalso. inversion E; subst. cbn [map] in Hnd. inversion Hnd as [|? ? Hn _].
    apply Hn. apply in_map. apply in_or_app. right. left. reflexivity.
  - inversion E; subst. cbn [map] in Hnd. inversion Hnd as [|? ? _ Hnd'].
    destruct (IH a' b b' Hnd' H1) as [-> ->]. auto.
Qed.

Lemma before_trans {A B} (f : A -> B) (out : list A) ec ey ex :
  NoDup (map f out) ->
  (exists l1 l2 l3, out = l1 ++ ec :: l2 ++ ey :: l3) ->
  (exists l1 l2 l3, out = l1 ++ ey :: l2 ++ ex :: l3) ->
  exists l1 l2 l3, out = l1 ++ ec :: l2 ++ ex :: l3.
Proof.
  intros Hnd (l1 & l2 & l3 & E1) (m1 & m2 & m3 & E2).
  assert (E1' : out = (l1 ++ ec :: l2) ++ ey :: l3)
    by (rewrite E1, <- app_assoc; reflexivity).
  rewrite E1' in Hnd.
  destruct (split_unique f ey (l1 ++ ec :: l2) m1 l3 (m2 ++ ex :: m3) Hnd) as [Ha Hb].
  { rewrite <- E1'. exact E2. }
  exists l1, (l2 ++ ey :: m2), m3.
  rewrite E1', Hb, <- !app_assoc. reflexivity.
Qed.

Lemma walk_chain s out s' :
  wf (table s) -> walk s = Ret out s' ->
  forall x c, clos_trans nat (edge (table s)) x c ->
    exists l1 l2 l3, out = l1 ++ entry (table s) c :: l2 ++ entry (table s) x :: l3.
Proof.
  intros W Hw.
  destruct (walk_facts s W) as (out' & s'' & Hw' & _ & _ & _ & Hnd & Hedge).
  assert (out' = out) by congruence. subst out'.
  intros x c H. induction H as [x c He|x y c _ IH1 _ IH2].
  - apply Hedge. exact He.
  - apply (before_trans fst out _ (entry (table s) y) _ Hnd); assumption.
Qed.

(** ** A key among its own constraints *)

Lemma addEdge_self s v vv :
  nth_error (table s) v = Some vv ->
  addEdge v v s = Throw ("cycle detected: " ++ key vv ++ " <- " ++ key vv)%string s.
Proof.
  intros E. unfold addEdge, bind, vertex_at, check. rewrite E.
  unfold bind, vertex_at. rewrite E, String.eqb_refl. reflexivity.
Qed.

Lemma add_edges_self v k link :
  safe_link v link ->
  (forall s vv, nth_error (table s) v = Some vv -> exists msg s', link v s = Throw msg s') ->
  forall ks s vv, wf (table s) -> nth_error (table s) v = Some vv -> key vv = k ->
    In k ks -> exists msg s', add_edges link ks s = Throw msg s'.
Proof.
  intros Hl Hself. induction ks as [|k' ks IH]; intros s vv W Hv Hk Hin; [destruct Hin|].
  cbn [add_edges]. unfold bind at 1.
  destruct (String.eqb_spec k' "") as [->|Hk'].
  { rewrite Vertices_add_empty. eauto. }
  destruct (Vertices_add_spec s k' W Hk') as (i & s1 & u & H1 & W1 & G1 & Hu & Hku & _).
  rewrite H1. unfold bind at 1.
  destruct (proj1 G1 _ _ Hv) as (vv1 & Hv1 & _ & Hk1 & _).
  assert (Hvl : v < List.length (table s1)) by (apply nth_error_Some; congruence).
  assert (Hil : i < List.length (table s1)) by (apply nth_error_Some; congruence).
  destruct Hin as [->|Hin].
  - assert (i = v) by (apply (wf_uniq _ W1 _ _ _ _ Hu Hv1); congruence). subst i.
    destruct (Hself s1 vv1 Hv1) as (msg & s' & ->). eauto.
  - destruct (Hl s1 i W1 Hvl Hil) as (s2 & [[[] F2]|[msg F2]] & W2 & G2 & L2); rewrite F2.
    + destruct (proj1 G2 _ _ Hv1) as (vv2 & Hv2 & _ & Hk2 & _).
      apply (IH s2 vv2); [assumption|assumption|congruence|assumption].
    + eauto.
Qed.

Lemma DAG_add_self s k x before after :
  wf (table s) -> k <> "" ->
  (truthy before = true /\ In k (targets before))
  \/ (truthy after = true /\ In k (targets after)) ->
  exists msg s', DAG_add k x before after s = Throw msg s'.
Proof.
  intros W Hk Hor. unfold DAG_add.
  apply String.eqb_neq in Hk. rewrite Hk. apply String.eqb_neq in Hk.
  destruct (Vertices_add_spec s k W Hk) as (v & s1 & u & H1 & W1 & G1 & Hu & Hku & _).
  unfold bind at 1. rewrite H1. unfold bind at 1, modify at 1.
  set (s2 := with_table (upd v (set_val x) (table s1)) s1).
  assert (W2 : wf (table s2)) by (apply wf_set_val; assumption).
  assert (Hu2 : nth_error (table s2) v = Some (set_val x u)).
  { cbn [s2 table with_table]. apply nth_error_upd_eq. assumption. }
  assert (Hv2 : v < List.length (table s2)) by (apply nth_error_Some; congruence).
  assert (Lb : safe_link v (fun w => addEdge v w)).
  { intros s0 w W0 Hv0 Hw0. apply addEdge_finishes; assumption. }
  assert (La : safe_link v (fun w => addEdge w v)).
  { intros s0 w W0 Hv0 Hw0. apply addEdge_finishes; assumption. }
  assert (Self : forall s0 vv, nth_error (table s0) v = Some vv ->
                   exists msg s', addEdge v v s0 = Throw msg s').
  { intros s0 vv E. rewrite (addEdge_self s0 v vv E). eauto. }
  unfold bind at 1.
  destruct (truthy before) eqn:Tb.
  - destruct (in_dec string_dec k (targets before)) as [Hin|Hnin].
    + destruct (add_edges_self v k _ Lb Self (targets before) s2 _ W2 Hu2 Hku Hin)
        as (msg & s' & ->). eauto.
    + destruct Hor as [[_ Hin]|[Ta Hin]]; [contradiction|].
      destruct (add_edges_finishes v _ Lb (targets before) s2 W2 Hv2)
        as (s3 & [[[] F3]|[msg F3]] & W3 & G3); rewrite F3; [|eauto].
      destruct (proj1 G3 _ _ Hu2) as (vv3 & Hv3 & _ & Hk3 & _).
      rewrite Ta.
      apply (add_edges_self v k _ La Self (targets after) s3 vv3);
        [assumption|assumption|simpl in Hk3; congruence|assumption].
  - destruct Hor as [[Hf _]|[Ta Hin]]; [discriminate|].
    unfold ret at 1. rewrite Ta.
    apply (add_edges_self v k _ La Self (targets after) s2 (set_val x u));
      [assumption|assumption|exact Hku|assumption].
Qed.

(** ** What one visit marks *)

Lemma visit_list_within g visit1 :
  (forall x d b d', clean (t_table d) = clean g -> visit1 x d = Some (b, d') ->
     forall i, flagged (t_table d') i = true ->
       flagged (t_table d) i = true \/ reaches g x i) ->
  framed visit1 ->
  forall cs d b d', clean (t_table d) = clean g ->
    visit_list visit1 cs d = Some (b, d') ->
    forall i, flagged (t_table d') i = true ->
      flagged (t_table d) i = true \/ exists c, In c cs /\ reaches g c i.
Proof.
  intros H1 Hf. induction cs as [|c cs IH]; intros d b d' Hc H i Hi; simpl in H.
  - inversion H; subst. left. assumption.
  - destruct (visit1 c d) as [[[] d1]|] eqn:E; try discriminate.
    + inversion H; subst.
      destruct (H1 _ _ _ _ Hc E i Hi) as [F|R]; [left; assumption|].
      right. exists c. split; [left; reflexivity|assumption].
    + destruct (Hf _ _ _ _ E) as [[Fc _] _].
      destruct (IH d1 b d' ltac:(congruence) H i Hi) as [F|(c' & Hc' & R)].
      * destruct (H1 _ _ _ _ Hc E i F) as [F0|R]; [left; assumption|].
        right. exists c. split; [left; reflexivity|assumption].
      * right. exists c'. split; [right; assumption|assumption].
Qed.

(** A visit marks nothing but vertices reachable from its start. *)
Lemma visit_rec_within g search depth : forall x d b d',
  clean (t_table d) = clean g ->
  visit_rec depth search x d = Some (b, d') ->
  forall i, flagged (t_table d') i = true ->
    flagged (t_table d) i = true \/ reaches g x i.
Proof.
  induction depth as [|depth IH]; intros x d b d' Hc H i Hi; simpl in H;
    destruct (nth_error (t_table d) x) as [v|] eqn:E; try discriminate;
    destruct (flag v) eqn:Ef; try discriminate;
    try (inversion H; subst; left; assumption).
  set (d1 := mkTrav (upd x (set_flag true) (t_table d)) (x :: t_path d) (t_result d)) in *.
  assert (Hd1 : forall j, flagged (t_table d1) j = true ->
                  flagged (t_table d) j = true \/ reaches g x j).
  { intros j Hj. apply (flagged_upd_iff _ _ _ j E) in Hj.
    destruct Hj as [->|Hj]; [right; apply rt_refl|left; assumption]. }
  assert (Hc1 : clean (t_table d1) = clean g)
    by (cbn [d1 t_table]; rewrite clean_upd_flag; assumption).
  assert (Hl : forall b2 d2,
             visit_list (visit_rec depth search) (incoming v) d1 = Some (b2, d2) ->
             flagged (t_table d2) i = true ->
             flagged (t_table d) i = true \/ reaches g x i).
  { intros b2 d2 EL Fi.
    destruct (visit_list_within g _ IH (visit_rec_framed depth search)
                (incoming v) d1 b2 d2 Hc1 EL i Fi) as [F|(c & Hin & R)].
    - apply Hd1. assumption.
    - right. eapply rt_trans; [apply rt_step|exact R].
      unfold edge. rewrite <- (clean_inc _ _ x Hc). unfold inc. rewrite E. assumption. }
  destruct (String.eqb search (key v)).
  - inversion H; subst. apply Hd1. assumption.
  - destruct (visit_list (visit_rec depth search) (incoming v) d1)
      as [[[] d2]|] eqn:EL; try discriminate; inversion H; subst;
      apply (Hl _ _ eq_refl); assumption.
Qed.

(** A visit from a clean state, for a search key that no vertex has. *)
Lemma visit_marks s start search :
  wf (table s) -> start < List.length (table s) ->
  (forall i v, nth_error (table s) i = Some v -> key v <> search) ->
  exists s' r,
    (reset ;;; visit start search) s = Ret tt s'
    /\ stack s' = [] /\ path s' = [] /\ result s' = map Z.of_nat r
    /\ clean (table s') = clean (table s)
    /\ NoDup r
    /\ (forall i, In i r <-> reaches (table s) start i)
    /\ (forall i, flagged (table s') i = true <-> reaches (table s) start i).
Proof.
  intros W Hx Hk. set (g := table s) in *. set (d0 := start_trav g).
  assert (Hc0 : clean (t_table d0) = clean g) by apply clean_idem.
  assert (Hcl : closed (t_table d0)).
  { eapply clean_closed; [symmetry; exact Hc0|apply (wf_closed _ W)]. }
  assert (Hl0 : List.length (t_table d0) = List.length g) by apply length_map.
  destruct (visit_rec_total (List.length (t_table d0)) search start d0 Hcl
              ltac:(lia) (pending_le_length _)) as (b & d' & E & _).
  assert (Hb : b = false).
  { destruct b; [|reflexivity].
    destruct (visit_rec_sound g search (List.length (t_table d0)) start d0 d' Hc0 E) as (p & z & vz & _ & _ & Hz & Hv).
    exfalso. apply (Hk _ _ Hz). congruence. }
  subst b.
  pose proof Hx as Hx'. apply nth_error_Some in Hx'.
  destruct (nth_error g start) as [v|] eqn:Ev; [clear Hx'|congruence].
  assert (Ev0 : nth_error (t_table d0) start = Some (set_flag false v)).
  { cbn [d0 start_trav t_table]. rewrite nth_error_map, Ev. reflexivity. }
  assert (Ei : idx (set_flag false v) = start) by (apply (wf_idx _ W _ _ Ev)).
  destruct (visit_sim search start d0 _ false d' Hcl Ev0 Ei E) as (junk & Hv & Hj).
  rewrite (Hj eq_refl) in Hv. clear Hj junk.
  destruct (visit_rec_good g search (wf_acyclic _ W) (List.length (t_table d0))
              start d0 d' (Inv_start g search))
    as [(Hc & Hfl & Hnd & Hord & _) Fs]; [intros a []|exact E|].
  destruct (visit_rec_framed _ _ _ _ _ _ E) as [_ P].
  destruct (P eq_refl) as [Hp _]. cbn [d0 start_trav t_path] in Hp.
  rewrite Hp in Hfl, Hnd. cbn [app] in Hfl, Hnd.
  assert (Hr : forall i, In i (t_result d') <-> reaches g start i).
  { intros i. split.
    - intros Hi. apply Hfl in Hi.
      destruct (visit_rec_within g search (List.length (t_table d0)) start d0 false d'
                  Hc0 E i Hi) as [F|R];
        [|assumption].
      cbn [d0 start_trav t_table] in F.
      change (map (set_flag false) g) with (clean g) in F.
      rewrite flagged_clean in F. discriminate.
    - intros R. apply (ordered_reaches g _ start); [assumption| |assumption].
      apply Hfl. assumption. }
  exists (conc [] d'), (t_result d').
  split; [exact Hv|]. split; [reflexivity|]. split; [cbn [conc path]; rewrite Hp; reflexivity|].
  split; [reflexivity|]. split; [exact Hc|]. split; [exact Hnd|]. split; [exact Hr|].
  intros i. cbn [conc table]. rewrite Hfl. apply Hr.
Qed.

(** ** Naming a key that is not stored *)









(** ** The errors of [add] *)

Lemma addEdge_throw_msg s v w msg s' :
  wf (table s) -> v < List.length (table s) -> w < List.length (table s) ->
  addEdge v w s = Throw msg s' -> exists wk chain, msg = cycle_message wk chain.
Proof.
  intros W Hv Hw H. apply nth_error_Some in Hv, Hw.
  destruct (nth_error (table s) v) as [vv|] eqn:Ev; [|congruence].
  destruct (nth_error (table s) w) as [wv|] eqn:Ew; [|congruence].
  destruct (addEdge_spec s v w vv wv W Ev Ew)
    as [(p & s0 & _ & H0 & _)|(_ & s0 & H0 & _)]; rewrite H0 in H.
  - inversion H; subst. eauto.
  - discriminate.
Qed.

Lemma add_edges_throw_msg v link :
  safe_link v link ->
  (forall s w msg s', wf (table s) -> v < List.length (table s) ->
     w < List.length (table s) -> link w s = Throw msg s' ->
     exists wk chain, msg = cycle_message wk chain) ->
  forall ks s msg s', wf (table s) -> v < List.length (table s) ->
    add_edges link ks s = Throw msg s' ->
    msg = "missing key" \/ exists wk chain, msg = cycle_message wk chain.
Proof.
  intros Hl Hm. induction ks as [|k0 ks IH]; intros s msg s' W Hv H; [discriminate|].
  cbn [add_edges] in H. unfold bind at 1 in H.
  destruct (String.eqb_spec k0 "") as [->|Hk0].
  { rewrite Vertices_add_empty in H. inversion H. left. reflexivity. }
  destruct (Vertices_add_spec s k0 W Hk0) as (i & s1 & u & H1 & W1 & G1 & Hu & Hku & _).
  rewrite H1 in H. unfold bind at 1 in H.
  pose proof (grows_length _ _ G1) as L1.
  assert (Hi : i < List.length (table s1)) by (apply nth_error_Some; congruence).
  destruct (Hl s1 i W1 ltac:(lia) Hi) as (s2 & [[[] F2]|[m F2]] & W2 & G2 & L2).
  - rewrite F2 in H. apply (IH s2 msg s' W2 ltac:(lia) H).
  - right. rewrite F2 in H. inversion H; subst.
    apply (Hm s1 i msg s' W1 ltac:(lia) Hi F2).
Qed.

(** Every error of [add] is the key check's, the key resolver's, or a
    cycle error. *)
Lemma DAG_add_throw_msg s k x before after msg s' :
  wf (table s) -> DAG_add k x before after s = Throw msg s' ->
  (k = "" /\ msg = "argument `key` is required")
  \/ (k <> ""
      /\ (msg = "missing key" \/ exists wk chain, msg = cycle_message wk chain)).
Proof.
  intros W H.
  destruct (String.eqb_spec k "") as [->|Hk].
  { rewrite DAG_add_empty_key in H. inversion H. left. split; reflexivity. }
  right. split; [exact Hk|]. unfold DAG_add in H.
  apply String.eqb_neq in Hk. rewrite Hk in H. apply String.eqb_neq in Hk.
  destruct (Vertices_add_spec s k W Hk) as (v & s1 & u & H1 & W1 & G1 & Hu & Hku & _).
  unfold bind at 1 in H. rewrite H1 in H. unfold bind at 1, modify at 1 in H.
  set (s2 := with_table (upd v (set_val x) (table s1)) s1) in *.
  assert (W2 : wf (table s2)) by (apply wf_set_val; assumption).
  assert (Hv2 : v < List.length (table s2)).
  { cbn [s2 table with_table]. rewrite upd_length. apply nth_error_Some. congruence. }
  assert (Lb : safe_link v (fun w => addEdge v w))
    by (intros s0 w W0 Hv0 Hw0; apply addEdge_finishes; assumption).
  assert (La : safe_link v (fun w => addEdge w v))
    by (intros s0 w W0 Hv0 Hw0; apply addEdge_finishes; assumption).
  assert (Mb : forall s0 w m s0', wf (table s0) -> v < List.length (table s0) ->
                 w < List.length (table s0) -> addEdge v w s0 = Throw m s0' ->
                 exists wk chain, m = cycle_message wk chain)
    by (intros s0 w m s0' W0 Hv0 Hw0; apply addEdge_throw_msg; assumption).
  assert (Ma : forall s0 w m s0', wf (table s0) -> v < List.length (table s0) ->
                 w < List.length (table s0) -> addEdge w v s0 = Throw m s0' ->
                 exists wk chain, m = cycle_message wk chain)
    by (intros s0 w m s0' W0 Hv0 Hw0; apply addEdge_throw_msg; assumption).
  unfold bind at 1 in H.
  destruct (truthy before) eqn:Tb.
  - destruct (add_edges_finishes v _ Lb (targets before) s2 W2 Hv2)
      as (s3 & [[[] F3]|[m F3]] & W3 & G3); rewrite F3 in H.
    + assert (Hv3 : v < List.length (table s3))
        by (pose proof (grows_length _ _ G3); lia).
      destruct (truthy after); [|discriminate].
      apply (add_edges_throw_msg v _ La Ma _ _ _ _ W3 Hv3 H).
    + inversion H; subst.
      apply (add_edges_throw_msg v _ Lb Mb _ _ _ _ W2 Hv2 F3).
  - unfold ret at 1 in H. destruct (truthy after); [|discriminate].
    apply (add_edges_throw_msg v _ La Ma _ _ _ _ W2 Hv2 H).
Qed.

(** ** Entries with the same key *)

Lemma NoDup_fst_functional {A B} (l : list (A * B)) a b b' :
  NoDup (map fst l) -> In (a, b) l -> In (a, b') l -> b = b'.
Proof.
  induction l as [|[a0 b0] l IH]; intros Hnd H1 H2; [destruct H1|].
  cbn [map fst] in Hnd. inversion Hnd as [|? ? Hn Hnd']; subst.
  destruct H1 as [E1|H1], H2 as [E2|H2].
  - congruence.
  - inversion E1; subst. exfalso. apply Hn.
    change a with (fst (a, b')). apply in_map. assumption.
  - inversion E2; subst. exfalso. apply Hn.
    change a with (fst (a, b)). apply in_map. assumption.
  - apply IH; assumption.
Qed.

(** ** A new target after accepted ones *)








(** * Sample runs *)

Example sample_order :
  emitted sample = Some [("a", number 1); ("b", number 2)].
Proof. vm_compute. reflexivity. Qed.

Example sample_reordered :
  emitted (sample ++ [Add "c" (number 3) (one "a") omitted])
  = Some [("c", number 3); ("a", number 1); ("b", number 2)].
Proof. vm_compute. reflexivity. Qed.

Example sample_cycle :
  rejected (sample ++ [Add "c" (number 3) (one "a") omitted;
                       Add "d" (number 4) (one "b") (one "a")])
           "e" (number 5) (one "d") (one "b")
  = Some "cycle detected: e <- b <- d <- e".
Proof. vm_compute. reflexivity. Qed.

Example sample_deep_cycle :
  rejected [Add "b" undefined omitted (one "a");
            Add "c" undefined omitted (one "b");
            Add "d" undefined omitted (one "c")]
           "a" undefined omitted (one "d")
  = Some "cycle detected: a <- d <- c <- b <- a".
Proof. vm_compute. reflexivity. Qed.

Example sample_self_loop :
  rejected [] "a" (number 1) (one "a") omitted = Some "cycle detected: a <- a"
  /\ rejected [] "a" (number 1) omitted (one "a") = Some "cycle detected: a <- a".
Proof. split; vm_compute; reflexivity. Qed.

Example sample_forward_reference :
  emitted [Add "b" (number 2) omitted (one "a")]
  = Some [("a", undefined); ("b", number 2)].
Proof. vm_compute. reflexivity. Qed.

Example sample_ties :
  emitted [Add "x" (number 1) omitted (many ["q"; "p"]);
           Add "y" (number 2) omitted omitted;
           Add "z" (number 3) (one "y") omitted]
  = Some [("q", undefined); ("p", undefined); ("x", number 1);
          ("z", number 3); ("y", number 2)].
Proof. vm_compute. reflexivity. Qed.

Example sample_empty_target :
  rejected [] "a" (number 1) (many [""]) omitted = Some "missing key"
  /\ rejected [] "a" (number 1) (many ["a"; ""]) omitted
     = Some "cycle detected: a <- a"
  /\ rejected [] "a" (number 1) (one "") (one "") = None.
Proof. repeat split; vm_compute; reflexivity. Qed.

(** * The properties of the specification *)

(** C1 (topological validity).  After any sequence of calls the store is
    traversed successfully, no key is emitted twice, and for every
    recorded edge -- [p] is listed among the predecessors of the vertex
    at [x] -- the entry of [p] is emitted strictly before the entry of
    [x]. *)
Theorem walk_respects_edges :
  forall os, exists s,
    run os empty = Some s
    /\ exists out s',
        DAG_each s = Ret out s'
        /\ NoDup (map fst out)
        /\ forall x vx p,
            nth_error (table s) x = Some vx -> In p (incoming vx) ->
            exists vp l1 l2 l3,
              nth_error (table s) p = Some vp
              /\ out = l1 ++ (key vp, val vp) :: l2 ++ (key vx, val vx) :: l3.
Proof.
  intros os. destruct (run_wf os empty wf_empty) as (s & Hs & W).
  exists s. split; [assumption|].
  destruct (walk_facts s W) as (out & s' & Hw & _ & _ & _ & Hnd & Hedge).
  exists out, s'. split; [exact Hw|]. split; [exact Hnd|].
  intros x vx p Hx Hp.
  assert (He : edge (table s) x p) by (unfold edge, inc; rewrite Hx; exact Hp).
  assert (Hlt : p < List.length (table s)) by (apply (wf_closed _ W x); exact He).
  apply nth_error_Some in Hlt.
  destruct (nth_error (table s) p) as [vp|] eqn:Ep; [|congruence].
  destruct (Hedge x p He) as (l1 & l2 & l3 & Ho).
  exists vp, l1, l2, l3. split; [reflexivity|].
  unfold entry in Ho. rewrite Hx, Ep in Ho. exact Ho.
Qed.

(** C2 (acyclicity).  After any sequence of calls the recorded
    predecessor relation has no cycle; and an edge from [v] to [w] that
    would close one -- [w] is reachable from [v] along recorded edges --
    is rejected with a cycle error, the table being left as it was (up to
    the traversal flags). *)
Theorem store_is_always_acyclic :
  forall os, exists s,
    run os empty = Some s
    /\ acyclic (table s)
    /\ forall v w vv wv,
        nth_error (table s) v = Some vv -> nth_error (table s) w = Some wv ->
        reaches (table s) v w ->
        exists rest s',
          addEdge v w s = Throw ("cycle detected: " ++ rest)%string s'
          /\ clean (table s') = clean (table s).
Proof.
  intros os. destruct (run_wf os empty wf_empty) as (s & Hs & W).
  exists s. split; [assumption|]. split; [apply wf_acyclic; assumption|].
  intros v w vv wv Hv Hw Hr.
  destruct (addEdge_spec s v w vv wv W Hv Hw) as [(p & s' & _ & H & Hc)|[Hn _]];
    [|contradiction].
  exists (key wv ++ arrows (keys_of (table s) p))%string, s'.
  split; [exact H|exact Hc].
Qed.



(** C4 (determinism).  After any sequence of calls the traversal yields
    an order [out] such that: traversing again yields [out] again; any
    other instance that received the same calls of [add] in the same
    order, with calls of [each] anywhere in between, yields [out] as
    well; and [out] is the post-order of the recursive depth-first visit
    that takes the roots in insertion order and the predecessors of each
    vertex in listed order. *)
Theorem walk_order_is_deterministic :
  forall os, exists s out s',
    run os empty = Some s
    /\ DAG_each s = Ret out s'
    /\ DAG_each s' = Ret out s'
    /\ (forall os', adds_of os' = adds_of os ->
          exists t t', run os' empty = Some t /\ DAG_each t = Ret out t')
    /\ walk_rec (table s) = Some out.
Proof.
  intros os.
  destruct (run_adds_of os empty empty wf_empty eq_refl) as (s & s0 & Hs & Hs0 & E & W).
  destruct (walk_facts s W) as (out & s' & Hw & Hc & Hrec & _).
  exists s, out, s'. split; [assumption|]. split; [exact Hw|].
  split; [|split; [|exact Hrec]].
  - unfold DAG_each. rewrite (walk_same_store s' s Hc). exact Hw.
  - intros os' Hos.
    destruct (run_adds_of os' empty empty wf_empty eq_refl) as (t & t0 & Ht & Ht0 & E' & _).
    rewrite Hos, Hs0 in Ht0. inversion Ht0; subst t0.
    exists t, s'. split; [assumption|]. unfold DAG_each.
    rewrite (walk_same_store t s); [exact Hw|]. unfold same_store in *. congruence.
Qed.

(** C5 (completeness of the traversal).  After any sequence of calls the
    visitor is called exactly once per stored vertex: the emitted entries
    are a permutation of the stored ones and their keys are pairwise
    distinct.  Every vertex is reachable along predecessor edges from a
    vertex whose [out] mark is not set, which is why skipping the marked
    vertices as roots loses nothing. *)
Theorem walk_visits_each_vertex_once :
  forall os, exists s,
    run os empty = Some s
    /\ (exists out s',
          DAG_each s = Ret out s'
          /\ Permutation (map kv (table s)) out
          /\ NoDup (map fst out))
    /\ forall x vx,
        nth_error (table s) x = Some vx ->
        exists r vr,
          nth_error (table s) r = Some vr /\ out vr = false
          /\ reaches (table s) r x.
Proof.
  intros os. destruct (run_wf os empty wf_empty) as (s & Hs & W).
  exists s. split; [assumption|]. split.
  - destruct (walk_facts s W) as (out & s' & Hw & _ & _ & Hp & Hnd & _).
    exists out, s'. auto.
  - intros x vx Hx. apply root_exists; [assumption|].
    apply nth_error_Some. congruence.
Qed.

(** C6 (cycle errors).  On any reachable store, recording an edge from
    the vertex at [v] to the vertex at [w] throws exactly when the two
    keys are equal or [w] is reachable from [v] along recorded predecessor
    edges; the message is the successor's key followed by the keys of a
    chain of recorded edges that starts at [v] and ends at [w]. *)
Theorem addEdge_throws_iff_reachable :
  forall os, exists s,
    run os empty = Some s
    /\ forall v w vv wv,
        nth_error (table s) v = Some vv -> nth_error (table s) w = Some wv ->
        ((exists msg s', addEdge v w s = Throw msg s')
         <-> (key wv = key vv \/ clos_trans nat (edge (table s)) v w))
        /\ (forall msg s', addEdge v w s = Throw msg s' ->
              exists p, pred_path (table s) v p w
                        /\ msg = cycle_message (key wv) (keys_of (table s) p)).
Proof.
  intros os. destruct (run_wf os empty wf_empty) as (s & Hs & W).
  exists s. split; [assumption|].
  intros v w vv wv Hv Hw.
  destruct (addEdge_spec s v w vv wv W Hv Hw)
    as [(p & s' & Hp & H & _)|(Hn & s' & H & _)].
  - split.
    + split; [|eauto]. intros _.
      apply pred_path_reaches, reaches_cases in Hp.
      destruct Hp as [->|Hp]; [left; congruence|right; assumption].
    + intros msg s0 H0. rewrite H in H0. inversion H0. eauto.
  - split.
    + split.
      * intros (msg & s0 & H0). rewrite H in H0. discriminate.
      * intros Hc. exfalso. apply Hn. apply reaches_cases.
        destruct Hc as [Hk|Hc]; [left|right; assumption].
        apply (wf_uniq _ W _ _ _ _ Hv Hw). congruence.
    + intros msg s0 H0. rewrite H in H0. discriminate.
Qed.

(** C7 (idempotent key insertion).  After any sequence of calls, a call
    of [add] for a key that is already stored -- whether it returns or
    throws -- leaves the vertex at its position with its index and key,
    gives it the new value, keeps its predecessors (new ones can only be
    appended by the constraints of the call) and keeps every other
    vertex with its key and value.  Without constraints the call changes
    nothing but that value.  The key is emitted exactly once by a
    following traversal. *)
Theorem readd_updates_value_only :
  forall os, exists s,
    run os empty = Some s
    /\ forall i v x before after,
        nth_error (table s) i = Some v ->
        exists s' v',
          finishes (DAG_add (key v) x before after s) s'
          /\ nth_error (table s') i = Some v'
          /\ idx v' = idx v /\ idx v' = i /\ key v' = key v /\ val v' = x
          /\ (exists extra, incoming v' = incoming v ++ extra)
          /\ (forall j u, nth_error (table s) j = Some u -> j <> i ->
                exists u', nth_error (table s') j = Some u'
                           /\ idx u' = idx u /\ key u' = key u /\ val u' = val u)
          /\ (truthy before = false -> truthy after = false ->
                s' = with_table (upd i (set_val x) (table s)) s)
          /\ exists out s'',
               DAG_each s' = Ret out s''
               /\ count_occ string_dec (map fst out) (key v) = 1.
Proof.
  intros os. destruct (run_wf os empty wf_empty) as (s & Hs & W).
  exists s. split; [assumption|].
  intros i v x before after H.
  destruct (readd_spec s i v x before after W H)
    as (s' & v' & F & W' & C & H1 & H2 & H3 & H4 & H5).
  exists s', v'. split; [exact F|]. split; [exact H1|]. split; [exact H2|].
  split; [rewrite H2; apply (wf_idx _ W _ _ H)|]. split; [exact H3|].
  split; [exact H4|]. split; [exact H5|]. split; [|split].
  - intros j u Hu Hj. destruct C as (A & _).
    destruct (A _ _ Hu) as (u' & Hu' & I & K & V & _).
    exists u'. split; [assumption|]. split; [assumption|]. split; [assumption|].
    apply V. intros Hk. apply Hj. apply (wf_uniq _ W _ _ _ _ Hu H Hk).
  - intros Hb Ha. rewrite (readd_plain s i v x before after W H Hb Ha) in F.
    destruct F as [[[] F]|[msg F]]; inversion F. reflexivity.
  - destruct (walk_facts s' W') as (out & s'' & Hw & _ & _ & Hp & Hnd & _).
    exists out, s''. split; [exact Hw|].
    apply NoDup_count_occ'; [assumption|].
    apply in_map_iff. exists (kv v'). split; [simpl; assumption|].
    apply (Permutation_in _ Hp). apply in_map. apply (nth_error_In _ _ H1).
Qed.



(** C9 (re-adding without a value).  After any sequence of calls, a call
    of [add] for a stored key with the value omitted leaves that key with
    the value [undefined], whatever it held before; without constraints
    that is the only change.  In particular, once a call [add(k, x, ...)]
    has stored the payload [x] under [k] -- whether it returned or threw
    on a constraint -- a call [add(k)] leaves [k] without value, and a
    traversal then emits [k] with [undefined] and with nothing else. *)
Theorem readd_without_value_erases :
  forall os, exists s,
    run os empty = Some s
    /\ (forall i v before after,
          nth_error (table s) i = Some v ->
          exists s' v',
            finishes (DAG_add (key v) undefined before after s) s'
            /\ nth_error (table s') i = Some v' /\ key v' = key v
            /\ val v' = undefined
            /\ (truthy before = false -> truthy after = false ->
                  s' = with_table (upd i (set_val undefined) (table s)) s))
    /\ (forall k x before after,
          k <> "" ->
          exists s1 i v,
            finishes (DAG_add k x before after s) s1
            /\ nth_error (table s1) i = Some v /\ key v = k /\ val v = x
            /\ forall before' after',
                exists s2 v2,
                  finishes (DAG_add k undefined before' after' s1) s2
                  /\ nth_error (table s2) i = Some v2 /\ key v2 = k
                  /\ val v2 = undefined
                  /\ exists out s3,
                       DAG_each s2 = Ret out s3
                       /\ In (k, undefined) out
                       /\ forall y, In (k, y) out -> y = undefined).
Proof.
  intros os. destruct (run_wf os empty wf_empty) as (s & Hs & W).
  exists s. split; [assumption|]. split.
  - intros i v before after H.
    destruct (readd_spec s i v undefined before after W H)
      as (s' & v' & F & _ & _ & H1 & _ & H3 & H4 & _).
    exists s', v'. split; [exact F|]. split; [exact H1|]. split; [exact H3|].
    split; [exact H4|].
    intros Hb Ha. rewrite (readd_plain s i v undefined before after W H Hb Ha) in F.
    destruct F as [[[] F]|[msg F]]; inversion F. reflexivity.
  - intros k x before after Hk.
    destruct (DAG_add_spec s k x before after W Hk)
      as (s1 & F1 & W1 & (_ & _ & (i & v & Hv & Hkv & Hxv))).
    exists s1, i, v. split; [exact F1|]. split; [exact Hv|].
    split; [exact Hkv|]. split; [exact Hxv|].
    intros before' after'.
    destruct (readd_spec s1 i v undefined before' after' W1 Hv)
      as (s2 & v2 & F2 & W2 & _ & H1 & _ & H3 & H4 & _).
    rewrite Hkv in F2, H3.
    exists s2, v2. split; [exact F2|]. split; [exact H1|]. split; [exact H3|].
    split; [exact H4|].
    destruct (walk_facts s2 W2) as (out & s3 & Hw & _ & _ & Hp & Hnd & _).
    assert (Hin : In (k, undefined) out).
    { apply (Permutation_in _ Hp). rewrite <- H3, <- H4.
      change (key v2, val v2) with (kv v2). apply in_map.
      apply (nth_error_In _ _ H1). }
    exists out, s3. split; [exact Hw|]. split; [exact Hin|].
    intros y Hy. apply (NoDup_fst_functional out k y undefined Hnd Hy Hin).
Qed.

(** The statement of C9 at work on a store that holds a payload: after
    [add("a", 1)] the key [a] holds [number 1], and the call [add("a")]
    returns and leaves [undefined] in its place. *)
Lemma readd_without_value_erases_sample :
  exists s s',
    run [Add "a" (number 1) omitted omitted] empty = Some s
    /\ map kv (table s) = [("a", number 1)]
    /\ DAG_add "a" undefined omitted omitted s = Ret tt s'
    /\ map kv (table s') = [("a", undefined)].
Proof.
  destruct (readd_without_value_erases [Add "a" (number 1) omitted omitted])
    as (s & Hs & Hold & _).
  assert (Es : s = mkVertices [mkVertex 0 "a" (number 1) false false []] [] [] []).
  { vm_compute in Hs. inversion Hs. reflexivity. }
  destruct (Hold 0 (mkVertex 0 "a" (number 1) false false []) omitted omitted)
    as (s' & v' & F & _ & _ & _ & Hplain); [rewrite Es; reflexivity|].
  pose proof (Hplain eq_refl eq_refl) as Es'.
  exists s, s'.
  split; [exact Hs|]. split; [rewrite Es; reflexivity|].
  cbn [key] in F. split.
  - destruct F as [[[] F]|[msg F]]; [exact F|].
    exfalso. rewrite Es in F. vm_compute in F. discriminate.
  - rewrite Es', Es. reflexivity.
Defined.

(** C10 (empty constraint targets), as the code has it.  After any sequence of
    calls: an empty string passed directly as [before] or [after] is the
    same as omitting the argument; a call with an empty string inside a
    [before] or [after] array always throws; the error is the key
    resolver's [missing key] when the call gets as far as resolving that
    element -- the key is not empty and the targets before it were
    accepted; with an empty key, and only then, it is the key check's
    error; and with a non-empty key it is the resolver's error or a cycle
    error. *)
Theorem empty_target_direct_vs_in_array :
  forall os, exists s,
    run os empty = Some s
    /\ (forall k x c,
          DAG_add k x (one "") c s = DAG_add k x omitted c s
          /\ DAG_add k x c (one "") s = DAG_add k x c omitted s)
    /\ (forall k x ks c, In "" ks ->
          (exists msg s', DAG_add k x (many ks) c s = Throw msg s')
          /\ (exists msg s', DAG_add k x c (many ks) s = Throw msg s'))
    /\ (forall k x pre post c v s1 s3,
          k <> "" -> Vertices_add k s = Ret v s1 ->
          add_edges (fun w => addEdge v w) pre
            (with_table (upd v (set_val x) (table s1)) s1) = Ret tt s3 ->
          DAG_add k x (many (pre ++ "" :: post)) c s = Throw "missing key" s3)
    /\ (forall k x pre post c v s1 s3 s4,
          k <> "" -> Vertices_add k s = Ret v s1 ->
          (if truthy c then add_edges (fun w => addEdge v w) (targets c) else ret tt)
            (with_table (upd v (set_val x) (table s1)) s1) = Ret tt s3 ->
          add_edges (fun w => addEdge w v) pre s3 = Ret tt s4 ->
          DAG_add k x c (many (pre ++ "" :: post)) s = Throw "missing key" s4)
    /\ (forall x before after,
          DAG_add "" x before after s = Throw "argument `key` is required" s)
    /\ (forall k x before after msg s',
          DAG_add k x before after s = Throw msg s' ->
          (k = "" /\ msg = "argument `key` is required")
          \/ (k <> ""
              /\ (msg = "missing key"
                  \/ exists w chain, msg = cycle_message w chain))).
Proof.
  intros os. destruct (run_wf os empty wf_empty) as (s & Hs & W).
  exists s. split; [assumption|]. split; [|split; [|split; [|split; [|split]]]].
  - intros k x c. split; reflexivity.
  - intros k x ks c Hin. apply DAG_add_empty_target; assumption.
  - intros k x pre post c v s1 s3. apply DAG_add_missing_key_before.
  - intros k x pre post c v s1 s3 s4. apply DAG_add_missing_key_after.
  - intros x before after. reflexivity.
  - intros k x before after msg s'. apply DAG_add_throw_msg. exact W.
Qed.

(** C10, as the claim states it, fails: a call with an empty string inside
    an array does not always throw the error of the key resolver.  When
    an earlier element of the array is rejected, the error is the cycle
    error of that element; when the key of the call is empty, it is the
    error of the key check; and an empty string inside the [after] array
    is not even reached when [before] is rejected. *)
Lemma empty_target_error_is_not_always_the_resolvers :
  (exists s',
      DAG_add "a" (number 1) (many ["a"; ""]) omitted empty
      = Throw "cycle detected: a <- a" s')
  /\ DAG_add "" (number 1) (many [""]) omitted empty
     = Throw "argument `key` is required" empty
  /\ (exists s',
        DAG_add "a" (number 1) (one "a") (many [""]) empty
        = Throw "cycle detected: a <- a" s')
  /\ ~ (forall k x ks c, In "" ks ->
          exists s', DAG_add k x (many ks) c empty = Throw "missing key" s').
Proof.
  split; [|split; [|split]].
  - eexists. vm_compute. reflexivity.
  - reflexivity.
  - eexists. vm_compute. reflexivity.
  - intros H.
    destruct (H "" (number 1) [""] omitted (or_introl eq_refl)) as [s' Hs'].
    vm_compute in Hs'. discriminate.
Qed.

(** * Further properties of the code *)

(** X1 (resolving a key).  [Vertices.add] throws [missing key], leaving
    the store as it is, exactly when the key is empty.  Otherwise it
    returns a position holding the key, and the store is the old one or
    the old one with a fresh vertex -- index equal to the former length,
    no value, no mark, no predecessor -- appended; looking the key up
    again finds that position, and resolving it again returns the same
    position and changes nothing. *)
Theorem resolve_then_lookup :
  forall s k,
    match Vertices_add k s with
    | Ret i s' =>
        k <> ""
        /\ (exists v, nth_error (table s') i = Some v /\ key v = k)
        /\ find_key k (table s') 0 = Some i
        /\ Vertices_add k s' = Ret i s'
        /\ (s' = s
            \/ (i = List.length (table s)
                /\ s' = with_table
                          (table s ++ [mkVertex i k undefined false false []]) s))
    | Throw msg s' => k = "" /\ msg = "missing key" /\ s' = s
    | Fault => False
    | OutOfFuel => False
    end.
Proof.
  intros s k. unfold Vertices_add at 1.
  destruct (String.eqb_spec k "") as [->|Hk]; [auto|].
  assert (Hk' : String.eqb k "" = false) by (apply String.eqb_neq; assumption).
  destruct (find_key k (table s) 0) as [i|] eqn:E.
  - destruct (find_key_Some _ _ _ _ E) as (_ & v & Hv & Hkv).
    rewrite Nat.sub_0_r in Hv.
    split; [assumption|]. split; [eauto|]. split; [assumption|].
    split; [|left; reflexivity].
    unfold Vertices_add. rewrite Hk', E. reflexivity.
  - assert (F : find_key k (table s ++ [new_vertex (List.length (table s)) k]) 0
                = Some (List.length (table s))).
    { rewrite (find_key_snoc k (table s) (new_vertex (List.length (table s)) k)
                 0 eq_refl E). reflexivity. }
    split; [assumption|]. split; [|split; [exact F|split]].
    + exists (new_vertex (List.length (table s)) k). cbn [table with_table].
      rewrite nth_error_app2, Nat.sub_diag by lia. split; reflexivity.
    + unfold Vertices_add. rewrite Hk'. cbn [table with_table]. rewrite F.
      reflexivity.
    + right. split; reflexivity.
Qed.

(** X2 (keys and indices).  After any sequence of calls every stored
    vertex has its position as index and a non-empty key, looking its key
    up finds its position, and no two positions hold the same key. *)
Theorem keys_identify_positions :
  forall os, exists s,
    run os empty = Some s
    /\ (forall i v, nth_error (table s) i = Some v ->
          idx v = i /\ key v <> "" /\ find_key (key v) (table s) 0 = Some i)
    /\ (forall i j v u,
          nth_error (table s) i = Some v -> nth_error (table s) j = Some u ->
          key v = key u -> i = j).
Proof.
  intros os. destruct (run_wf os empty wf_empty) as (s & Hs & W).
  exists s. split; [assumption|]. split.
  - intros i v H. split; [apply (wf_idx _ W _ _ H)|].
    split; [apply (wf_key _ W _ _ H)|].
    apply (find_key_wf _ _ _ _ W H eq_refl).
  - apply (wf_uniq _ W).
Qed.

(** X3 (predecessor lists).  After any sequence of calls the
    predecessors recorded for a vertex are positions of the table, never
    the vertex itself, and none is recorded twice. *)
Theorem predecessor_lists_are_sets :
  forall os, exists s,
    run os empty = Some s
    /\ forall i v, nth_error (table s) i = Some v ->
         NoDup (incoming v)
         /\ ~ In i (incoming v)
         /\ forall c, In c (incoming v) -> c < List.length (table s).
Proof.
  intros os. destruct (run_wf os empty wf_empty) as (s & Hs & W).
  pose proof (run_kept tidy kept_tidy os empty s wf_empty tidy_empty Hs) as T.
  exists s. split; [assumption|].
  intros i v H. split; [apply (tidy_nodup _ T i v H)|]. split.
  - intros Hin. apply (wf_acyclic _ W i). apply t_step.
    unfold edge. rewrite <- (incoming_inc _ _ _ H). assumption.
  - intros c Hc. apply (wf_closed _ W i).
    unfold edge. rewrite <- (incoming_inc _ _ _ H). assumption.
Qed.

(** X4 (the [out] mark).  After any sequence of calls a vertex carries
    the [out] mark exactly when it is recorded as a predecessor of some
    vertex; so the roots of a traversal are exactly the vertices that
    precede nothing. *)
Theorem out_mark_is_exact :
  forall os, exists s,
    run os empty = Some s
    /\ forall i v, nth_error (table s) i = Some v ->
         (out v = true
          <-> exists y u, nth_error (table s) y = Some u /\ In i (incoming u)).
Proof.
  intros os. destruct (run_wf os empty wf_empty) as (s & Hs & W).
  pose proof (run_kept tidy kept_tidy os empty s wf_empty tidy_empty Hs) as T.
  exists s. split; [assumption|].
  intros i v H. split.
  - intros Ho. destruct (wf_out _ W _ _ H Ho) as [y Hy].
    pose proof (edge_lt _ _ _ Hy) as Hlt. apply nth_error_Some in Hlt.
    destruct (nth_error (table s) y) as [u|] eqn:Eu; [|congruence].
    exists y, u. split; [exact Eu|].
    rewrite (incoming_inc _ _ _ Eu). exact Hy.
  - intros (y & u & Hu & Hin). apply (tidy_out _ T y i v); [|assumption].
    unfold edge. rewrite <- (incoming_inc _ _ _ Hu). assumption.
Qed.

(** X5 ([each] is read-only).  After any sequence of calls a traversal
    returns and leaves every vertex with its index, key, value, mark and
    predecessors: only the traversal flags and the buffers change.  It
    ends with the work stack and the path empty, every flag set and one
    result entry per vertex. *)
Theorem each_is_read_only :
  forall os, exists s out s',
    run os empty = Some s
    /\ DAG_each s = Ret out s'
    /\ map (set_flag false) (table s') = map (set_flag false) (table s)
    /\ stack s' = [] /\ path s' = []
    /\ (forall v, In v (table s') -> flag v = true)
    /\ Permutation (result s') (map Z.of_nat (seq 0 (List.length (table s)))).
Proof.
  intros os. destruct (run_wf os empty wf_empty) as (s & Hs & W).
  destruct (walk_ok s W) as (d' & Hd & Hw & Hc & _ & Hperm).
  destruct (roots_rec_inv _ W _ _ _ (Inv_start (table s) "") eq_refl Hd)
    as ((_ & Hfl & _) & Hpath & _).
  exists s, (map (entry (table s)) (rev (t_result d'))), (conc [] d').
  split; [assumption|]. split; [exact Hw|]. split; [exact Hc|].
  split; [reflexivity|]. split; [cbn [path conc]; rewrite Hpath; reflexivity|].
  split; [|cbn [result conc]; apply Permutation_map; exact Hperm].
  intros v Hv. cbn [table conc] in Hv.
  destruct (In_nth_error _ _ Hv) as [i Hi].
  assert (Hlt : i < List.length (table s)).
  { rewrite <- (clean_length (table s)), <- Hc, clean_length.
    apply nth_error_Some. congruence. }
  assert (Hin : In i (t_path d' ++ t_result d')).
  { rewrite Hpath. cbn [app]. apply (Permutation_in _ (Permutation_sym Hperm)).
    apply in_seq. lia. }
  apply Hfl in Hin. unfold flagged in Hin. rewrite Hi in Hin. exact Hin.
Qed.

(** X6 (what [addEdge] commits).  On any reachable store, when
    [addEdge(v, w)] returns, the vertices, values and edges are as before
    if [v] was already listed among the predecessors of [w]; otherwise
    the only changes are that [v] is appended to that list and that [v]
    gets the [out] mark.  Either way [v] is then a predecessor of [w],
    and recording the same edge again returns and changes nothing. *)
Theorem addEdge_appends_once :
  forall os, exists s,
    run os empty = Some s
    /\ forall v w vv wv s',
        nth_error (table s) v = Some vv -> nth_error (table s) w = Some wv ->
        addEdge v w s = Ret tt s' ->
        ((In v (incoming wv) /\ clean (table s') = clean (table s))
         \/ (~ In v (incoming wv)
             /\ clean (table s')
                = clean (upd v (set_out true)
                           (upd w (append_incoming v) (table s)))))
        /\ In v (inc (table s') w)
        /\ exists s'', addEdge v w s' = Ret tt s''
                       /\ clean (table s'') = clean (table s').
Proof.
  intros os. destruct (run_wf os empty wf_empty) as (s & Hs & W).
  exists s. split; [assumption|].
  intros v w vv wv s' Ev Ew H.
  destruct (addEdge_returns s v w vv wv s' W Ev Ew H) as (W' & He & Hcase).
  split; [exact Hcase|]. split; [exact He|].
  apply addEdge_present; [assumption| |assumption].
  assert (L : List.length (table s') = List.length (table s)).
  { destruct Hcase as [[_ Hc]|[_ Hc]];
      rewrite <- (clean_length (table s')), Hc, clean_length; [reflexivity|].
    unfold add_edge. rewrite !upd_length. reflexivity. }
  rewrite L. apply nth_error_Some. congruence.
Qed.

(** X7 (what [before] and [after] mean).  On any reachable store, after
    a call [add(k, x, before, after)] that returned, a traversal emits
    [(k, x)] strictly before the entry of every [before] target and
    strictly after the entry of every [after] target. *)
Theorem before_after_order :
  forall os, exists s,
    run os empty = Some s
    /\ forall k x before after s1,
        DAG_add k x before after s = Ret tt s1 ->
        exists out s2,
          DAG_each s1 = Ret out s2
          /\ (forall t, truthy before = true -> In t (targets before) ->
                exists y l1 l2 l3, out = l1 ++ (k, x) :: l2 ++ (t, y) :: l3)
          /\ (forall t, truthy after = true -> In t (targets after) ->
                exists y l1 l2 l3, out = l1 ++ (t, y) :: l2 ++ (k, x) :: l3).
Proof.
  intros os. destruct (run_wf os empty wf_empty) as (s & Hs & W).
  exists s. split; [assumption|].
  intros k x before after s1 H.
  destruct (DAG_add_links s k x before after s1 W H)
    as (W1 & ik & vk & Hvk & Hkk & Hxk & Eb & Ea).
  destruct (walk_facts s1 W1) as (out & s2 & Hw & _ & _ & _ & _ & Hedge).
  exists out, s2. split; [exact Hw|].
  assert (Ek : entry (table s1) ik = (k, x))
    by (unfold entry; rewrite Hvk, Hkk, Hxk; reflexivity).
  split.
  - intros t Tb Ht. destruct (Eb t Tb Ht) as (it & vt & Hvt & Hkt & He).
    destruct (Hedge it ik He) as (l1 & l2 & l3 & Ho).
    exists (val vt), l1, l2, l3. rewrite Ho, Ek. unfold entry. rewrite Hvt, Hkt.
    reflexivity.
  - intros t Ta Ht. destruct (Ea t Ta Ht) as (it & vt & Hvt & Hkt & He).
    destruct (Hedge ik it He) as (l1 & l2 & l3 & Ho).
    exists (val vt), l1, l2, l3. rewrite Ho, Ek. unfold entry. rewrite Hvt, Hkt.
    reflexivity.
Qed.

(** X8 (the last value wins).  When [add(k, x, ...)] with a non-empty key
    is followed only by calls for other keys and by traversals, the
    store is traversed successfully and [(k, x)] is emitted -- whether
    the calls returned or threw. *)
Theorem last_value_is_emitted :
  forall os1 k x before after os2,
    k <> "" ->
    (forall x' before' after', ~ In (Add k x' before' after') os2) ->
    exists s out s',
      run (os1 ++ Add k x before after :: os2) empty = Some s
      /\ DAG_each s = Ret out s'
      /\ In (k, x) out.
Proof.
  intros os1 k x before after os2 Hk Hno.
  destruct (run_wf os1 empty wf_empty) as (s1 & Hs1 & W1).
  destruct (step_wf (Add k x before after) s1 W1) as (s2 & Hs2 & W2).
  destruct (run_wf os2 s2 W2) as (s & Hs & W).
  destruct (step_changes _ _ _ W1 Hs2) as [[Hk' _]|[_ (_ & _ & (i & v & Hv & Hkv & Hxv))]];
    [contradiction|].
  destruct (run_keeps_value os2 s2 s i v W2 Hv) as (v' & Hv' & K' & V');
    [rewrite Hkv; exact Hno|exact Hs|].
  destruct (walk_facts s W) as (out & s' & Hw & _ & _ & Hp & _).
  exists s, out, s'. split.
  - rewrite run_app, Hs1. cbn [run]. rewrite Hs2. exact Hs.
  - split; [exact Hw|].
    apply (Permutation_in _ Hp).
    replace (k, x) with (kv v') by (unfold kv; congruence).
    apply in_map. apply (nth_error_In _ _ Hv').
Qed.

Lemma last_value_is_emitted_sample :
  exists s out s',
    run ([Add "a" (number 1) omitted omitted]
           ++ Add "a" (number 2) (one "b") omitted
           :: [Add "b" (number 3) (one "a") omitted; Each]) empty = Some s
    /\ DAG_each s = Ret out s'
    /\ In ("a", number 2) out.
Proof.
  apply last_value_is_emitted.
  - discriminate.
  - intros x' before' after' [H|[H|[]]]; discriminate.
Defined.

(** X9 (nothing is ever removed).  Whatever calls follow, every vertex
    stays at its position with its index and key, and its predecessors
    stay, in order, at the front of its list: the table only grows. *)
Theorem vertices_and_edges_persist :
  forall os1 os2, exists s1 s2,
    run os1 empty = Some s1
    /\ run (os1 ++ os2) empty = Some s2
    /\ List.length (table s1) <= List.length (table s2)
    /\ forall i v, nth_error (table s1) i = Some v ->
         exists v', nth_error (table s2) i = Some v'
                    /\ idx v' = idx v /\ key v' = key v
                    /\ exists extra, incoming v' = incoming v ++ extra.
Proof.
  intros os1 os2.
  destruct (run_wf os1 empty wf_empty) as (s1 & Hs1 & W1).
  destruct (run_wf os2 s1 W1) as (s2 & Hs2 & W2).
  pose proof (run_persists os2 s1 s2 W1 Hs2) as P.
  exists s1, s2. split; [assumption|]. split; [rewrite run_app, Hs1; exact Hs2|].
  split; [|exact P].
  destruct (Nat.le_gt_cases (List.length (table s1)) (List.length (table s2)))
    as [|Hlt]; [assumption|exfalso].
  assert (Hi : List.length (table s2) < List.length (table s1)) by lia.
  apply nth_error_Some in Hi.
  destruct (nth_error (table s1) (List.length (table s2))) as [v|] eqn:E; [|congruence].
  destruct (P _ _ E) as (v' & Hv' & _).
  assert (List.length (table s2) < List.length (table s2))
    by (apply nth_error_Some; congruence). lia.
Qed.

(** X10 (insertion order without constraints).  When no call of [add]
    carries a constraint, a traversal emits the stored vertices in the
    order of the table, that is in the order in which their keys were
    first added, each with its current value. *)
Theorem unconstrained_order_is_insertion_order :
  forall os,
    forallb plain os = true ->
    exists s s',
      run os empty = Some s
      /\ DAG_each s = Ret (map kv (table s)) s'.
Proof.
  intros os Hp. destruct (run_wf os empty wf_empty) as (s & Hs & W).
  assert (F : flat (table s)).
  { apply (plain_run_flat os empty s wf_empty Hp); [constructor|exact Hs]. }
  destruct (walk_flat s W F) as (s' & Hw).
  exists s, s'. split; [exact Hs|exact Hw].
Qed.

Lemma unconstrained_order_sample :
  exists s s',
    run [Add "c" (number 1) omitted omitted; Add "a" (number 2) (one "") omitted;
         Each; Add "c" (number 3) omitted omitted; Add "b" undefined omitted omitted]
        empty = Some s
    /\ DAG_each s = Ret (map kv (table s)) s'.
Proof.
  apply unconstrained_order_is_insertion_order. reflexivity.
Defined.

(** X11 ([add] is idempotent).  On any reachable store, a call of [add]
    that returned can be made again with the same arguments: it returns
    again and leaves every vertex, value and edge as the first call left
    them. *)
Theorem add_twice_is_add_once :
  forall os, exists s,
    run os empty = Some s
    /\ forall k x before after s1,
        DAG_add k x before after s = Ret tt s1 ->
        exists s2,
          DAG_add k x before after s1 = Ret tt s2
          /\ map (set_flag false) (table s2) = map (set_flag false) (table s1).
Proof.
  intros os. destruct (run_wf os empty wf_empty) as (s & Hs & W).
  exists s. split; [assumption|].
  intros k x before after s1 H. exact (DAG_add_again s k x before after s1 W H).
Qed.

(** X12 ([pushIncoming]).  When every index listed by the vertex is a
    position of the table, [pushIncoming] returns having pushed the
    predecessors that are not yet visited, the first listed on top of the
    stack, and nothing else changes; when some listed index is not a
    position, the call ends in a [TypeError]. *)
Theorem pushIncoming_pushes_unvisited :
  forall v s,
    if forallb (fun c => (c <? List.length (table s))%nat) (incoming v)
    then pushIncoming v s
         = Ret tt (with_stack
                     (map Z.of_nat
                        (filter (fun c => negb (flagged (table s) c)) (incoming v))
                      ++ stack s) s)
    else pushIncoming v s = Fault.
Proof.
  intros v s.
  destruct (forallb _ (incoming v)) eqn:E.
  - apply pushIncoming_ok. intros c Hc.
    rewrite forallb_forall in E. apply Nat.ltb_lt. apply E. exact Hc.
  - unfold pushIncoming. apply pushIncoming_from_fault.
    rewrite forallb_rev. exact E.
Qed.

(** X13 ([Vertices.each]).  When every entry of the index stack is a
    position of the table, [each] calls the visitor with the key and value
    of each entry, from the bottom of the stack to the top, and leaves the
    store as it is; when some entry is negative or beyond the table, the
    call ends in a [TypeError]. *)
Theorem each_calls_in_slot_order :
  forall indices s,
    if forallb (fun i => (0 <=? i)%Z && (Z.to_nat i <? List.length (table s))%nat) indices
    then each indices s
         = Ret (map (fun i => entry (table s) (Z.to_nat i)) (rev indices)) s
    else each indices s = Fault.
Proof.
  intros indices s. unfold each.
  rewrite <- (forallb_rev _ indices). apply each_from_spec.
Qed.

(** X14 (constraints compose).  On any reachable store the traversal
    emits a vertex after every vertex from which it can be reached along
    one or more recorded predecessor edges: the order respects chains of
    constraints, not only single ones. *)
Theorem walk_respects_chains :
  forall os, exists s,
    run os empty = Some s
    /\ exists out s',
        DAG_each s = Ret out s'
        /\ forall x c vx vc,
            clos_trans nat (edge (table s)) x c ->
            nth_error (table s) x = Some vx -> nth_error (table s) c = Some vc ->
            exists l1 l2 l3,
              out = l1 ++ (key vc, val vc) :: l2 ++ (key vx, val vx) :: l3.
Proof.
  intros os. destruct (run_wf os empty wf_empty) as (s & Hs & W).
  exists s. split; [assumption|].
  destruct (walk_facts s W) as (out & s' & Hw & _).
  exists out, s'. split; [exact Hw|].
  intros x c vx vc H Hx Hc.
  destruct (walk_chain s out s' W Hw x c H) as (l1 & l2 & l3 & Ho).
  exists l1, l2, l3. unfold entry in Ho. rewrite Hx, Hc in Ho. exact Ho.
Qed.

(** X15 (a key among its own constraints).  On any reachable store a call
    of [add] whose [before] or [after] lists the key of the call itself
    throws; with the key alone as [before] the error is the self-cycle
    "cycle detected: k <- k". *)
Theorem self_constraint_is_rejected :
  forall os, exists s,
    run os empty = Some s
    /\ (forall k x before after,
          k <> "" ->
          (truthy before = true /\ In k (targets before))
          \/ (truthy after = true /\ In k (targets after)) ->
          exists msg s', DAG_add k x before after s = Throw msg s')
    /\ (forall k x after,
          k <> "" ->
          exists s', DAG_add k x (one k) after s
                     = Throw ("cycle detected: " ++ k ++ " <- " ++ k)%string s').
Proof.
  intros os. destruct (run_wf os empty wf_empty) as (s & Hs & W).
  exists s. split; [assumption|]. split.
  - intros k x before after Hk Hor. apply DAG_add_self; assumption.
  - intros k x after Hk. unfold DAG_add.
    apply String.eqb_neq in Hk. rewrite Hk. apply String.eqb_neq in Hk.
    destruct (Vertices_add_spec s k W Hk) as (v & s1 & u & H1 & W1 & G1 & Hu & Hku & _).
    unfold bind at 1. rewrite H1. unfold bind at 1, modify at 1.
    set (s2 := with_table (upd v (set_val x) (table s1)) s1).
    assert (W2 : wf (table s2)) by (apply wf_set_val; assumption).
    assert (Hu2 : nth_error (table s2) v = Some (set_val x u)).
    { cbn [s2 table with_table]. apply nth_error_upd_eq. assumption. }
    unfold bind at 1. cbn [truthy targets add_edges].
    apply String.eqb_neq in Hk. rewrite Hk. cbn [negb]. unfold bind at 1.
    rewrite (Vertices_add_stored s2 k v (set_val x u) W2 Hu2 Hku).
    unfold bind at 1. rewrite (addEdge_self s2 v _ Hu2).
    cbn [set_val key]. rewrite Hku. eauto.
Qed.

(** X16 ([visit]).  On any reachable store, a visit started after [reset]
    at a stored vertex, for a search key that no vertex has, returns with
    the work stack and the path empty; the result stack then holds,
    each once, exactly the vertices reachable from the start along
    recorded predecessor edges, these are exactly the vertices left
    flagged, and no vertex, value or edge has changed. *)
Theorem visit_marks_what_is_reachable :
  forall os, exists s,
    run os empty = Some s
    /\ forall start search,
        start < List.length (table s) ->
        (forall i v, nth_error (table s) i = Some v -> key v <> search) ->
        exists s' r,
          (reset ;;; visit start search) s = Ret tt s'
          /\ stack s' = [] /\ path s' = [] /\ result s' = map Z.of_nat r
          /\ map (set_flag false) (table s') = map (set_flag false) (table s)
          /\ NoDup r
          /\ (forall i, In i r <-> reaches (table s) start i)
          /\ (forall i, flagged (table s') i = true <-> reaches (table s) start i).
Proof.
  intros os. destruct (run_wf os empty wf_empty) as (s & Hs & W).
  exists s. split; [assumption|].
  intros start search Hx Hk. exact (visit_marks s start search W Hx Hk).
Qed.
